(** * serac: the quadrature-function based [Functional] and the Brighenti
    liquid-crystal-elastomer material

    A shallow embedding of
    - [serac/numerics/functional/functional.hpp]
      ([index_of_differentiation], [contains_unsupported_elements],
      [Functional] with its constructor, [AddDomainIntegral],
      [ActionOfGradient], [operator()] and the nested [Gradient]),
    - [serac/physics/materials/liquid_crystal_elastomer.hpp]
      ([BrighentiMechanical]),
    - [solvers/thermal_operators.cpp] ([DynamicConductionOperator]), and
    - [serac/physics/materials/tests/test_material_driver.cpp]
      ([uniaxial_stress_test]).

    Conventions of the embedding.
    - [double] is idealised as a real number ([R]): every statement about
      values is a statement of exact arithmetic.
    - [int] is [Z]; counts and indices ([uint32_t], [std::size_t], the
      number of elements of a mesh) are [nat].
    - [mfem::Vector] is a list of reals.  An element vector (E-vector) keeps
      its two-dimensional shape: one list of dof values per element.
    - A C array or [std::vector] is a list; an access outside of it is
      undefined behaviour in C++ and is a fault ([None]) of the model.
    - A method that mutates [*this] takes the object and returns the new one.
    - [SLIC_ERROR_ROOT_IF] and the classes of headers that are not part of
      the sources ([Integral], [ElementRestriction], the tensor helpers) are
      modelled from the specification; each such definition says so. *)

From Stdlib Require Import Reals Lra Lia ZArith String.
From stdpp Require Import base option list.

Local Open Scope R_scope.

(** ** Vectors *)

Abbreviation Vec := (list R).

(** An E-vector: [dofs_per_element] values for each element. *)
Abbreviation EVec := (list (list R)).

(** A dense block, stored by rows. *)
Abbreviation Matrix := (list (list R)).

Definition dot (u v : Vec) : R := foldr Rplus 0 (zip_with Rmult u v).

(** Inner product of two E-vectors: the sum over the elements. *)
Definition Edot (a b : EVec) : R := foldr Rplus 0 (zip_with dot a b).

Definition zeros (n : nat) : Vec := replicate n 0.

(** [v = 0.0] on an [mfem::Vector]: every entry is overwritten, the size is
    kept. *)
Definition assign_zero (v : Vec) : Vec := zeros (length v).

Definition matvec (A : Matrix) (x : Vec) : Vec := (λ row, dot row x) <$> A.

(** ** [index_of_differentiation] *)

(** The types that can appear in the parameter pack [T...] of
    [Functional::operator()]: only being [differentiate_wrt_this] or not
    matters to [std::is_same_v]. *)
Inductive ArgType :=
| mfem_Vector
| differentiate_wrt_this
| other_type (name : string).

Global Instance ArgType_eq_dec : EqDecision ArgType.
Proof. intros T U. unfold Decision. decide equality. apply String.string_dec. Defined.

Definition is_same_v (T U : ArgType) : bool :=
  match T, U with
  | mfem_Vector, mfem_Vector => true
  | differentiate_wrt_this, differentiate_wrt_this => true
  | other_type a, other_type b => String.eqb a b
  | _, _ => false
  end.

(** The loop [for (int i = 0; i < n; i++) if (matching[i]) return i;] over
    what is left of [matching], followed by [return -1]. *)
Fixpoint first_match (matching : list bool) (i : Z) : Z :=
  match matching with
  | [] => -1
  | m :: rest => if m then i else first_match rest (i + 1)
  end.

Definition index_of_differentiation (T : list ArgType) : Z :=
  let matching := (λ t, is_same_v t differentiate_wrt_this) <$> T in
  first_match matching 0.

(** ** Meshes and [contains_unsupported_elements] *)

(** [mfem::Element::Type]. *)
Inductive ElementType :=
| POINT | SEGMENT | TRIANGLE | QUADRILATERAL
| TETRAHEDRON | HEXAHEDRON | WEDGE | PYRAMID.

(** What the code reads of an [mfem::Mesh]. *)
Record Mesh := {
  Dimension : Z;
  elements : list ElementType;
}.

Definition GetNE (mesh : Mesh) : nat := length (elements mesh).

Definition unsupported (type : ElementType) : bool :=
  match type with
  | POINT | WEDGE | PYRAMID => true
  | _ => false
  end.

(** The loop over the elements [e = 0 .. num_elements - 1], returning [true]
    at the first unsupported type. *)
Fixpoint contains_unsupported_from (types : list ElementType) : bool :=
  match types with
  | [] => false
  | type :: rest => if unsupported type then true else contains_unsupported_from rest
  end.

Definition contains_unsupported_elements (mesh : Mesh) : bool :=
  contains_unsupported_from (elements mesh).

(** ** Element restriction *)

(** The orientation of an element-local dof relative to the shared dof. *)
Inductive Sign := positive_sign | negative_sign.

Definition sign_value (s : Sign) : R :=
  match s with positive_sign => 1 | negative_sign => -1 end.

(** Modelled from the spec: [element_restriction.hpp] is not among the
    sources.  The restriction is built once from the mesh connectivity and
    the dof numbering: for each element and each of its element-local dofs,
    the index of the (possibly shared) local dof and the orientation sign. *)
Record ElementRestriction := {
  dof_info : list (list (nat * Sign));
}.

(** A default-constructed restriction has no elements. *)
Definition ElementRestriction_default : ElementRestriction := {| dof_info := [] |}.

Definition entry (L_vector : Vec) (i : nat) : R := default 0 (L_vector !! i).

(** Modelled from the spec: "for each element and each of its local dofs,
    copies the corresponding (possibly shared) local-vector entry into the
    element-vector slot, applying any orientation sign". *)
Definition Gather (G : ElementRestriction) (L_vector : Vec) : EVec :=
  (λ element : list (nat * Sign), (λ d : nat * Sign, sign_value d.2 * entry L_vector d.1) <$> element)
    <$> dof_info G.

(** [L_vector[i] += x]. *)
Definition add_at (i : nat) (x : R) (L_vector : Vec) : Vec :=
  alter (λ y, y + x) i L_vector.

Definition scatter_element (element : list (nat * Sign)) (E_element : Vec) (L_vector : Vec)
    : Vec :=
  foldl (λ acc (p : (nat * Sign) * R), add_at p.1.1 (sign_value p.1.2 * p.2) acc)
        L_vector (zip element E_element).

(** Modelled from the spec: "for each element-local dof, adds the
    (sign-corrected) element-vector contribution into the shared
    local-vector entry.  Dofs shared by multiple elements accumulate
    contributions from all of them". *)
Definition ScatterAdd (G : ElementRestriction) (E_vector : EVec) (L_vector : Vec) : Vec :=
  foldl (λ acc (p : list (nat * Sign) * Vec), scatter_element p.1 p.2 acc)
        L_vector (zip (dof_info G) E_vector).

(** The shapes agree: every dof index of the restriction is an index of
    the local vector, and the E-vector has one value for each element-local
    dof of each element. *)
Definition compatible_shape (G : ElementRestriction) (L_vector : Vec) (E_vector : EVec)
    : bool :=
  forallb (forallb (λ d : nat * Sign, d.1 <? length L_vector)%nat) (dof_info G)
  && (length E_vector =? length (dof_info G))%nat
  && forallb (λ p : list (nat * Sign) * Vec, length p.1 =? length p.2)%nat
             (zip (dof_info G) E_vector).

(** ** mfem collaborators *)

(** An [mfem::Operator], by its two actions. *)
Record Operator := {
  Mult : Vec → Vec;
  MultTranspose : Vec → Vec;
}.

(** What the code reads of an [mfem::ParFiniteElementSpace]. *)
Record ParFiniteElementSpace := {
  GetTrueVSize : nat;
  GetProlongationMatrix : Operator;
  Dof_TrueDof_Matrix : Operator;
}.

(** An [mfem::SparseMatrix] in compressed-row form, as its constructor from
    [(row_ptr, col_ind, values, height, width)] stores it. *)
Record SparseMatrix := {
  csr_I : list nat;
  csr_J : list nat;
  csr_A : Vec;
  csr_height : nat;
  csr_width : nat;
}.

Definition csr_row (M : SparseMatrix) (x : Vec) (r : nat) : R :=
  let lo := default 0%nat (csr_I M !! r) in
  let hi := default 0%nat (csr_I M !! S r) in
  foldr Rplus 0
    ((λ k, entry (csr_A M) k * entry x (default 0%nat (csr_J M !! k))) <$> seq lo (hi - lo)).

Definition SparseMatrix_Mult (M : SparseMatrix) (x : Vec) : Vec :=
  csr_row M x <$> seq 0 (csr_height M).

(** The result of [mfem::RAP(R, A, P)], the product [R^T A P], where [A] is
    the [mfem::HypreParMatrix] wrapping the local sparse matrix. *)
Inductive HypreParMatrix := RAP (R : Operator) (A : SparseMatrix) (P : Operator).

Definition HypreParMatrix_Mult (K : HypreParMatrix) (x : Vec) : Vec :=
  match K with
  | RAP R A P => MultTranspose R (SparseMatrix_Mult A (Mult P x))
  end.

(** The members of [GradientAssemblyLookupTables] that the code reads
    ([dof_numbering.hpp] is not among the sources). *)
Record GradientAssemblyLookupTables := {
  nnz : nat;
  row_ptr : list nat;
  col_ind : list nat;
}.

(** ** Function spaces *)

Inductive Family := H1 | HCURL | HDIV | L2.

(** The tag types [H1<order, components>], [Hcurl<order>], ... *)
Record FunctionSpace := {
  family : Family;
  order : Z;
  components : Z;
}.

(** [Integral::Type]; [Integral::num_types] is the number of constructors. *)
Inductive IntegralType := Domain | Boundary.

(** An array indexed by [Integral::Type], such as
    [block_output_E_[Integral::num_types]]. *)
Record PerType (A : Type) := {
  of_domain : A;
  of_boundary : A;
}.
Arguments of_domain {A} _.
Arguments of_boundary {A} _.

Definition at_type {A} (a : PerType A) (t : IntegralType) : A :=
  match t with Domain => of_domain a | Boundary => of_boundary a end.

Definition set_at_type {A} (t : IntegralType) (x : A) (a : PerType A) : PerType A :=
  match t with
  | Domain => {| of_domain := x; of_boundary := of_boundary a |}
  | Boundary => {| of_domain := of_domain a; of_boundary := x |}
  end.

Definition all_types {A} (x : A) : PerType A := {| of_domain := x; of_boundary := x |}.

(** The body of a range-based or counting [for] loop, run on each item in
    turn; a fault in one iteration is a fault of the loop. *)
Fixpoint for_each {S A} (body : S → A → option S) (items : list A) (s : S) : option S :=
  match items with
  | [] => Some s
  | a :: rest => s' ← body s a; for_each body rest s'
  end.

(** ** Arguments of [Functional::operator()] *)

(** An argument is an [mfem::Vector], possibly wrapped by
    [differentiate_wrt(v)] into a [differentiate_wrt_this]. *)
Inductive Arg :=
| plain (v : Vec)
| differentiate_wrt (v : Vec).

Definition type_of (a : Arg) : ArgType :=
  match a with
  | plain _ => mfem_Vector
  | differentiate_wrt _ => differentiate_wrt_this
  end.

(** [static_cast<const mfem::Vector&>(arg)]: the wrapper converts back to
    the vector it refers to. *)
Definition as_Vector (a : Arg) : Vec :=
  match a with
  | plain v => v
  | differentiate_wrt v => v
  end.

(** The outcome of instantiating a template. *)
Inductive Instantiation (A : Type) :=
| compiled (a : A)
| static_assert_failed (msg : string)
| ill_formed.
Arguments compiled {A} _.
Arguments static_assert_failed {A} _.
Arguments ill_formed {A}.

(** The fold expression [(std::is_same_v<T, differentiate_wrt_this> + ...)]:
    a unary fold over [+] has no value for an empty pack. *)
Definition num_differentiated_arguments (T : list ArgType) : option Z :=
  match T with
  | [] => None
  | _ => Some (foldr Z.add 0%Z
                 ((λ t, if is_same_v t differentiate_wrt_this then 1%Z else 0%Z) <$> T))
  end.

(** What an evaluation does besides computing: the gathers. *)
Inductive Event :=
| gather_event (type : IntegralType) (i : nat).

Global Instance IntegralType_eq_dec : EqDecision IntegralType.
Proof. solve_decision. Defined.

Global Instance Event_eq_dec : EqDecision Event.
Proof. solve_decision. Defined.

(** ** Configuration errors *)

(** How a call that can signal a configuration error ends: normally, with
    the object it leaves, or in the error, with the object as it is then. *)
Inductive result (A : Type) :=
| Ok (a : A)
| ConfigurationError (msg : string) (at_abort : A).
Arguments Ok {A} _.
Arguments ConfigurationError {A} _ _.

(** Modelled from the spec: the macro [SLIC_ERROR_ROOT_IF(EXP, msg)] of
    [logger.hpp] is not among the sources; a configuration error is
    reported "as a fatal-to-that-call failure" when [EXP] holds. *)
Definition SLIC_ERROR_ROOT_IF {A} (EXP : bool) (msg : string) (this : A)
    (continue : result A) : result A :=
  if EXP then ConfigurationError msg this else continue.

Section Functional.
(** The types of the q-function: what it receives at a quadrature point
    (coordinates and interpolated fields, plain or dual), what it returns,
    and the state it keeps at each point ([qpt_data_type]). *)
Context {qf_input qf_output qpt_data_type : Type}.

(** *** Integral *)

(** The quadrature evaluator of one integral, on its domain: the
    shape-function tables and the quadrature rule are external
    collaborators, taken as parameters.
    - [interpolate]: the values of the active trial fields at every
      quadrature point, the argument [wrt] (if not negative) seeded as a
      dual number;
    - [integrate]: the weighted sum of the q-function's outputs against
      the test space's shape functions;
    - [tangent]: the per-element Jacobian blocks (test dof x trial dof)
      carried by the dual parts of the outputs;
    - [state_by_reference]: whether the kernels hand the q-function the
      persisted state of the point itself, so that what it writes there
      stays also in a call without the update-state flag, or a copy that
      is stored when the flag is set.  The kernels are not among the
      sources, and the two sentences of the spec on the state do not
      decide between the two. *)
Record Evaluator := {
  interpolate : list EVec → Z → list qf_input;
  integrate : list qf_output → EVec;
  tangent : list qf_output → list Matrix;
  state_by_reference : bool;
}.

(** Modelled from the spec: [integral.hpp] is not among the sources.  An
    Integral "binds a q-function, a domain, a quadrature order, which
    trial-space indices it depends on, and optional persistent
    per-quadrature-point state"; a differentiating evaluation caches the
    per-element tangent map.  The q-function's [State&] parameter is an
    input and an output of [qf].  [qdata] has one state for each quadrature
    point of the domain; for an integral without state ([NoQData]) the
    states carry nothing. *)
Record Integral := {
  type : IntegralType;
  active_trial_spaces : list nat;
  quadrature_order : Z;
  geometry_dim : Z;
  domain : Mesh;
  qf : qf_input → qpt_data_type → qf_output * qpt_data_type;
  qdata : list qpt_data_type;
  evaluator : Evaluator;
  element_gradients : nat → list Matrix;
}.

Definition set_qdata (states : list qpt_data_type) (I : Integral) : Integral :=
  {| type := type I; active_trial_spaces := active_trial_spaces I;
     quadrature_order := quadrature_order I; geometry_dim := geometry_dim I;
     domain := domain I; qf := qf I; qdata := states; evaluator := evaluator I;
     element_gradients := element_gradients I |}.

Definition set_element_gradients (which : nat) (blocks : list Matrix) (I : Integral)
    : Integral :=
  {| type := type I; active_trial_spaces := active_trial_spaces I;
     quadrature_order := quadrature_order I; geometry_dim := geometry_dim I;
     domain := domain I; qf := qf I; qdata := qdata I; evaluator := evaluator I;
     element_gradients := λ j, if decide (j = which) then blocks else element_gradients I j |}.

(** Modelled from the spec: the q-function is invoked at every quadrature
    point with "a mutable reference to that point's persisted state, which
    the q-function may read and update when the update state flag is set
    for this call"; its outputs are integrated against the test functions;
    when an argument is differentiated the tangent blocks are cached.  With
    the flag set, the buffer holds afterwards what the q-function left in
    the states.  Without the flag, it holds that too when the kernels hand
    over the persisted state itself, and what it held before when they hand
    over a copy: see [state_by_reference]. *)
Definition Integral_Mult (I : Integral) (input_E : list EVec) (wrt : Z)
    (update_state : bool) : EVec * Integral :=
  let points := interpolate (evaluator I) input_E wrt in
  let results := zip_with (qf I) points (qdata I) in
  let outputs := fst <$> results in
  let I1 := if (0 <=? wrt)%Z
            then set_element_gradients (Z.to_nat wrt) (tangent (evaluator I) outputs) I
            else I in
  let states := if update_state || state_by_reference (evaluator I)
                then snd <$> results
                else qdata I in
  (integrate (evaluator I) outputs, set_qdata states I1).

(** Modelled from the spec: "applies the cached per-element Jacobian block
    for the named trial argument to a perturbation", without invoking the
    q-function. *)
Definition Integral_GradientMult (I : Integral) (input_E : EVec) (which : nat) : EVec :=
  zip_with matvec (element_gradients I which) input_E.

(** Modelled from the spec: [MakeDomainIntegral<signature, Q, dim>(domain,
    integrand, qdata, args)] of [domain_integral.hpp], which is not among
    the sources; [kernels] stands for the evaluator it builds from the
    spaces of the signature, [Q], [dim] and the mesh. *)
Definition MakeDomainIntegral (Q : Z) (dim : Z) (kernels : Evaluator) (domain : Mesh)
    (integrand : qf_input → qpt_data_type → qf_output * qpt_data_type)
    (qdata : list qpt_data_type) (args : list nat) : Integral :=
  {| type := Domain; active_trial_spaces := args; quadrature_order := Q;
     geometry_dim := dim; domain := domain; qf := integrand; qdata := qdata;
     evaluator := kernels; element_gradients := λ _, [] |}.

(** *** Gradient *)

(** The members of [Functional::Gradient].  The reference [form_] to the
    parent [Functional] is not stored: the methods take the parent as an
    argument. *)
Record Gradient := {
  lookup_tables : GradientAssemblyLookupTables;
  col_ind_copy_ : list nat;
  which_argument : nat;
  Gradient_test_space_ : ParFiniteElementSpace;
  Gradient_trial_space_ : ParFiniteElementSpace;
  df_ : Vec;
}.

(** *** Functional *)

Record Functional := {
  (* the template parameters [test(trials...)] *)
  test : FunctionSpace;
  trials : list FunctionSpace;
  (* the members *)
  update_qdata : bool;
  input_L_ : list Vec;
  output_L_ : Vec;
  block_input_E_ : PerType (list EVec);
  block_output_E_ : PerType EVec;
  output_T_ : Vec;
  test_space_ : ParFiniteElementSpace;
  trial_space_ : list ParFiniteElementSpace;
  P_test_ : Operator;
  G_test_ : ElementRestriction;
  (* a pointer that was never assigned is [None] *)
  P_trial_ : list (option Operator);
  G_trial_ : list ElementRestriction;
  integrals_ : list Integral;
  grad_ : list Gradient;
}.

Definition num_trial_spaces (f : Functional) : nat := length (trials f).

(** [Q = std::max({test::order, trials::order...}) + 1]. *)
Definition Q (f : Functional) : Z :=
  (foldr Z.max (order (test f)) (order <$> trials f) + 1)%Z.

Definition set_input_L_ (x : list Vec) (f : Functional) : Functional :=
  {| test := test f; trials := trials f; update_qdata := update_qdata f;
     input_L_ := x; output_L_ := output_L_ f; block_input_E_ := block_input_E_ f;
     block_output_E_ := block_output_E_ f; output_T_ := output_T_ f;
     test_space_ := test_space_ f; trial_space_ := trial_space_ f; P_test_ := P_test_ f;
     G_test_ := G_test_ f; P_trial_ := P_trial_ f; G_trial_ := G_trial_ f;
     integrals_ := integrals_ f; grad_ := grad_ f |}.

Definition set_output_L_ (x : Vec) (f : Functional) : Functional :=
  {| test := test f; trials := trials f; update_qdata := update_qdata f;
     input_L_ := input_L_ f; output_L_ := x; block_input_E_ := block_input_E_ f;
     block_output_E_ := block_output_E_ f; output_T_ := output_T_ f;
     test_space_ := test_space_ f; trial_space_ := trial_space_ f; P_test_ := P_test_ f;
     G_test_ := G_test_ f; P_trial_ := P_trial_ f; G_trial_ := G_trial_ f;
     integrals_ := integrals_ f; grad_ := grad_ f |}.

Definition set_block_input_E_ (x : PerType (list EVec)) (f : Functional) : Functional :=
  {| test := test f; trials := trials f; update_qdata := update_qdata f;
     input_L_ := input_L_ f; output_L_ := output_L_ f; block_input_E_ := x;
     block_output_E_ := block_output_E_ f; output_T_ := output_T_ f;
     test_space_ := test_space_ f; trial_space_ := trial_space_ f; P_test_ := P_test_ f;
     G_test_ := G_test_ f; P_trial_ := P_trial_ f; G_trial_ := G_trial_ f;
     integrals_ := integrals_ f; grad_ := grad_ f |}.

Definition set_block_output_E_ (x : PerType EVec) (f : Functional) : Functional :=
  {| test := test f; trials := trials f; update_qdata := update_qdata f;
     input_L_ := input_L_ f; output_L_ := output_L_ f; block_input_E_ := block_input_E_ f;
     block_output_E_ := x; output_T_ := output_T_ f;
     test_space_ := test_space_ f; trial_space_ := trial_space_ f; P_test_ := P_test_ f;
     G_test_ := G_test_ f; P_trial_ := P_trial_ f; G_trial_ := G_trial_ f;
     integrals_ := integrals_ f; grad_ := grad_ f |}.

Definition set_output_T_ (x : Vec) (f : Functional) : Functional :=
  {| test := test f; trials := trials f; update_qdata := update_qdata f;
     input_L_ := input_L_ f; output_L_ := output_L_ f; block_input_E_ := block_input_E_ f;
     block_output_E_ := block_output_E_ f; output_T_ := x;
     test_space_ := test_space_ f; trial_space_ := trial_space_ f; P_test_ := P_test_ f;
     G_test_ := G_test_ f; P_trial_ := P_trial_ f; G_trial_ := G_trial_ f;
     integrals_ := integrals_ f; grad_ := grad_ f |}.

Definition set_integrals_ (x : list Integral) (f : Functional) : Functional :=
  {| test := test f; trials := trials f; update_qdata := update_qdata f;
     input_L_ := input_L_ f; output_L_ := output_L_ f; block_input_E_ := block_input_E_ f;
     block_output_E_ := block_output_E_ f; output_T_ := output_T_ f;
     test_space_ := test_space_ f; trial_space_ := trial_space_ f; P_test_ := P_test_ f;
     G_test_ := G_test_ f; P_trial_ := P_trial_ f; G_trial_ := G_trial_ f;
     integrals_ := x; grad_ := grad_ f |}.

(** The public member [update_qdata] is assigned by the caller. *)
Definition set_update_qdata (x : bool) (f : Functional) : Functional :=
  {| test := test f; trials := trials f; update_qdata := x;
     input_L_ := input_L_ f; output_L_ := output_L_ f; block_input_E_ := block_input_E_ f;
     block_output_E_ := block_output_E_ f; output_T_ := output_T_ f;
     test_space_ := test_space_ f; trial_space_ := trial_space_ f; P_test_ := P_test_ f;
     G_test_ := G_test_ f; P_trial_ := P_trial_ f; G_trial_ := G_trial_ f;
     integrals_ := integrals_ f; grad_ := grad_ f |}.

(** The constructor.  Its member initialisers set [update_qdata],
    [test_space_] and [trial_space_]; its body sets [P_test_]; everything
    after that is inside [#if 0 ... #endif].  So the vectors are empty, the
    restrictions default-constructed, the pointers [P_trial_[i]] never
    assigned, and [integrals_] and [grad_] are empty. *)
Definition Functional_ctor (test : FunctionSpace) (trials : list FunctionSpace)
    (test_fes : ParFiniteElementSpace) (trial_fes : list ParFiniteElementSpace)
    : Functional :=
  let n := length trials in
  {| test := test; trials := trials; update_qdata := false;
     input_L_ := replicate n []; output_L_ := [];
     block_input_E_ := all_types []; block_output_E_ := all_types [];
     output_T_ := [];
     test_space_ := test_fes; trial_space_ := trial_fes;
     P_test_ := GetProlongationMatrix test_fes;
     G_test_ := ElementRestriction_default;
     P_trial_ := replicate n None;
     G_trial_ := replicate n ElementRestriction_default;
     integrals_ := []; grad_ := [] |}.

(** The constructor of [Gradient]: [Gradient(f, which)].  The lookup
    tables are built from the two spaces by [dof_numbering.hpp], which is
    not among the sources; [tables] stands for that construction.  [df_]
    is allocated with the true size of the test space; its entries, which
    the constructor does not set, are taken to be zero. *)
Definition Gradient_ctor
    (tables : ParFiniteElementSpace → ParFiniteElementSpace → GradientAssemblyLookupTables)
    (f : Functional) (which : nat) : option Gradient :=
  trial ← trial_space_ f !! which;
  Some {| lookup_tables := tables (test_space_ f) trial;
          col_ind_copy_ := [];
          which_argument := which;
          Gradient_test_space_ := test_space_ f;
          Gradient_trial_space_ := trial;
          df_ := zeros (GetTrueVSize (test_space_ f)) |}.

(** *** [AddDomainIntegral] *)

(** [AddDomainIntegral(Dimension<dim>, DependsOn<args...>, integrand,
    domain, qdata)].  [qdata] is the content of the [QuadratureData] that
    the shared pointer refers to: as in the spec, the state is bound to the
    integral that is created.  [kernels] is the evaluator that
    [MakeDomainIntegral] builds. *)
Definition AddDomainIntegral (dim : Z) (args : list nat) (kernels : Evaluator)
    (integrand : qf_input → qpt_data_type → qf_output * qpt_data_type)
    (domain : Mesh) (qdata : list qpt_data_type) (f : Functional) : result Functional :=
  if (GetNE domain =? 0)%nat then Ok f
  else
    SLIC_ERROR_ROOT_IF (negb (dim =? Dimension domain)%Z)
      "invalid mesh dimension for domain integral" f
      (SLIC_ERROR_ROOT_IF (contains_unsupported_elements domain)
         "Mesh contains unsupported element type" f
         (Ok (set_integrals_
                (integrals_ f ++
                   [MakeDomainIntegral (Q f) dim kernels domain integrand qdata args])
                f))).

Definition AddAreaIntegral := AddDomainIntegral 2.

Definition AddVolumeIntegral := AddDomainIntegral 3.

(** [AddSurfaceIntegral] calls [AddBoundaryIntegral], which is commented out
    in the source: it has no instance and is not part of the embedding. *)

(** *** [ActionOfGradient] *)

(** [p[i]] for an array of pointers, dereferenced. *)
Definition deref {A} (p : list (option A)) (i : nat) : option A := mjoin (p !! i).

(** One iteration of [for (auto& integral : integrals_)] in
    [ActionOfGradient], on the integral at position [k];
    [already_computed] is the array of the per-type flags. *)
Definition ActionOfGradient_body (which : nat) (s : Functional * PerType bool) (k : nat)
    : option (Functional * PerType bool) :=
  let '(f, already_computed) := s in
  integral ← integrals_ f !! k;
  let type := type integral in
  '(f1, already_computed1) ←
    (if negb (at_type already_computed type)
     then
       G ← G_trial_ f !! which;
       L ← input_L_ f !! which;
       _ ← at_type (block_input_E_ f) type !! which;
       Some (set_block_input_E_
               (set_at_type type (<[which := Gather G L]> (at_type (block_input_E_ f) type))
                  (block_input_E_ f)) f,
             set_at_type type true already_computed)
     else Some (f, already_computed));
  E ← at_type (block_input_E_ f1) type !! which;
  let out := Integral_GradientMult integral E which in
  let f2 := set_block_output_E_ (set_at_type type out (block_output_E_ f1)) f1 in
  let f3 := set_output_L_ (ScatterAdd (G_test_ f2) out (output_L_ f2)) f2 in
  Some (f3, already_computed1).

(** [ActionOfGradient(input_T, output_T, which)]: the object after the
    call (its buffers are [mutable]) and the value written to [output_T]. *)
Definition ActionOfGradient (f : Functional) (input_T : Vec) (which : nat)
    : option (Functional * Vec) :=
  P ← deref (P_trial_ f) which;
  _ ← input_L_ f !! which;
  let f1 := set_input_L_ (<[which := Mult P input_T]> (input_L_ f)) f in
  let f2 := set_output_L_ (assign_zero (output_L_ f1)) f1 in
  s ← for_each (ActionOfGradient_body which) (seq 0 (length (integrals_ f2)))
               (f2, all_types false);
  Some (s.1, MultTranspose (P_test_ s.1) (output_L_ s.1)).

(** *** [operator()] *)

(** What lives for one call of [operator()]: the object, the local array
    [already_computed[Integral::num_types][num_trial_spaces]], and the
    record of what was done. *)
Record Call := {
  object : Functional;
  already_computed : PerType (list bool);
  trace : list Event;
}.

(** [for (uint32_t i = 0; i < num_trial_spaces; i++)
      P_trial_[i]->Mult(input_T[i], input_L_[i]);], the arguments
    dereferenced *)
Definition prolongate_body (input_T : list Vec) (f : Functional) (i : nat)
    : option Functional :=
  P ← deref (P_trial_ f) i;
  x ← input_T !! i;
  _ ← input_L_ f !! i;
  Some (set_input_L_ (<[i := Mult P x]> (input_L_ f)) f).

(** One iteration of [for (auto i : integral.active_trial_spaces)]. *)
Definition gather_body (type : IntegralType) (c : Call) (i : nat) : option Call :=
  flag ← at_type (already_computed c) type !! i;
  if negb flag
  then
    G ← G_trial_ (object c) !! i;
    L ← input_L_ (object c) !! i;
    _ ← at_type (block_input_E_ (object c)) type !! i;
    Some {| object :=
              set_block_input_E_
                (set_at_type type
                   (<[i := Gather G L]> (at_type (block_input_E_ (object c)) type))
                   (block_input_E_ (object c)))
                (object c);
            already_computed :=
              set_at_type type (<[i := true]> (at_type (already_computed c) type))
                (already_computed c);
            trace := trace c ++ [gather_event type i] |}
  else Some c.

(** [integral.Mult(block_input_E_[type], block_output_E_[type], wrt,
    update_qdata)] on the integral at position [k], followed by
    [G_test_.ScatterAdd(block_output_E_[type], output_L_)]. *)
Definition evaluate_integral (wrt : Z) (k : nat) (integral : Integral) (c : Call) : Call :=
  let f := object c in
  let type := type integral in
  let '(out, integral') :=
    Integral_Mult integral (at_type (block_input_E_ f) type) wrt (update_qdata f) in
  let f1 := set_integrals_ (<[k := integral']> (integrals_ f)) f in
  let f2 := set_block_output_E_ (set_at_type type out (block_output_E_ f1)) f1 in
  let f3 := set_output_L_ (ScatterAdd (G_test_ f2) out (output_L_ f2)) f2 in
  {| object := f3;
     already_computed := already_computed c;
     trace := trace c |}.

(** One iteration of [for (auto& integral : integrals_)] in [operator()],
    on the integral at position [k]. *)
Definition operator_paren_body (wrt : Z) (c : Call) (k : nat) : option Call :=
  integral ← integrals_ (object c) !! k;
  c1 ← for_each (gather_body (type integral)) (active_trial_spaces integral) c;
  Some (evaluate_integral wrt k integral c1).

(** [operator_paren_return<wrt>::type]. *)
Inductive operator_paren_return :=
| value (output_T : Vec)
| value_and_gradient (output_T : Vec) (gradient : Gradient).

(** The last statements of [operator()]: the transpose prolongation, and
    the two [if constexpr] returns. *)
Definition operator_paren_finish (wrt : Z) (c : Call)
    : option (Functional * operator_paren_return * list Event) :=
  let f := object c in
  let f' := set_output_T_ (MultTranspose (P_test_ f) (output_L_ f)) f in
  if (0 <=? wrt)%Z
  then gradient ← grad_ f' !! Z.to_nat wrt;
       Some (f', value_and_gradient (output_T_ f') gradient, trace c)
  else if (wrt =? -1)%Z
       then Some (f', value (output_T_ f'), trace c)
       else None.

(** [operator()(DifferentiateWRT<wrt>, args...)]: the object after the
    call, what is returned, and the events of the call. *)
Definition operator_paren (f : Functional) (wrt : Z) (input_T : list Vec)
    : option (Functional * operator_paren_return * list Event) :=
  f1 ← for_each (prolongate_body input_T) (seq 0 (num_trial_spaces f)) f;
  let f2 := set_output_L_ (assign_zero (output_L_ f1)) f1 in
  c ← for_each (operator_paren_body wrt) (seq 0 (length (integrals_ f2)))
        {| object := f2;
           already_computed := all_types (replicate (num_trial_spaces f) false);
           trace := [] |};
  operator_paren_finish wrt c.

(** The overload [operator()(args...)], with its two [static_assert]s. *)
Definition operator_paren_variadic (f : Functional) (args : list Arg)
    : Instantiation (option (Functional * operator_paren_return * list Event)) :=
  match num_differentiated_arguments (type_of <$> args) with
  | None => ill_formed
  | Some n =>
      if negb (n <=? 1)%Z
      then static_assert_failed
             "Error: Functional::operator() can only differentiate w.r.t. 1 argument a time"
      else if negb (length args =? num_trial_spaces f)%nat
      then static_assert_failed
             "Error: Functional::operator() must take exactly as many arguments as trial spaces"
      else
        let i := index_of_differentiation (type_of <$> args) in
        compiled (operator_paren f i (as_Vector <$> args))
  end.

(** The evaluation that the deduplication is compared with: the same
    call, every integral gathering each of its trial spaces itself. *)
Definition gather_always_body (type : IntegralType) (c : Call) (i : nat) : option Call :=
  _ ← at_type (already_computed c) type !! i;
  G ← G_trial_ (object c) !! i;
  L ← input_L_ (object c) !! i;
  _ ← at_type (block_input_E_ (object c)) type !! i;
  Some {| object :=
            set_block_input_E_
              (set_at_type type
                 (<[i := Gather G L]> (at_type (block_input_E_ (object c)) type))
                 (block_input_E_ (object c)))
              (object c);
          already_computed := already_computed c;
          trace := trace c ++ [gather_event type i] |}.

Definition gather_per_integral_body (wrt : Z) (c : Call) (k : nat) : option Call :=
  integral ← integrals_ (object c) !! k;
  c1 ← for_each (gather_always_body (type integral)) (active_trial_spaces integral) c;
  Some (evaluate_integral wrt k integral c1).

Definition operator_paren_gather_per_integral (f : Functional) (wrt : Z)
    (input_T : list Vec) : option (Functional * operator_paren_return * list Event) :=
  f1 ← for_each (prolongate_body input_T) (seq 0 (num_trial_spaces f)) f;
  let f2 := set_output_L_ (assign_zero (output_L_ f1)) f1 in
  c ← for_each (gather_per_integral_body wrt) (seq 0 (length (integrals_ f2)))
        {| object := f2;
           already_computed := all_types (replicate (num_trial_spaces f) false);
           trace := [] |};
  operator_paren_finish wrt c.

(** *** The methods of [Gradient] *)

(** [Gradient::Mult(dx, df)]. *)
Definition Gradient_Mult (form_ : Functional) (g : Gradient) (dx : Vec)
    : option (Functional * Vec) :=
  ActionOfGradient form_ dx (which_argument g).

(** [Gradient::operator()(dx)]: the action is stored in [df_]. *)
Definition Gradient_call (form_ : Functional) (g : Gradient) (dx : Vec)
    : option (Functional * Gradient * Vec) :=
  '(form', df) ← ActionOfGradient form_ dx (which_argument g);
  Some (form',
        {| lookup_tables := lookup_tables g; col_ind_copy_ := col_ind_copy_ g;
           which_argument := which_argument g;
           Gradient_test_space_ := Gradient_test_space_ g;
           Gradient_trial_space_ := Gradient_trial_space_ g; df_ := df |},
        df).

(** [Gradient::assemble()].  [values] is the zero-initialised array
    [new double[lookup_tables.nnz]{}]; the two blocks that would add the
    element and boundary-element contributions to it are commented out in
    the source, so nothing is added. *)
Definition assemble (form_ : Functional) (g : Gradient)
    : option (Gradient * HypreParMatrix) :=
  let values := zeros (nnz (lookup_tables g)) in
  let col_ind_copy := col_ind (lookup_tables g) in
  input_L ← input_L_ form_ !! which_argument g;
  let J_local :=
    {| csr_I := row_ptr (lookup_tables g); csr_J := col_ind_copy; csr_A := values;
       csr_height := length (output_L_ form_); csr_width := length input_L |} in
  let R := Dof_TrueDof_Matrix (test_space_ form_) in
  let P := Dof_TrueDof_Matrix (Gradient_trial_space_ g) in
  Some ({| lookup_tables := lookup_tables g; col_ind_copy_ := col_ind_copy;
           which_argument := which_argument g;
           Gradient_test_space_ := Gradient_test_space_ g;
           Gradient_trial_space_ := Gradient_trial_space_ g; df_ := df_ g |},
        RAP R J_local P).

End Functional.

Arguments Evaluator : clear implicits.
Arguments Integral : clear implicits.
Arguments Functional : clear implicits.
Arguments Call : clear implicits.

(** ** Tensors of [tensor.hpp] *)

(** [tensor<double, 3>] and [tensor<double, 3, 3>] (by rows).  The header
    [tensor.hpp] is not among the sources; the operations below have the
    meaning that [tensor_unit_tests.cpp] checks for them. *)
Abbreviation vec3 := (R * R * R)%type.
Abbreviation mat3 := ((R * R * R) * (R * R * R) * (R * R * R))%type.

Definition vscale (a : R) (v : vec3) : vec3 :=
  let '(x, y, z) := v in (a * x, a * y, a * z).

(** [v / a]. *)
Definition vdiv (v : vec3) (a : R) : vec3 :=
  let '(x, y, z) := v in (x / a, y / a, z / a).

Definition vadd (u v : vec3) : vec3 :=
  let '(x, y, z) := u in let '(x', y', z') := v in (x + x', y + y', z + z').

Definition vdot (u v : vec3) : R :=
  let '(x, y, z) := u in let '(x', y', z') := v in x * x' + y * y' + z * z'.

Definition squared_norm (v : vec3) : R := vdot v v.

Definition norm (v : vec3) : R := sqrt (squared_norm v).

Definition outer (u v : vec3) : mat3 :=
  let '(x, y, z) := u in (vscale x v, vscale y v, vscale z v).

(** [Identity<3>()] and [DenseIdentity<3>()]. *)
Definition Identity : mat3 := ((1, 0, 0), (0, 1, 0), (0, 0, 1)).

Definition mscale (a : R) (A : mat3) : mat3 :=
  let '(r0, r1, r2) := A in (vscale a r0, vscale a r1, vscale a r2).

Definition madd (A B : mat3) : mat3 :=
  let '(r0, r1, r2) := A in let '(s0, s1, s2) := B in (vadd r0 s0, vadd r1 s1, vadd r2 s2).

Definition msub (A B : mat3) : mat3 := madd A (mscale (-1) B).

Definition transpose (A : mat3) : mat3 :=
  let '((a, b, c), (d, e, f), (g, h, i)) := A in ((a, d, g), (b, e, h), (c, f, i)).

(** [dot(A, B)], the matrix product. *)
Definition mdot (A B : mat3) : mat3 :=
  let '(r0, r1, r2) := A in
  let '(c0, c1, c2) := transpose B in
  ((vdot r0 c0, vdot r0 c1, vdot r0 c2),
   (vdot r1 c0, vdot r1 c1, vdot r1 c2),
   (vdot r2 c0, vdot r2 c1, vdot r2 c2)).

Definition det (A : mat3) : R :=
  let '((a, b, c), (d, e, f), (g, h, i)) := A in
  a * (e * i - f * h) - b * (d * i - f * g) + c * (d * h - e * g).

Definition inv (A : mat3) : mat3 :=
  let '((a, b, c), (d, e, f), (g, h, i)) := A in
  mscale (/ det A)
    ((e * i - f * h, c * h - b * i, b * f - c * e),
     (f * g - d * i, a * i - c * g, c * d - a * f),
     (d * h - e * g, b * g - a * h, a * e - b * d)).

(** [linear_solve(A, B)]: the solution [X] of [A X = B]. *)
Definition linear_solve (A B : mat3) : mat3 := mdot (inv A) B.

(** ** [BrighentiMechanical] *)

Global Instance Rle_decision (x y : R) : Decision (x <= y) := Rle_dec x y.

Record State := {
  deformation_gradient : mat3;
  distribution_tensor : mat3;
  temperature : R;
}.

(** [solid_util::MaterialResponse]. *)
Record MaterialResponse := {
  density : R;
  stress : mat3;
}.

Record BrighentiMechanical := {
  density_ : R;
  shear_modulus_ : R;
  bulk_modulus_ : R;
  order_constant_ : R;
  initial_order_parameter_ : R;
  transition_temperature_ : R;
  N_b_squared_ : R;
  normal_ : vec3;
  initial_distribution_tensor_ : mat3;
}.

Definition calculateInitialDistributionTensor (normal : vec3) (q0 N_b_squared : R) : mat3 :=
  let I := Identity in
  let mu_0_a := mscale (1 - q0) I in
  let mu_0_b := mscale (3 * q0) (outer normal normal) in
  mscale (N_b_squared / 3) (madd mu_0_a mu_0_b).

(** The constructor: the member initialisers, then the five checks of the
    body. *)
Definition BrighentiMechanical_ctor (density shear_modulus bulk_modulus order_constant
    order_parameter transition_temperature : R) (normal : vec3) (N_b_squared : R)
    : result BrighentiMechanical :=
  let this :=
    {| density_ := density;
       shear_modulus_ := shear_modulus;
       bulk_modulus_ := bulk_modulus;
       order_constant_ := order_constant;
       initial_order_parameter_ := order_parameter;
       transition_temperature_ := transition_temperature;
       N_b_squared_ := N_b_squared;
       normal_ := vdiv normal (norm normal);
       initial_distribution_tensor_ :=
         calculateInitialDistributionTensor normal order_parameter N_b_squared |} in
  SLIC_ERROR_ROOT_IF (bool_decide (density_ this <= 0))
    "Density must be positive in the LCE material model." this
  (SLIC_ERROR_ROOT_IF (bool_decide (shear_modulus_ this <= 0))
    "Shear modulus must be positive in the LCE material model." this
  (SLIC_ERROR_ROOT_IF (bool_decide (bulk_modulus_ this <= 0))
    "Bulk modulus must be positive in the LCE material model." this
  (SLIC_ERROR_ROOT_IF (bool_decide (order_constant_ this <= 0))
    "Order constant must be positive in the LCE material model." this
  (SLIC_ERROR_ROOT_IF (bool_decide (transition_temperature_ this <= 0))
    "The transition temperature must be positive in the LCE material model." this
  (Ok this))))).

(** [X = A; for 15 times: X = 0.5 * (X + dot(A, inv(X)))]. *)
Definition tensorSquareRoot (A : mat3) : mat3 :=
  Nat.iter 15 (λ X, mscale 0.5 (madd X (mdot A (inv X)))) A.

Definition calculateDistributionTensor (this : BrighentiMechanical) (F_hat : mat3)
    (theta : R) (state : State) : mat3 :=
  let theta_old := temperature state in
  let q_old := initial_order_parameter_ this
               / (1 + exp ((theta_old - transition_temperature_ this) / order_constant_ this)) in
  let q := initial_order_parameter_ this
           / (1 + exp ((theta - transition_temperature_ this) / order_constant_ this)) in
  let proj := msub (outer (normal_ this) (normal_ this)) Identity in
  let Q_old := mscale (q_old / 2) (mscale 3 proj) in
  let Q := mscale (q / 2) (mscale 3 proj) in
  let U_hat := tensorSquareRoot (mdot (transpose F_hat) F_hat) in
  let R_hat := mdot F_hat (inv U_hat) in
  let alpha := 2 * N_b_squared_ this / 3 in
  let mu_old := distribution_tensor state in
  let mu_hat := madd mu_old (mscale alpha (msub Q Q_old)) in
  let mu_a := mdot F_hat (mdot mu_hat (transpose F_hat)) in
  let mu_b := mscale alpha (msub Q (mdot R_hat (mdot Q (transpose R_hat)))) in
  madd mu_a mu_b.

(** [operator()(x, displacement, displacement_grad, state, temperature)] at
    plain [double] arguments: the response, and [state] as the call leaves
    it. *)
Definition BrighentiMechanical_call (this : BrighentiMechanical) (x displacement : vec3)
    (displacement_grad : mat3) (state : State) (temperature : R)
    : MaterialResponse * State :=
  let I := Identity in
  let F := madd displacement_grad I in
  let F_old := deformation_gradient state in
  let F_hat := transpose (linear_solve (transpose F_old) (transpose F)) in
  let J := det F in
  let mu := calculateDistributionTensor this F_hat temperature state in
  let mu0 := initial_distribution_tensor_ this in
  let stress := mscale (J * (3 * shear_modulus_ this / N_b_squared_ this)) (msub mu mu0) in
  let lambda := bulk_modulus_ this - 2 / 3 * shear_modulus_ this in
  let stress := madd stress (mscale (lambda * ln J) I) in
  ({| density := density_ this; stress := stress |},
   {| deformation_gradient := F; temperature := temperature; distribution_tensor := mu |}).

(** ** Small objects, used to run the definitions *)

Definition identity_Operator : Operator := {| Mult := λ x, x; MultTranspose := λ y, y |}.

(** Order-one nodal scalar field, [H1<1>]. *)
Definition H1_1 : FunctionSpace := {| family := H1; order := 1; components := 1 |}.

(** Order-two nodal scalar field, [H1<2>]. *)
Definition H1_2 : FunctionSpace := {| family := H1; order := 2; components := 1 |}.

(** A space with three true dofs on one rank: the prolongation is the
    identity. *)
Definition three_dof_space : ParFiniteElementSpace :=
  {| GetTrueVSize := 3;
     GetProlongationMatrix := identity_Operator;
     Dof_TrueDof_Matrix := identity_Operator |}.

(** The one-dimensional mesh of two segments. *)
Definition two_segments : Mesh := {| Dimension := 1; elements := [SEGMENT; SEGMENT] |}.

Definition empty_mesh (dim : Z) : Mesh := {| Dimension := dim; elements := [] |}.

(** The restriction of the three dofs to the two segments: the middle dof
    is shared. *)
Definition two_segments_restriction : ElementRestriction :=
  {| dof_info := [[(0%nat, positive_sign); (1%nat, positive_sign)];
                  [(1%nat, positive_sign); (2%nat, positive_sign)]] |}.

(** The q-function [f(u) = u] of a mass term, without state. *)
Definition mass_integrand (u : R) (state : unit) : R * unit := (u, state).

Fixpoint pairs_of (values : list R) : EVec :=
  match values with
  | a :: b :: rest => [a; b] :: pairs_of rest
  | _ => []
  end.

(** An evaluator for order-one segments with the two quadrature points at
    the two nodes, with unit weights: the field at the points is its dof
    values, the element residual is the outputs at the two points, and the
    element Jacobian of [f(u) = u] is the identity. *)
Definition nodal_evaluator : Evaluator R R :=
  {| interpolate := λ input_E wrt, concat (default [] (input_E !! 0%nat));
     integrate := pairs_of;
     tangent := λ outputs, (λ _, [[1; 0]; [0; 1]]) <$> pairs_of outputs;
     state_by_reference := false |}.

Definition mass_integral : Integral R R unit :=
  MakeDomainIntegral 2 1 nodal_evaluator two_segments mass_integrand [(); (); (); ()]
    [0%nat].

(** [Functional<H1<1>(H1<1>)>] as its constructor leaves it. *)
Definition constructed_functional : Functional R R unit :=
  Functional_ctor H1_1 [H1_1] three_dof_space [three_dof_space].

(** The sparsity pattern of the three dofs on the two segments. *)
Definition two_segments_tables : GradientAssemblyLookupTables :=
  {| nnz := 7; row_ptr := [0; 2; 5; 7]%nat; col_ind := [0; 1; 0; 1; 2; 1; 2]%nat |}.

Definition gradient_0 : Gradient :=
  {| lookup_tables := two_segments_tables; col_ind_copy_ := [];
     which_argument := 0; Gradient_test_space_ := three_dof_space;
     Gradient_trial_space_ := three_dof_space; df_ := zeros 3 |}.

(** The same [Functional] with the members that the disabled block of the
    constructor would set: the prolongations, the restrictions, the sized
    vectors and the gradient operator; and with two mass integrals that
    both depend on the trial space. *)
Definition prepared_functional (update : bool) : Functional R R unit :=
  {| test := H1_1; trials := [H1_1]; update_qdata := update;
     input_L_ := [zeros 3]; output_L_ := zeros 3;
     block_input_E_ := all_types [[]]; block_output_E_ := all_types [];
     output_T_ := zeros 3;
     test_space_ := three_dof_space; trial_space_ := [three_dof_space];
     P_test_ := identity_Operator; G_test_ := two_segments_restriction;
     P_trial_ := [Some identity_Operator]; G_trial_ := [two_segments_restriction];
     integrals_ := [mass_integral; mass_integral];
     grad_ := [gradient_0] |}.

(** The material that [BrighentiMechanical(1, 1, 1, 1, 0.5, 1, {1, 0, 0}, 1)]
    constructs. *)
Definition lce_material : BrighentiMechanical :=
  {| density_ := 1; shear_modulus_ := 1; bulk_modulus_ := 1; order_constant_ := 1;
     initial_order_parameter_ := 1 / 2; transition_temperature_ := 1; N_b_squared_ := 1;
     normal_ := vdiv (1, 0, 0) (norm (1, 0, 0));
     initial_distribution_tensor_ := calculateInitialDistributionTensor (1, 0, 0) (1 / 2) 1 |}.

Definition undeformed_state : State :=
  {| deformation_gradient := Identity;
     distribution_tensor := initial_distribution_tensor_ lce_material;
     temperature := 0 |}.

(** ** Reachable objects and well-formed objects *)

Section Reachable.
Context {qf_input qf_output qpt_data_type : Type}.
Abbreviation Functional := (Functional qf_input qf_output qpt_data_type).

(** The objects a program can hold: a [Functional] is constructed, then
    integrals are added to it, its public flag is assigned, and it is
    evaluated. *)
Inductive built : Functional → Prop :=
| built_ctor test trials test_fes trial_fes :
    built (Functional_ctor test trials test_fes trial_fes)
| built_AddDomainIntegral f dim args kernels integrand domain qdata f' :
    built f →
    AddDomainIntegral dim args kernels integrand domain qdata f = Ok f' →
    built f'
| built_update_qdata f flag :
    built f → built (set_update_qdata flag f)
| built_operator_paren f wrt input_T f' r events :
    built f →
    operator_paren f wrt input_T = Some (f', r, events) →
    built f'
| built_ActionOfGradient f input_T which f' output_T :
    built f →
    ActionOfGradient f input_T which = Some (f', output_T) →
    built f'.

(** What an evaluation leaves alone in an integral: everything but the
    quadrature-point state and the cached tangent blocks. *)
Definition static_part (I : Integral qf_input qf_output qpt_data_type) :=
  (type I, active_trial_spaces I, quadrature_order I, geometry_dim I, domain I,
   qf I, evaluator I).

(** What an evaluation leaves alone in the object: everything but the
    vectors [input_L_], [output_L_], [output_T_], the E-vectors, and the
    state and the cache of the integrals. *)
Definition configuration (f : Functional) :=
  (test f, trials f, update_qdata f, test_space_ f, trial_space_ f, P_test_ f,
   G_test_ f, P_trial_ f, G_trial_ f, grad_ f, static_part <$> integrals_ f).

(** The arrays of the object have one entry for each trial space, the
    prolongation pointers are assigned, and the integrals depend on trial
    spaces that exist. *)
Definition well_formed (f : Functional) : bool :=
  let n := num_trial_spaces f in
  (length (P_trial_ f) =? n)%nat
  && forallb (λ p : option Operator, bool_decide (is_Some p)) (P_trial_ f)
  && (length (G_trial_ f) =? n)%nat
  && (length (input_L_ f) =? n)%nat
  && (length (of_domain (block_input_E_ f)) =? n)%nat
  && (length (of_boundary (block_input_E_ f)) =? n)%nat
  && forallb (λ I : Integral qf_input qf_output qpt_data_type,
                forallb (λ i, i <? n)%nat (active_trial_spaces I))
             (integrals_ f).

(** The pair (integral type, trial space) is needed by a registered
    integral. *)
Definition required (f : Functional) (type' : IntegralType) (i : nat) : Prop :=
  ∃ I, I ∈ integrals_ f ∧ type I = type' ∧ i ∈ active_trial_spaces I.

(** The value the gather of trial space [i] has in a call with the
    arguments [input_T]. *)
Definition gathered (f : Functional) (input_T : list Vec) (i : nat) : option EVec :=
  G ← G_trial_ f !! i;
  P ← deref (P_trial_ f) i;
  x ← input_T !! i;
  Some (Gather G (Mult P x)).

(** How many times the events record the gather of trial space [i] for the
    integral type [type']. *)
Definition count_gathers (type' : IntegralType) (i : nat) (events : list Event) : nat :=
  length (filter (λ e, e = gather_event type' i) events).

(** The flag [already_computed[type'][i]] is set. *)
Definition flagged (c : Call qf_input qf_output qpt_data_type) (type' : IntegralType)
    (i : nat) : Prop :=
  at_type (already_computed c) type' !! i = Some true.

Global Instance flagged_dec (c : Call qf_input qf_output qpt_data_type)
    (type' : IntegralType) (i : nat) : Decision (flagged c type' i).
Proof. unfold flagged. apply _. Defined.

(** During the loop over the integrals of a call that started it in [f2]:
    the configuration and the local input vectors are those of [f2], there
    is a flag for each trial space, and a set flag means that the E-vector
    holds the gather of the local input vector. *)
Definition gathers_valid (f2 : Functional) (c : Call qf_input qf_output qpt_data_type)
    : Prop :=
  configuration (object c) = configuration f2 ∧
  input_L_ (object c) = input_L_ f2 ∧
  (∀ type', length (at_type (already_computed c) type') = num_trial_spaces f2) ∧
  ∀ type' i, flagged c type' i →
    ∃ G L, G_trial_ f2 !! i = Some G ∧ input_L_ f2 !! i = Some L ∧
           at_type (block_input_E_ (object c)) type' !! i = Some (Gather G L).

(** The events record one gather for each set flag and none otherwise. *)
Definition gathers_counted (c : Call qf_input qf_output qpt_data_type) : Prop :=
  ∀ type' i,
    count_gathers type' i (trace c) = if decide (flagged c type' i) then 1%nat else 0%nat.

(** The arrays indexed by the trial space have [n] entries. *)
Definition sized (n : nat) (c : Call qf_input qf_output qpt_data_type) : Prop :=
  length (input_L_ (object c)) = n ∧
  ∀ type', length (at_type (block_input_E_ (object c)) type') = n ∧
           length (at_type (already_computed c) type') = n.

End Reachable.

(** ** What is read of a result *)

(** The residual of a value returned by [operator()]: the value itself, or
    the first component of the pair. *)
Definition residual_of (r : operator_paren_return) : Vec :=
  match r with
  | value output_T => output_T
  | value_and_gradient output_T _ => output_T
  end.

(** During the loop of [ActionOfGradient] for the trial space [which]: the
    restriction [G] and the local input vector [L] are in place, the
    E-vectors have an entry for [which], and a set flag means that the
    E-vector of that integral type holds the gather of [L]. *)
Definition gradient_action_ready {qf_input qf_output qpt_data_type : Type}
    (which : nat) (G : ElementRestriction) (L : Vec)
    (s : Functional qf_input qf_output qpt_data_type * PerType bool) : Prop :=
  G_trial_ s.1 !! which = Some G ∧
  input_L_ s.1 !! which = Some L ∧
  (∀ type', (which < length (at_type (block_input_E_ s.1) type'))%nat) ∧
  (∀ type', at_type s.2 type' = true →
            at_type (block_input_E_ s.1) type' !! which = Some (Gather G L)).

(** [tr(A)] of [tensor.hpp], the sum of the diagonal, as
    [tensor_unit_tests.cpp] checks it ([tr(I) = 3]). *)
Definition tr (A : mat3) : R :=
  let '((a, _, _), (_, e, _), (_, _, i)) := A in a + e + i.

(** [tensor<double, 3, 3>{}]. *)
Definition zero_tensor : mat3 := ((0, 0, 0), (0, 0, 0), (0, 0, 0)).

(** The element types that [contains_unsupported_elements] lets pass. *)
Definition supported_types : list ElementType :=
  [SEGMENT; TRIANGLE; QUADRILATERAL; TETRAHEDRON; HEXAHEDRON].

(** ** [DynamicConductionOperator] of [solvers/thermal_operators.cpp] *)

(** [serac::LinearSolverParameters], the members that the constructor
    reads. *)
Record LinearSolverParameters := {
  rel_tol : R;
  abs_tol : R;
  print_level : Z;
  max_iter : Z;
}.

(** The type of an [mfem::HypreSmoother]: the mass preconditioner is set to
    [Jacobi], the other one keeps the type of its default constructor. *)
Inductive HypreSmoother_Type := Jacobi | default_Type.

(** What the operator uses of mfem, on matrices [Mat]
    ([mfem::HypreParMatrix]) and coefficients [Coef] ([mfem::Coefficient]).
    Nothing is assumed about these functions.
    - [mfem_Add a A b B] is [mfem::Add(a, A, b, B)];
    - [EliminateRowsCols A dofs] is the matrix [A] after
      [A.EliminateRowsCols(dofs)] and the matrix that the call returns;
    - [Mat_Mult A x] is the vector that [A.Mult(x, y)] writes to [y];
    - [EliminateBC A Ae dofs X B] is the vector [B] after
      [mfem::EliminateBC(A, Ae, dofs, X, B)];
    - [CGSolver_Mult params type A b] is what [Mult(b, x)] writes to [x] for
      an [mfem::CGSolver] with the options [params], [iterative_mode] false,
      a preconditioner of type [type] and the operator [A];
    - [ProjectBdrCoefficient coef t bdr y] is the true-dof vector of the
      grid function that is set from [y] and on which the coefficient, at
      time [t], is projected on the boundary attributes [bdr]. *)
Class mfem_linear_algebra (Mat Coef : Type) := {
  mfem_Add : R → Mat → R → Mat → Mat;
  EliminateRowsCols : Mat → list Z → Mat * Mat;
  Mat_Mult : Mat → Vec → Vec;
  EliminateBC : Mat → Mat → list Z → Vec → Vec → Vec;
  CGSolver_Mult : LinearSolverParameters → HypreSmoother_Type → Mat → Vec → Vec;
  ProjectBdrCoefficient : Coef → R → list Z → Vec → Vec;
}.

(** [v.Neg()] and [z.Add(a, v)] of [mfem::Vector]. *)
Definition Vector_Neg (v : Vec) : Vec := Ropp <$> v.

Definition Vector_Add (z : Vec) (a : R) (v : Vec) : Vec :=
  zip_with (λ zi vi, zi + a * vi) z v.

Section DynamicConductionOperator.
Context {Mat Coef : Type} `{!mfem_linear_algebra Mat Coef}.

(** The members.  A shared or unique pointer that can be null is an
    option; [t] is the time of the base class [mfem::TimeDependentOperator];
    [m_M_solver_operator] and [m_T_solver_operator] are the operators that
    the two solvers were handed by [SetOperator]. *)
Record DynamicConductionOperator := {
  t : R;
  m_fespace : ParFiniteElementSpace;
  m_solver_params : LinearSolverParameters;
  m_M_mat : option Mat;
  m_M_e_mat : option Mat;
  m_K_mat : option Mat;
  m_K_e_mat : option Mat;
  m_T_mat : option Mat;
  m_T_e_mat : option Mat;
  m_rhs : option Vec;
  m_bc_rhs : Vec;
  m_ess_bdr_coef : option Coef;
  m_ess_bdr : list Z;
  m_ess_tdof_list : list Z;
  m_x : Vec;
  m_y : Vec;
  m_z : Vec;
  m_old_dt : R;
  m_M_solver_operator : option Mat;
  m_T_solver_operator : option Mat;
}.

(** The constructor.  The entries of a vector that is allocated and not
    set are taken to be zero. *)
Definition DynamicConductionOperator_ctor (fespace : ParFiniteElementSpace)
    (params : LinearSolverParameters) : DynamicConductionOperator :=
  {| t := 0; m_fespace := fespace; m_solver_params := params;
     m_M_mat := None; m_M_e_mat := None; m_K_mat := None; m_K_e_mat := None;
     m_T_mat := None; m_T_e_mat := None;
     m_rhs := None; m_bc_rhs := zeros (GetTrueVSize fespace);
     m_ess_bdr_coef := None; m_ess_bdr := []; m_ess_tdof_list := [];
     m_x := zeros (GetTrueVSize fespace); m_y := zeros (GetTrueVSize fespace);
     m_z := zeros (GetTrueVSize fespace);
     m_old_dt := -1;
     m_M_solver_operator := None; m_T_solver_operator := None |}.

Definition SetMMatrix (M_mat M_e_mat : option Mat) (s : DynamicConductionOperator)
    : DynamicConductionOperator :=
  {| t := t s; m_fespace := m_fespace s; m_solver_params := m_solver_params s;
     m_M_mat := M_mat; m_M_e_mat := M_e_mat;
     m_K_mat := m_K_mat s; m_K_e_mat := m_K_e_mat s;
     m_T_mat := m_T_mat s; m_T_e_mat := m_T_e_mat s;
     m_rhs := m_rhs s; m_bc_rhs := m_bc_rhs s;
     m_ess_bdr_coef := m_ess_bdr_coef s; m_ess_bdr := m_ess_bdr s;
     m_ess_tdof_list := m_ess_tdof_list s;
     m_x := m_x s; m_y := m_y s; m_z := m_z s; m_old_dt := m_old_dt s;
     m_M_solver_operator := m_M_solver_operator s;
     m_T_solver_operator := m_T_solver_operator s |}.

Definition SetKMatrix (K_mat K_e_mat : option Mat) (s : DynamicConductionOperator)
    : DynamicConductionOperator :=
  {| t := t s; m_fespace := m_fespace s; m_solver_params := m_solver_params s;
     m_M_mat := m_M_mat s; m_M_e_mat := m_M_e_mat s;
     m_K_mat := K_mat; m_K_e_mat := K_e_mat;
     m_T_mat := m_T_mat s; m_T_e_mat := m_T_e_mat s;
     m_rhs := m_rhs s; m_bc_rhs := m_bc_rhs s;
     m_ess_bdr_coef := m_ess_bdr_coef s; m_ess_bdr := m_ess_bdr s;
     m_ess_tdof_list := m_ess_tdof_list s;
     m_x := m_x s; m_y := m_y s; m_z := m_z s; m_old_dt := m_old_dt s;
     m_M_solver_operator := m_M_solver_operator s;
     m_T_solver_operator := m_T_solver_operator s |}.

Definition SetLoadVector (rhs : option Vec) (s : DynamicConductionOperator)
    : DynamicConductionOperator :=
  {| t := t s; m_fespace := m_fespace s; m_solver_params := m_solver_params s;
     m_M_mat := m_M_mat s; m_M_e_mat := m_M_e_mat s;
     m_K_mat := m_K_mat s; m_K_e_mat := m_K_e_mat s;
     m_T_mat := m_T_mat s; m_T_e_mat := m_T_e_mat s;
     m_rhs := rhs; m_bc_rhs := m_bc_rhs s;
     m_ess_bdr_coef := m_ess_bdr_coef s; m_ess_bdr := m_ess_bdr s;
     m_ess_tdof_list := m_ess_tdof_list s;
     m_x := m_x s; m_y := m_y s; m_z := m_z s; m_old_dt := m_old_dt s;
     m_M_solver_operator := m_M_solver_operator s;
     m_T_solver_operator := m_T_solver_operator s |}.

Definition SetEssentialBCs (ess_bdr_coef : option Coef) (ess_bdr ess_tdof_list : list Z)
    (s : DynamicConductionOperator) : DynamicConductionOperator :=
  {| t := t s; m_fespace := m_fespace s; m_solver_params := m_solver_params s;
     m_M_mat := m_M_mat s; m_M_e_mat := m_M_e_mat s;
     m_K_mat := m_K_mat s; m_K_e_mat := m_K_e_mat s;
     m_T_mat := m_T_mat s; m_T_e_mat := m_T_e_mat s;
     m_rhs := m_rhs s; m_bc_rhs := m_bc_rhs s;
     m_ess_bdr_coef := ess_bdr_coef; m_ess_bdr := ess_bdr;
     m_ess_tdof_list := ess_tdof_list;
     m_x := m_x s; m_y := m_y s; m_z := m_z s; m_old_dt := m_old_dt s;
     m_M_solver_operator := m_M_solver_operator s;
     m_T_solver_operator := m_T_solver_operator s |}.

(** [Mult(u, du_dt)]: the object after the call (the method is [const],
    its work vectors are [mutable]) and the value written to [du_dt].  A
    null pointer that is dereferenced is a fault, and so is a failed
    [MFEM_ASSERT]: the two assertions are taken to be active. *)
Definition DynamicConductionOperator_Mult (u : Vec) (s : DynamicConductionOperator)
    : option (DynamicConductionOperator * Vec) :=
  M ← m_M_mat s;
  K ← m_K_mat s;
  let y := u in
  rhs ← m_rhs s;
  let bc_rhs := rhs in
  K_e ← m_K_e_mat s;
  let bc_rhs := EliminateBC K K_e (m_ess_tdof_list s) y bc_rhs in
  let z := Mat_Mult K y in
  let z := Vector_Neg z in
  let z := Vector_Add z 1 bc_rhs in
  let du_dt := CGSolver_Mult (m_solver_params s) Jacobi M z in
  Some ({| t := t s; m_fespace := m_fespace s; m_solver_params := m_solver_params s;
           m_M_mat := m_M_mat s; m_M_e_mat := m_M_e_mat s;
           m_K_mat := m_K_mat s; m_K_e_mat := m_K_e_mat s;
           m_T_mat := m_T_mat s; m_T_e_mat := m_T_e_mat s;
           m_rhs := m_rhs s; m_bc_rhs := bc_rhs;
           m_ess_bdr_coef := m_ess_bdr_coef s; m_ess_bdr := m_ess_bdr s;
           m_ess_tdof_list := m_ess_tdof_list s;
           m_x := m_x s; m_y := y; m_z := z; m_old_dt := m_old_dt s;
           m_M_solver_operator := Some M;
           m_T_solver_operator := m_T_solver_operator s |},
        du_dt).

(** The block [if (dt != m_old_dt) { ... }] of [ImplicitSolve]: the three
    members it assigns. *)
Definition rebuild_T (dt : R) (M K : Mat) (s : DynamicConductionOperator)
    : option Mat * option Mat * option Mat :=
  if Req_dec_T dt (m_old_dt s)
  then (m_T_mat s, m_T_e_mat s, m_T_solver_operator s)
  else
    let T := mfem_Add 1 M dt K in
    let '(T, T_e) := EliminateRowsCols T (m_ess_tdof_list s) in
    (Some T, Some T_e, Some T).

(** The block [if (m_ess_bdr_coef != nullptr) { ... }]: [m_y] and
    [*m_bc_rhs] after it. *)
Definition apply_essential_bcs (K : Mat) (y bc_rhs : Vec) (s : DynamicConductionOperator)
    : option (Vec * Vec) :=
  match m_ess_bdr_coef s with
  | Some coef =>
      let y := ProjectBdrCoefficient coef (t s) (m_ess_bdr s) y in
      K_e ← m_K_e_mat s;
      Some (y, EliminateBC K K_e (m_ess_tdof_list s) y bc_rhs)
  | None => Some (y, bc_rhs)
  end.

(** [ImplicitSolve(dt, u, du_dt)]. *)
Definition ImplicitSolve (dt : R) (u : Vec) (s : DynamicConductionOperator)
    : option (DynamicConductionOperator * Vec) :=
  M ← m_M_mat s;
  K ← m_K_mat s;
  let y := u in
  let '(T_mat, T_e_mat, T_solver_operator) := rebuild_T dt M K s in
  rhs ← m_rhs s;
  let bc_rhs := rhs in
  let x := assign_zero (m_x s) in
  '(y, bc_rhs) ← apply_essential_bcs K y bc_rhs s;
  let z := Mat_Mult K y in
  let z := Vector_Neg z in
  let z := Vector_Add z 1 bc_rhs in
  T ← T_solver_operator;
  let du_dt := CGSolver_Mult (m_solver_params s) default_Type T z in
  Some ({| t := t s; m_fespace := m_fespace s; m_solver_params := m_solver_params s;
           m_M_mat := m_M_mat s; m_M_e_mat := m_M_e_mat s;
           m_K_mat := m_K_mat s; m_K_e_mat := m_K_e_mat s;
           m_T_mat := T_mat; m_T_e_mat := T_e_mat;
           m_rhs := m_rhs s; m_bc_rhs := bc_rhs;
           m_ess_bdr_coef := m_ess_bdr_coef s; m_ess_bdr := m_ess_bdr s;
           m_ess_tdof_list := m_ess_tdof_list s;
           m_x := x; m_y := y; m_z := z; m_old_dt := dt;
           m_M_solver_operator := m_M_solver_operator s;
           m_T_solver_operator := T_solver_operator |},
        du_dt).

(** The right-hand side that [ImplicitSolve] hands to the solver. *)
Definition ImplicitSolve_rhs (K : Mat) (rhs u : Vec) (s : DynamicConductionOperator)
    : option Vec :=
  '(y, bc_rhs) ← apply_essential_bcs K u rhs s;
  Some (Vector_Add (Vector_Neg (Mat_Mult K y)) 1 bc_rhs).

(** The operator of the second solver is the matrix [M + m_old_dt K] of the
    matrices that are set, with the essential dofs that are set eliminated. *)
Definition T_matrix_current (s : DynamicConductionOperator) : Prop :=
  ∃ M K, m_M_mat s = Some M ∧ m_K_mat s = Some K ∧
         m_T_solver_operator s
         = Some (EliminateRowsCols (mfem_Add 1 M (m_old_dt s) K) (m_ess_tdof_list s)).1.

(** The objects that a program holds before the first solve: constructed,
    then configured by the setters. *)
Inductive configured : DynamicConductionOperator → Prop :=
| configured_ctor fespace params :
    configured (DynamicConductionOperator_ctor fespace params)
| configured_SetMMatrix s M_mat M_e_mat :
    configured s → configured (SetMMatrix M_mat M_e_mat s)
| configured_SetKMatrix s K_mat K_e_mat :
    configured s → configured (SetKMatrix K_mat K_e_mat s)
| configured_SetLoadVector s rhs :
    configured s → configured (SetLoadVector rhs s)
| configured_SetEssentialBCs s ess_bdr_coef ess_bdr ess_tdof_list :
    configured s → configured (SetEssentialBCs ess_bdr_coef ess_bdr ess_tdof_list s).

End DynamicConductionOperator.

Arguments DynamicConductionOperator : clear implicits.

(** One-by-one matrices, to run the definitions: a matrix is a number,
    nothing is eliminated and the solvers divide. *)
Global Instance scalar_linear_algebra : mfem_linear_algebra R unit :=
  {| mfem_Add := λ a A b B, a * A + b * B;
     EliminateRowsCols := λ A _, (A, 0);
     Mat_Mult := λ A x, Rmult A <$> x;
     EliminateBC := λ _ _ _ _ B, B;
     CGSolver_Mult := λ _ _ A b, (λ bi, bi / A) <$> b;
     ProjectBdrCoefficient := λ _ _ _ y, y |}.

Definition scalar_conduction_operator : DynamicConductionOperator R unit :=
  SetLoadVector (Some [1])
    (SetKMatrix (Some 2) (Some 0)
       (SetMMatrix (Some 1) (Some 0)
          (DynamicConductionOperator_ctor three_dof_space
             {| rel_tol := 0; abs_tol := 0; print_level := 0; max_iter := 1 |}))).

(** What [ImplicitSolve(0.5, {3}, du_dt)] leaves of it. *)
Definition stepped_conduction_operator : DynamicConductionOperator R unit :=
  {| t := 0; m_fespace := three_dof_space;
     m_solver_params := {| rel_tol := 0; abs_tol := 0; print_level := 0; max_iter := 1 |};
     m_M_mat := Some 1; m_M_e_mat := Some 0; m_K_mat := Some 2; m_K_e_mat := Some 0;
     m_T_mat := Some (1 * 1 + 1 / 2 * 2); m_T_e_mat := Some 0;
     m_rhs := Some [1]; m_bc_rhs := [1];
     m_ess_bdr_coef := None; m_ess_bdr := []; m_ess_tdof_list := [];
     m_x := zeros 3; m_y := [3];
     m_z := Vector_Add (Vector_Neg (Mat_Mult 2 [3])) 1 [1];
     m_old_dt := 1 / 2;
     m_M_solver_operator := None; m_T_solver_operator := Some (1 * 1 + 1 / 2 * 2) |}.

(** ** [uniaxial_stress_test] of [test_material_driver.cpp] *)

Section MaterialDriver.
(** The material is a callable [material(x, u, du_dx, state, parameters...)]
    that returns a response and updates the state it is handed, and is
    taken to have no other effect; [find_root] is not among the sources and
    nothing is assumed about it. *)
Context {StateType parameter_types : Type}.
Variable material : vec3 → vec3 → mat3 → StateType → parameter_types
                    → MaterialResponse * StateType.
Variable find_root : (R * R → R * R) → R * R → R * R.
Variable epsilon_xx : R → R.
Variable parameter_functions : R → parameter_types.

(** [tensor<double, 3> unused{}]. *)
Definition unused : vec3 := (0, 0, 0).

(** The lambda [sigma_yy_and_zz], which reads [t] and [state] by reference
    and hands the material a copy of the state. *)
Definition sigma_yy_and_zz (t : R) (state : StateType) (x : R * R) : R * R :=
  let epsilon_yy := x.1 in
  let epsilon_zz := x.2 in
  let du_dx : mat3 := ((epsilon_xx t, 0, 0), (0, epsilon_yy, 0), (0, 0, epsilon_zz)) in
  let copy := state in
  let output := (material unused unused du_dx copy (parameter_functions t)).1 in
  let '(_, (_, s11, _), (_, _, s22)) := stress output in
  (s11, s22).

(** [dudx[0][0] = a; dudx[1][1] = b; dudx[2][2] = c]. *)
Definition set_diagonal (a b c : R) (dudx : mat3) : mat3 :=
  let '((_, d01, d02), (d10, _, d12), (d20, d21, _)) := dudx in
  ((a, d01, d02), (d10, b, d12), (d20, d21, c)).

(** The loop [for (size_t i = 0; i < num_steps; i++)], with [steps]
    iterations to go. *)
Fixpoint uniaxial_stress_test_loop (steps : nat) (dt t : R) (state : StateType)
    (dudx : mat3) (output_history : list (mat3 * mat3 * StateType))
    : list (mat3 * mat3 * StateType) :=
  match steps with
  | O => output_history
  | S steps =>
      let t := t + dt in
      let initial_guess := (0, 0) in
      let epsilon_yy_and_zz := find_root (sigma_yy_and_zz t state) initial_guess in
      let dudx := set_diagonal (epsilon_xx t) epsilon_yy_and_zz.1 epsilon_yy_and_zz.2 dudx in
      let '(output, state) := material unused unused dudx state (parameter_functions t) in
      uniaxial_stress_test_loop steps dt t state dudx
        (output_history ++ [(dudx, stress output, state)])
  end.

Definition uniaxial_stress_test (t_max : R) (num_steps : nat) (initial_state : StateType)
    : list (mat3 * mat3 * StateType) :=
  let t := 0 in
  let state := initial_state in
  let dudx := zero_tensor in
  let dt := t_max / INR num_steps in
  uniaxial_stress_test_loop num_steps dt t state dudx [].

(** What one record of the history is, given the time and the state that
    its step started from. *)
Definition recorded (t : R) (previous : StateType) (entry : mat3 * mat3 * StateType)
    : Prop :=
  let root := find_root (sigma_yy_and_zz t previous) (0, 0) in
  let strain : mat3 := ((epsilon_xx t, 0, 0), (0, root.1, 0), (0, 0, root.2)) in
  entry.1.1 = strain ∧
  entry.1.2 = stress (material unused unused strain previous (parameter_functions t)).1 ∧
  entry.2 = (material unused unused strain previous (parameter_functions t)).2.

End MaterialDriver.

(** A tensor whose entries off the diagonal are zero. *)
Definition off_diagonal_zero (A : mat3) : Prop :=
  ∃ a b c, A = ((a, 0, 0), (0, b, 0), (0, 0, c)).

(** The state that a record of the history started from: the state of the
    record before it, or the initial state. *)
Definition state_before {StateType : Type} (initial_state : StateType)
    (output_history : list (mat3 * mat3 * StateType)) (i : nat) : StateType :=
  match i with
  | O => initial_state
  | S j => from_option snd initial_state (output_history !! j)
  end.

(** A material whose stress is the displacement gradient and that keeps no
    state, and a root finder that returns its initial guess. *)
Definition identity_material (x u : vec3) (du_dx : mat3) (state : unit) (p : unit)
    : MaterialResponse * unit :=
  ({| density := 1; stress := du_dx |}, state).

Definition initial_guess_root (f : R * R → R * R) (x0 : R * R) : R * R := x0.

(** * Theorems *)

(** ** [index_of_differentiation] and the overload of [operator()] *)

Lemma first_match_spec (matching : list bool) (i : Z) :
  (true ∉ matching → first_match matching i = (-1)%Z) ∧
  (true ∈ matching →
   ∃ k : nat, first_match matching i = (i + Z.of_nat k)%Z ∧ matching !! k = Some true ∧
              ∀ j : nat, (j < k)%nat → matching !! j = Some false).
Proof.
  revert i. induction matching as [|m rest IH]; intros i; split.
  - done.
  - intros H. by apply elem_of_nil in H.
  - intros H. apply not_elem_of_cons in H as [Hm Hrest]. destruct m; [done|].
    simpl. by apply IH.
  - intros H. destruct m; simpl.
    + exists 0%nat. split; [lia|]. split; [done|]. intros j Hj. lia.
    + apply elem_of_cons in H as [H|H]; [done|].
      destruct (proj2 (IH (i + 1)%Z) H) as (k & Hk & Hlook & Hbefore).
      exists (S k). split; [lia|]. split; [done|].
      intros [|j] Hj; [done|]. simpl. apply Hbefore. lia.
Qed.

Lemma is_same_v_spec (T U : ArgType) : is_same_v T U = true ↔ T = U.
Proof.
  destruct T, U; simpl; try (split; [discriminate | congruence]); try done.
  rewrite String.eqb_eq. split; congruence.
Qed.

Lemma matching_lookup (T : list ArgType) (k : nat) (b : bool) :
  ((λ t, is_same_v t differentiate_wrt_this) <$> T) !! k = Some b →
  ∃ t, T !! k = Some t ∧ is_same_v t differentiate_wrt_this = b.
Proof.
  rewrite list_lookup_fmap. destruct (T !! k) as [t|]; simpl; [|done].
  intros [= <-]. eauto.
Qed.

Lemma matching_elem (T : list ArgType) :
  true ∈ ((λ t, is_same_v t differentiate_wrt_this) <$> T) ↔ differentiate_wrt_this ∈ T.
Proof.
  rewrite list_elem_of_fmap. split.
  - intros (t & Ht & Hin). symmetry in Ht. apply is_same_v_spec in Ht. by subst.
  - intros Hin. exists differentiate_wrt_this. done.
Qed.

Lemma sum_of_matches (T : list ArgType) :
  foldr Z.add 0%Z ((λ t, if is_same_v t differentiate_wrt_this then 1%Z else 0%Z) <$> T)
  = Z.of_nat (length (filter (λ t, t = differentiate_wrt_this) T)).
Proof.
  induction T as [|t T IH]; [reflexivity|].
  rewrite fmap_cons. simpl foldr. rewrite IH. rewrite filter_cons.
  destruct (is_same_v t differentiate_wrt_this) eqn:E.
  - apply is_same_v_spec in E. subst. case_decide; [|done]. simpl length. lia.
  - case_decide as Ht; [|lia]. subst. simpl in E. done.
Qed.

Lemma num_differentiated_arguments_count (T : list ArgType) (n : Z) :
  num_differentiated_arguments T = Some n →
  n = Z.of_nat (length (filter (λ t, t = differentiate_wrt_this) T)).
Proof.
  unfold num_differentiated_arguments. destruct T as [|t0 T0]; [done|].
  intros [= <-]. exact (sum_of_matches (t0 :: T0)).
Qed.

(** C9.  [index_of_differentiation] returns the smallest index at which
    [differentiate_wrt_this] occurs in the list of types, and [-1] when it
    occurs nowhere.  The variadic [operator()] is rejected by its first
    [static_assert] when more than one argument is a
    [differentiate_wrt_this], and by its second one when the number of
    arguments is not the number of trial spaces; without an argument its
    fold expression has no value.  In every other case it compiles, and is
    the call of [operator()(DifferentiateWRT<i>, args...)] with [i] the
    index of differentiation of its argument types. *)
Theorem index_of_differentiation_selects_first
    {qf_input qf_output qpt_data_type : Type} (T : list ArgType)
    (f : Functional qf_input qf_output qpt_data_type) (args : list Arg) :
  (differentiate_wrt_this ∉ T → index_of_differentiation T = (-1)%Z) ∧
  (differentiate_wrt_this ∈ T →
   ∃ k : nat,
     index_of_differentiation T = Z.of_nat k ∧
     T !! k = Some differentiate_wrt_this ∧
     ∀ (j : nat) (t : ArgType), (j < k)%nat → T !! j = Some t → t ≠ differentiate_wrt_this) ∧
  ((1 < length (filter (λ a, type_of a = differentiate_wrt_this) args))%nat →
   operator_paren_variadic f args
   = static_assert_failed
       "Error: Functional::operator() can only differentiate w.r.t. 1 argument a time") ∧
  (args ≠ [] →
   (length (filter (λ a, type_of a = differentiate_wrt_this) args) <= 1)%nat →
   length args ≠ num_trial_spaces f →
   operator_paren_variadic f args
   = static_assert_failed
       "Error: Functional::operator() must take exactly as many arguments as trial spaces") ∧
  (args = [] → operator_paren_variadic f args = ill_formed) ∧
  (args ≠ [] →
   (length (filter (λ a, type_of a = differentiate_wrt_this) args) <= 1)%nat →
   length args = num_trial_spaces f →
   operator_paren_variadic f args
   = compiled (operator_paren f (index_of_differentiation (type_of <$> args))
                 (as_Vector <$> args))).
Proof.
  assert (length (filter (λ t, t = differentiate_wrt_this) (type_of <$> args))
          = length (filter (λ a, type_of a = differentiate_wrt_this) args)) as Hfilter.
  { clear. induction args as [|a args IH]; [done|].
    rewrite fmap_cons, !filter_cons.
    destruct (decide (type_of a = differentiate_wrt_this)); simpl; by rewrite IH. }
  assert (args ≠ [] →
          ∃ n, num_differentiated_arguments (type_of <$> args) = Some n ∧
               n = Z.of_nat (length (filter (λ a, type_of a = differentiate_wrt_this) args)))
    as Hcounted.
  { intros Hargs.
    destruct (num_differentiated_arguments (type_of <$> args)) as [n|] eqn:En.
    - exists n. split; [done|].
      apply num_differentiated_arguments_count in En. by rewrite Hfilter in En.
    - by destruct args. }
  split; [|split; [|split; [|split; [|split]]]].
  - intros Hnot. unfold index_of_differentiation.
    apply (first_match_spec ((λ t, is_same_v t differentiate_wrt_this) <$> T) 0).
    by rewrite matching_elem.
  - intros Hin. unfold index_of_differentiation. apply matching_elem in Hin.
    destruct (proj2 (first_match_spec
                       ((λ t, is_same_v t differentiate_wrt_this) <$> T) 0) Hin)
      as (k & Hk & Hlook & Hbefore).
    exists k. split; [by rewrite Hk|]. split.
    + apply matching_lookup in Hlook as (t & Ht & Hsame).
      apply is_same_v_spec in Hsame. by subst.
    + intros j t Hj Ht ->. specialize (Hbefore j Hj).
      rewrite list_lookup_fmap, Ht in Hbefore. done.
  - intros Hcount.
    destruct Hcounted as (n & En & Hn); [intros ->; simpl in Hcount; lia|].
    unfold operator_paren_variadic. rewrite En.
    destruct (n <=? 1)%Z eqn:Hle; [apply Z.leb_le in Hle; lia|]. done.
  - intros Hargs Hcount Hlen.
    destruct (Hcounted Hargs) as (n & En & Hn).
    unfold operator_paren_variadic. rewrite En.
    rewrite (proj2 (Z.leb_le n 1)) by lia. simpl.
    by rewrite (proj2 (Nat.eqb_neq _ _) Hlen).
  - by intros ->.
  - intros Hargs Hcount Hlen.
    destruct (Hcounted Hargs) as (n & En & Hn).
    unfold operator_paren_variadic. rewrite En.
    rewrite (proj2 (Z.leb_le n 1)) by lia. simpl.
    by rewrite (proj2 (Nat.eqb_eq _ _) Hlen).
Qed.

(** ** [AddDomainIntegral]: empty domains and configuration errors *)

Lemma contains_unsupported_from_spec (types : list ElementType) :
  contains_unsupported_from types = true ↔
  ∃ (e : nat) (type : ElementType),
    types !! e = Some type ∧ (type = POINT ∨ type = WEDGE ∨ type = PYRAMID).
Proof.
  induction types as [|type rest IH]; simpl.
  - split; [done|]. by intros (e & type & He & _).
  - destruct (unsupported type) eqn:E.
    + split; [|done]. intros _. exists 0%nat, type. split; [done|].
      destruct type; simpl in E; try discriminate; auto.
    + rewrite IH. split.
      * intros (e & type' & He & Htype). by exists (S e), type'.
      * intros ([|e] & type' & He & Htype); simpl in He.
        -- injection He as <-. destruct Htype as [->|[->| ->]]; discriminate.
        -- by exists e, type'.
Qed.

(** C4.  When the domain has no element, [AddDomainIntegral] ends without
    a configuration error and leaves the object as it was: no integral is
    registered, so every later evaluation and every later gradient action
    is what it would be without the call. *)
Theorem AddDomainIntegral_empty_domain
    {qf_input qf_output qpt_data_type : Type}
    (f : Functional qf_input qf_output qpt_data_type) (dim : Z) (args : list nat)
    (kernels : Evaluator qf_input qf_output)
    (integrand : qf_input → qpt_data_type → qf_output * qpt_data_type)
    (domain : Mesh) (qdata : list qpt_data_type) :
  GetNE domain = 0%nat →
  ∃ f', AddDomainIntegral dim args kernels integrand domain qdata f = Ok f' ∧
        integrals_ f' = integrals_ f ∧
        (∀ wrt input_T, operator_paren f' wrt input_T = operator_paren f wrt input_T) ∧
        (∀ input_T which,
           ActionOfGradient f' input_T which = ActionOfGradient f input_T which).
Proof.
  intros Hempty. exists f. unfold AddDomainIntegral. rewrite Hempty. done.
Qed.

Lemma AddDomainIntegral_empty_domain_witness :
  ∃ f', AddDomainIntegral (qf_input := R) (qf_output := R) (qpt_data_type := unit)
          3 [0%nat]
          {| interpolate := λ _ _, []; integrate := λ _, []; tangent := λ _, [];
             state_by_reference := false |}
          (λ u s, (u, s)) (empty_mesh 2) []
          (Functional_ctor H1_1 [H1_1] three_dof_space [three_dof_space]) = Ok f' ∧
        integrals_ f' = [] ∧
        (∀ wrt input_T,
           operator_paren f' wrt input_T
           = operator_paren (Functional_ctor H1_1 [H1_1] three_dof_space [three_dof_space])
               wrt input_T) ∧
        (∀ input_T which,
           ActionOfGradient f' input_T which
           = ActionOfGradient (Functional_ctor H1_1 [H1_1] three_dof_space [three_dof_space])
               input_T which).
Proof.
  apply (AddDomainIntegral_empty_domain
           (Functional_ctor H1_1 [H1_1] three_dof_space [three_dof_space])).
  reflexivity.
Defined.

(** C5.  When the domain has an element and either the declared dimension
    is not the dimension of the mesh or the mesh has a point, a wedge or a
    pyramid, [AddDomainIntegral] ends in a configuration error, the object
    being at that moment as it was before the call: no integral has been
    registered. *)
Theorem AddDomainIntegral_configuration_error
    {qf_input qf_output qpt_data_type : Type}
    (f : Functional qf_input qf_output qpt_data_type) (dim : Z) (args : list nat)
    (kernels : Evaluator qf_input qf_output)
    (integrand : qf_input → qpt_data_type → qf_output * qpt_data_type)
    (domain : Mesh) (qdata : list qpt_data_type) :
  (0 < GetNE domain)%nat →
  dim ≠ Dimension domain ∨
  (∃ (e : nat) (type : ElementType),
     (e < GetNE domain)%nat ∧ elements domain !! e = Some type ∧
     (type = POINT ∨ type = WEDGE ∨ type = PYRAMID)) →
  ∃ msg, AddDomainIntegral dim args kernels integrand domain qdata f
         = ConfigurationError msg f.
Proof.
  intros Hne Hbad. unfold AddDomainIntegral, SLIC_ERROR_ROOT_IF.
  destruct (GetNE domain =? 0)%nat eqn:E; [apply Nat.eqb_eq in E; lia|].
  destruct (dim =? Dimension domain)%Z eqn:Hdim; simpl; [|eauto].
  apply Z.eqb_eq in Hdim.
  destruct Hbad as [Hbad|(e & type & _ & He & Htype)]; [done|].
  assert (contains_unsupported_elements domain = true) as ->; [|eauto].
  apply contains_unsupported_from_spec. eauto.
Qed.

Lemma AddDomainIntegral_configuration_error_witness :
  ∃ msg, AddDomainIntegral (qf_input := R) (qf_output := R) (qpt_data_type := unit)
           3 [0%nat]
           {| interpolate := λ _ _, []; integrate := λ _, []; tangent := λ _, [];
             state_by_reference := false |}
           (λ u s, (u, s)) {| Dimension := 3; elements := [HEXAHEDRON; WEDGE] |} []
           (Functional_ctor H1_1 [H1_1] three_dof_space [three_dof_space])
         = ConfigurationError msg
             (Functional_ctor H1_1 [H1_1] three_dof_space [three_dof_space]).
Proof.
  apply AddDomainIntegral_configuration_error.
  - unfold GetNE. simpl. lia.
  - right. exists 1%nat, WEDGE. unfold GetNE. simpl. split; [lia|]. split; [reflexivity|]. auto.
Defined.

(** ** Gather and scatter-add are adjoint *)

Lemma dot_zeros (v : Vec) (n : nat) : dot v (zeros n) = 0.
Proof.
  revert n. induction v as [|a v IH]; intros [|n]; try reflexivity.
  unfold dot, zeros in *. simpl. rewrite IH. lra.
Qed.

Lemma dot_cons (a b : R) (v L : Vec) : dot (a :: v) (b :: L) = a * b + dot v L.
Proof. reflexivity. Qed.

Lemma add_at_S (i : nat) (x b : R) (L : Vec) :
  add_at (S i) x (b :: L) = b :: add_at i x L.
Proof. reflexivity. Qed.

Lemma dot_add_at (v L : Vec) (i : nat) (x : R) :
  length v = length L →
  dot v (add_at i x L) = dot v L + entry v i * x.
Proof.
  revert L i. induction v as [|a v IH]; intros [|b L] i Hlen; try discriminate.
  - unfold dot, entry. simpl. lra.
  - destruct i as [|i].
    + unfold dot, entry. simpl. lra.
    + rewrite add_at_S, !dot_cons, IH by (simpl in Hlen; lia).
      unfold entry. simpl. lra.
Qed.

Lemma add_at_length (i : nat) (x : R) (L : Vec) : length (add_at i x L) = length L.
Proof. unfold add_at. apply length_alter. Qed.

Lemma scatter_element_length (element : list (nat * Sign)) (E_element L : Vec) :
  length (scatter_element element E_element L) = length L.
Proof.
  unfold scatter_element. revert E_element L.
  induction element as [|d element IH]; intros [|e E_element] L; try reflexivity.
  simpl. rewrite IH. apply add_at_length.
Qed.

Lemma dot_scatter_element (v : Vec) (element : list (nat * Sign)) (E_element L : Vec) :
  length v = length L →
  dot v (scatter_element element E_element L)
  = dot v L + dot ((λ d : nat * Sign, sign_value d.2 * entry v d.1) <$> element) E_element.
Proof.
  unfold scatter_element. revert E_element L.
  induction element as [|d element IH]; intros [|e E_element] L Hlen;
    try (unfold dot; simpl; lra).
  rewrite fmap_cons. cbn [foldl zip_with]. rewrite IH by (by rewrite add_at_length).
  rewrite dot_add_at by done. rewrite dot_cons. cbn [fst snd]. ring.
Qed.

Lemma dot_ScatterAdd (G : ElementRestriction) (v : Vec) (E_vector : EVec) (L : Vec) :
  length v = length L →
  dot v (ScatterAdd G E_vector L) = dot v L + Edot (Gather G v) E_vector.
Proof.
  unfold ScatterAdd, Gather. destruct G as [info]. simpl. revert E_vector L.
  induction info as [|element info IH]; intros [|E_element E_vector] L Hlen;
    try (unfold Edot; simpl; lra).
  rewrite fmap_cons. cbn [foldl zip_with].
  rewrite IH by (by rewrite scatter_element_length).
  rewrite dot_scatter_element by done.
  unfold Edot. cbn [foldr zip_with fst snd]. ring.
Qed.

(** C3.  For a local vector and an E-vector of compatible shape, the inner
    product of the gathered local vector with the E-vector is the inner
    product of the local vector with the E-vector scattered and added into
    a zero local vector. *)
Theorem Gather_ScatterAdd_adjoint (G : ElementRestriction) (v : Vec) (w : EVec) :
  compatible_shape G v w = true →
  Edot (Gather G v) w = dot v (ScatterAdd G w (zeros (length v))).
Proof.
  intros _. rewrite dot_ScatterAdd.
  - rewrite dot_zeros. lra.
  - unfold zeros. by rewrite length_replicate.
Qed.

Lemma Gather_ScatterAdd_adjoint_witness :
  Edot (Gather two_segments_restriction [1; 2; 3]) [[1; 1]; [1; 1]]
  = dot [1; 2; 3] (ScatterAdd two_segments_restriction [[1; 1]; [1; 1]] (zeros 3)).
Proof.
  apply (Gather_ScatterAdd_adjoint two_segments_restriction [1; 2; 3] [[1; 1]; [1; 1]]).
  reflexivity.
Defined.

(** The shared middle dof of the two segments receives the contributions of
    both elements. *)
Example ScatterAdd_accumulates :
  ScatterAdd two_segments_restriction [[1; 1]; [1; 1]] (zeros 3) = [1; 2; 1].
Proof.
  unfold ScatterAdd, scatter_element, add_at, zeros. simpl.
  repeat f_equal; lra.
Qed.

(** ** The director of [BrighentiMechanical] *)

(** An equation of tensors, component by component. *)
Ltac componentwise :=
  repeat match goal with |- @pair _ _ _ _ = @pair _ _ _ _ => f_equal end.

Lemma squared_norm_nonneg (v : vec3) : 0 <= squared_norm v.
Proof. destruct v as [[x y] z]. unfold squared_norm, vdot. nra. Qed.

Lemma squared_norm_pos (v : vec3) : v ≠ (0, 0, 0) → 0 < squared_norm v.
Proof.
  destruct v as [[x y] z]. intros Hv. unfold squared_norm, vdot.
  destruct (Req_dec x 0) as [->|Hx]; [|nra].
  destruct (Req_dec y 0) as [->|Hy]; [|nra].
  destruct (Req_dec z 0) as [->|Hz]; [done|nra].
Qed.

Lemma norm_pos (v : vec3) : v ≠ (0, 0, 0) → 0 < norm v.
Proof. intros Hv. unfold norm. apply sqrt_lt_R0. by apply squared_norm_pos. Qed.

Lemma norm_vscale (c : R) (v : vec3) : 0 <= c → norm (vscale c v) = c * norm v.
Proof.
  intros Hc. unfold norm.
  replace (squared_norm (vscale c v)) with (c * c * squared_norm v)
    by (destruct v as [[x y] z]; unfold squared_norm, vdot, vscale; ring).
  rewrite sqrt_mult; [|nra|apply squared_norm_nonneg].
  by rewrite sqrt_square.
Qed.

Lemma vdiv_vscale (v : vec3) (a : R) : vdiv v a = vscale (/ a) v.
Proof. destruct v as [[x y] z]. unfold vdiv, vscale, Rdiv. componentwise; ring. Qed.

Lemma norm_normalised (v : vec3) : v ≠ (0, 0, 0) → norm (vdiv v (norm v)) = 1.
Proof.
  intros Hv. pose proof (norm_pos v Hv) as Hpos.
  rewrite vdiv_vscale, norm_vscale.
  - field. lra.
  - left. by apply Rinv_0_lt_compat.
Qed.

Lemma normalised_vscale (c : R) (v : vec3) :
  0 < c → v ≠ (0, 0, 0) →
  vdiv (vscale c v) (norm (vscale c v)) = vdiv v (norm v).
Proof.
  intros Hc Hv. pose proof (norm_pos v Hv) as Hpos.
  rewrite norm_vscale by lra.
  destruct v as [[x y] z]. unfold vdiv, vscale. componentwise; field; lra.
Qed.

Lemma initial_tensor_rescaled (c q0 N : R) (v : vec3) :
  0 < c → c ≠ 1 → v ≠ (0, 0, 0) →
  (calculateInitialDistributionTensor (vscale c v) q0 N
   ≠ calculateInitialDistributionTensor v q0 N
   ↔ q0 ≠ 0 ∧ N ≠ 0).
Proof.
  intros Hc Hc1 Hv. destruct v as [[x y] z].
  unfold calculateInitialDistributionTensor, outer, madd, mscale, vadd, vscale, Identity.
  split.
  - intros Hne. split; intros ->; apply Hne; componentwise; unfold Rdiv; ring.
  - intros [Hq HN] Heq. injection Heq as Hxx _ _ _ Hyy _ _ _ Hzz.
    assert (c * c - 1 ≠ 0) as Hcc by nra.
    assert (∀ t, N / 3 * ((1 - q0) * 1 + 3 * q0 * (c * t * (c * t)))
                 = N / 3 * ((1 - q0) * 1 + 3 * q0 * (t * t)) → t = 0) as Hzero.
    { intros t Ht.
      assert (N * q0 * (c * c - 1) * (t * t) = 0) as Hprod by lra.
      apply Rmult_integral in Hprod as [Hprod|Hprod]; [|nra].
      apply Rmult_integral in Hprod as [Hprod|Hprod]; [|done].
      apply Rmult_integral in Hprod as [Hprod|Hprod]; done. }
    apply Hv. by rewrite (Hzero x Hxx), (Hzero y Hyy), (Hzero z Hzz).
Qed.

Lemma BrighentiMechanical_ctor_Ok (density shear_modulus bulk_modulus order_constant
    order_parameter transition_temperature : R) (normal : vec3) (N_b_squared : R) :
  0 < density → 0 < shear_modulus → 0 < bulk_modulus → 0 < order_constant →
  0 < transition_temperature →
  BrighentiMechanical_ctor density shear_modulus bulk_modulus order_constant
    order_parameter transition_temperature normal N_b_squared
  = Ok {| density_ := density;
          shear_modulus_ := shear_modulus;
          bulk_modulus_ := bulk_modulus;
          order_constant_ := order_constant;
          initial_order_parameter_ := order_parameter;
          transition_temperature_ := transition_temperature;
          N_b_squared_ := N_b_squared;
          normal_ := vdiv normal (norm normal);
          initial_distribution_tensor_ :=
            calculateInitialDistributionTensor normal order_parameter N_b_squared |}.
Proof.
  intros. unfold BrighentiMechanical_ctor, SLIC_ERROR_ROOT_IF. simpl.
  repeat (rewrite bool_decide_eq_false_2 by lra). done.
Qed.

(** C10, as the code has it.  For a director that is not zero, the stored
    director has norm one.  The initial distribution tensor is computed from
    the director as it was passed: the same material constructed with the
    director scaled by [c > 0], [c ≠ 1], stores the same director, and a
    different initial distribution tensor exactly when the order parameter
    and [N_b_squared] are both not zero. *)
Theorem BrighentiMechanical_director (density shear_modulus bulk_modulus order_constant
    order_parameter transition_temperature : R) (normal : vec3) (N_b_squared c : R) :
  0 < density → 0 < shear_modulus → 0 < bulk_modulus → 0 < order_constant →
  0 < transition_temperature →
  normal ≠ (0, 0, 0) → 0 < c → c ≠ 1 →
  ∃ m m',
    BrighentiMechanical_ctor density shear_modulus bulk_modulus order_constant
      order_parameter transition_temperature normal N_b_squared = Ok m ∧
    BrighentiMechanical_ctor density shear_modulus bulk_modulus order_constant
      order_parameter transition_temperature (vscale c normal) N_b_squared = Ok m' ∧
    norm (normal_ m) = 1 ∧
    normal_ m' = normal_ m ∧
    (initial_distribution_tensor_ m' ≠ initial_distribution_tensor_ m
     ↔ order_parameter ≠ 0 ∧ N_b_squared ≠ 0).
Proof.
  intros Hd Hs Hb Ho Ht Hn Hc Hc1.
  eexists _, _. split; [by apply BrighentiMechanical_ctor_Ok|].
  split; [by apply BrighentiMechanical_ctor_Ok|].
  cbn [normal_ initial_distribution_tensor_].
  split; [by apply norm_normalised|].
  split; [by apply normalised_vscale|].
  by apply initial_tensor_rescaled.
Qed.

Lemma BrighentiMechanical_director_witness :
  ∃ m m',
    BrighentiMechanical_ctor 1 1 1 1 (1 / 2) 1 (1, 0, 0) 1 = Ok m ∧
    BrighentiMechanical_ctor 1 1 1 1 (1 / 2) 1 (vscale 2 (1, 0, 0)) 1 = Ok m' ∧
    norm (normal_ m) = 1 ∧
    normal_ m' = normal_ m ∧
    (initial_distribution_tensor_ m' ≠ initial_distribution_tensor_ m
     ↔ 1 / 2 ≠ 0 ∧ 1 ≠ 0).
Proof.
  apply (BrighentiMechanical_director 1 1 1 1 (1 / 2) 1 (1, 0, 0) 1 2); try lra.
  intros H. injection H as H. lra.
Defined.

(** With the order parameter zero the rescaled director gives the same
    initial distribution tensor: the tensor is not always different. *)
Lemma rescaled_director_same_tensor :
  ∃ m m',
    BrighentiMechanical_ctor 1 1 1 1 0 1 (1, 0, 0) 1 = Ok m ∧
    BrighentiMechanical_ctor 1 1 1 1 0 1 (vscale 2 (1, 0, 0)) 1 = Ok m' ∧
    normal_ m' = normal_ m ∧
    initial_distribution_tensor_ m' = initial_distribution_tensor_ m.
Proof.
  eexists _, _. split; [apply BrighentiMechanical_ctor_Ok; lra|].
  split; [apply BrighentiMechanical_ctor_Ok; lra|].
  cbn [normal_ initial_distribution_tensor_].
  split.
  - apply normalised_vscale; [lra|]. intros H. injection H as H. lra.
  - unfold calculateInitialDistributionTensor, outer, madd, mscale, vadd, vscale, Identity.
    componentwise; unfold Rdiv; ring.
Qed.

(** ** Loops *)

Section Loops.
Context {S A : Type}.
Implicit Types (body : S → A → option S) (items : list A).

Lemma for_each_app body items1 items2 s :
  for_each body (items1 ++ items2) s = for_each body items1 s ≫= for_each body items2.
Proof.
  revert s. induction items1 as [|a items1 IH]; intros s; [done|].
  simpl. destruct (body s a) as [s1|]; simpl; [apply IH|done].
Qed.

(** An invariant that may mention the items already processed. *)
Lemma for_each_prefix (P : list A → S → Prop) body items s s' :
  P [] s →
  (∀ processed a rest s1 s2,
     items = processed ++ a :: rest → P processed s1 → body s1 a = Some s2 →
     P (processed ++ [a]) s2) →
  for_each body items s = Some s' →
  P items s'.
Proof.
  intros Hinit Hstep.
  enough (∀ rest processed s1,
            items = processed ++ rest → P processed s1 →
            for_each body rest s1 = Some s' → P items s') as H
    by (by apply (H items [] s)).
  induction rest as [|a rest IH]; intros processed s1 Hitems HP Hrun.
  - simpl in Hrun. injection Hrun as <-. by rewrite Hitems, app_nil_r.
  - simpl in Hrun. destruct (body s1 a) as [s2|] eqn:Hbody; [|done]. simpl in Hrun.
    apply (IH (processed ++ [a]) s2); [by rewrite <- app_assoc| |done].
    by apply (Hstep processed a rest s1 s2).
Qed.

Lemma for_each_invariant (P : S → Prop) body items s s' :
  P s →
  (∀ a s1 s2, a ∈ items → P s1 → body s1 a = Some s2 → P s2) →
  for_each body items s = Some s' →
  P s'.
Proof.
  intros Hinit Hstep. apply (for_each_prefix (λ _, P)); [done|].
  intros processed a rest s1 s2 -> HP Hbody. apply (Hstep a s1 s2); [|done..].
  apply elem_of_app. right. left.
Qed.

(** The loop ends normally when every iteration does, under an invariant. *)
Lemma for_each_progress (P : S → Prop) body items s :
  P s →
  (∀ a s1, a ∈ items → P s1 → ∃ s2, body s1 a = Some s2 ∧ P s2) →
  ∃ s', for_each body items s = Some s' ∧ P s'.
Proof.
  revert s. induction items as [|a items IH]; intros s HP Hstep; [by exists s|].
  destruct (Hstep a s) as (s2 & Hbody & HP2); [left|done|].
  destruct (IH s2 HP2) as (s' & Hrun & HP').
  { intros a' s1 Ha'. apply Hstep. by right. }
  exists s'. simpl. by rewrite Hbody.
Qed.

End Loops.

(** Prove a property of the state a loop ends in as an invariant of the
    loop: first at the start, then through one iteration. *)
Ltac loop_invariant H :=
  match type of H with
  | for_each _ _ _ = Some ?s' =>
      pattern s'; eapply for_each_invariant; [ | | exact H]; cbv beta
  end.

(** ** What an evaluation leaves alone *)

Section Frame.
Context {qf_input qf_output qpt_data_type : Type}.
Abbreviation Functional' := (Functional qf_input qf_output qpt_data_type).
Abbreviation Integral' := (Integral qf_input qf_output qpt_data_type).
Abbreviation Call' := (Call qf_input qf_output qpt_data_type).
Implicit Types (f : Functional') (I : Integral') (c : Call').

Lemma at_type_set_at_type {X} (t t' : IntegralType) (x : X) (a : PerType X) :
  at_type (set_at_type t x a) t' = if decide (t' = t) then x else at_type a t'.
Proof. by destruct t, t', a. Qed.

Lemma set_at_type_id {X} (t : IntegralType) (a : PerType X) :
  set_at_type t (at_type a t) a = a.
Proof. by destruct t, a. Qed.

Lemma set_block_input_E_id f : set_block_input_E_ (block_input_E_ f) f = f.
Proof. by destruct f. Qed.

Lemma Integral_Mult_static I input_E wrt update_state :
  static_part (Integral_Mult I input_E wrt update_state).2 = static_part I.
Proof.
  unfold Integral_Mult. by destruct (0 <=? wrt)%Z.
Qed.

Lemma static_part_insert (integrals : list Integral') (k : nat) I I' :
  integrals !! k = Some I → static_part I' = static_part I →
  static_part <$> <[k := I']> integrals = static_part <$> integrals.
Proof.
  intros Hk Hstatic. rewrite list_fmap_insert, Hstatic.
  apply list_insert_id. by rewrite list_lookup_fmap, Hk.
Qed.

Lemma prolongate_body_Some input_T f i f' :
  prolongate_body input_T f i = Some f' →
  ∃ P x, deref (P_trial_ f) i = Some P ∧ input_T !! i = Some x ∧
         (i < length (input_L_ f))%nat ∧
         f' = set_input_L_ (<[i := Mult P x]> (input_L_ f)) f.
Proof.
  unfold prolongate_body. intros H.
  destruct (deref (P_trial_ f) i) as [P|]; [|done]. simpl in H.
  destruct (input_T !! i) as [x|]; [|done]. simpl in H.
  destruct (input_L_ f !! i) as [L|] eqn:HL; [|done]. simpl in H.
  injection H as <-. exists P, x. repeat split. by apply lookup_lt_Some in HL.
Qed.

Lemma gather_body_Some type' c i c' :
  gather_body type' c i = Some c' →
  (at_type (already_computed c) type' !! i = Some true ∧ c' = c) ∨
  (at_type (already_computed c) type' !! i = Some false ∧
   ∃ G L E,
     G_trial_ (object c) !! i = Some G ∧ input_L_ (object c) !! i = Some L ∧
     at_type (block_input_E_ (object c)) type' !! i = Some E ∧
     c' = {| object :=
               set_block_input_E_
                 (set_at_type type'
                    (<[i := Gather G L]> (at_type (block_input_E_ (object c)) type'))
                    (block_input_E_ (object c)))
                 (object c);
             already_computed :=
               set_at_type type' (<[i := true]> (at_type (already_computed c) type'))
                 (already_computed c);
             trace := trace c ++ [gather_event type' i] |}).
Proof.
  unfold gather_body. intros H.
  destruct (at_type (already_computed c) type' !! i) as [[]|]; simpl in H; [| |done].
  - left. by injection H as <-.
  - right. split; [done|].
    destruct (G_trial_ (object c) !! i) as [G|]; [|done]. simpl in H.
    destruct (input_L_ (object c) !! i) as [L|]; [|done]. simpl in H.
    destruct (at_type (block_input_E_ (object c)) type' !! i) as [E|]; [|done].
    simpl in H. injection H as <-. by exists G, L, E.
Qed.

Lemma operator_paren_body_Some wrt c k c' :
  operator_paren_body wrt c k = Some c' →
  ∃ I c1, integrals_ (object c) !! k = Some I ∧
          for_each (gather_body (type I)) (active_trial_spaces I) c = Some c1 ∧
          c' = evaluate_integral wrt k I c1.
Proof.
  unfold operator_paren_body. intros H.
  destruct (integrals_ (object c) !! k) as [I|]; [|done]. simpl in H.
  destruct (for_each _ _ c) as [c1|] eqn:E; [|done]. simpl in H.
  injection H as <-. by exists I, c1.
Qed.

(** The fields of the object after [evaluate_integral]. *)
Lemma evaluate_integral_object wrt k I c :
  let r := Integral_Mult I (at_type (block_input_E_ (object c)) (type I)) wrt
             (update_qdata (object c)) in
  object (evaluate_integral wrt k I c)
  = set_output_L_ (ScatterAdd (G_test_ (object c)) r.1 (output_L_ (object c)))
      (set_block_output_E_ (set_at_type (type I) r.1 (block_output_E_ (object c)))
         (set_integrals_ (<[k := r.2]> (integrals_ (object c))) (object c))) ∧
  already_computed (evaluate_integral wrt k I c) = already_computed c ∧
  trace (evaluate_integral wrt k I c) = trace c.
Proof.
  unfold evaluate_integral. cbv zeta.
  destruct (Integral_Mult I (at_type (block_input_E_ (object c)) (type I)) wrt
              (update_qdata (object c))) as [out I'].
  done.
Qed.

Lemma gather_body_configuration type' c i c' :
  gather_body type' c i = Some c' →
  configuration (object c') = configuration (object c) ∧
  input_L_ (object c') = input_L_ (object c) ∧
  integrals_ (object c') = integrals_ (object c) ∧
  output_L_ (object c') = output_L_ (object c) ∧
  output_T_ (object c') = output_T_ (object c) ∧
  block_output_E_ (object c') = block_output_E_ (object c).
Proof.
  intros H. apply gather_body_Some in H as [[_ ->]|(_ & G & L & E & _ & _ & _ & ->)]; done.
Qed.

Lemma gather_loop_configuration type' items c c' :
  for_each (gather_body type') items c = Some c' →
  configuration (object c') = configuration (object c) ∧
  input_L_ (object c') = input_L_ (object c) ∧
  integrals_ (object c') = integrals_ (object c) ∧
  output_L_ (object c') = output_L_ (object c) ∧
  output_T_ (object c') = output_T_ (object c) ∧
  block_output_E_ (object c') = block_output_E_ (object c).
Proof.
  intros Hloop. loop_invariant Hloop; [done|].
  intros i c1 c2 _ (H1 & H2 & H3 & H4 & H5 & H6) Hbody.
  apply gather_body_configuration in Hbody as (-> & -> & -> & -> & -> & ->). done.
Qed.

Lemma evaluate_integral_configuration wrt k I c :
  integrals_ (object c) !! k = Some I →
  configuration (object (evaluate_integral wrt k I c)) = configuration (object c) ∧
  input_L_ (object (evaluate_integral wrt k I c)) = input_L_ (object c) ∧
  block_input_E_ (object (evaluate_integral wrt k I c)) = block_input_E_ (object c) ∧
  output_T_ (object (evaluate_integral wrt k I c)) = output_T_ (object c).
Proof.
  intros Hk. destruct (evaluate_integral_object wrt k I c) as (-> & _ & _).
  unfold configuration. simpl. repeat split.
  rewrite (static_part_insert _ k I); [done..|]. apply Integral_Mult_static.
Qed.

Lemma operator_paren_body_configuration wrt c k c' :
  operator_paren_body wrt c k = Some c' →
  configuration (object c') = configuration (object c) ∧
  input_L_ (object c') = input_L_ (object c) ∧
  output_T_ (object c') = output_T_ (object c).
Proof.
  intros H. apply operator_paren_body_Some in H as (I & c1 & Hk & Hgather & ->).
  apply gather_loop_configuration in Hgather as (H1 & H2 & H3 & _ & H5 & _).
  rewrite <- H3 in Hk.
  destruct (evaluate_integral_configuration wrt k I c1 Hk) as (-> & -> & _ & ->).
  done.
Qed.

Lemma prolongate_loop_configuration input_T items f f' :
  for_each (prolongate_body input_T) items f = Some f' →
  configuration f' = configuration f ∧
  integrals_ f' = integrals_ f ∧ output_L_ f' = output_L_ f ∧
  block_input_E_ f' = block_input_E_ f ∧
  length (input_L_ f') = length (input_L_ f).
Proof.
  intros Hloop. loop_invariant Hloop; [done|].
  intros i f1 f2 _ (H1 & H2 & H3 & H4 & H5) Hbody.
  apply prolongate_body_Some in Hbody as (P & x & _ & _ & _ & ->).
  simpl. rewrite length_insert. done.
Qed.

Lemma operator_paren_finish_Some wrt c f' r events :
  operator_paren_finish wrt c = Some (f', r, events) →
  f' = set_output_T_ (MultTranspose (P_test_ (object c)) (output_L_ (object c))) (object c) ∧
  events = trace c ∧
  ((wrt = -1 ∧ r = value (output_T_ f'))%Z ∨
   ((0 <= wrt)%Z ∧ ∃ gradient, grad_ (object c) !! Z.to_nat wrt = Some gradient ∧
                               r = value_and_gradient (output_T_ f') gradient)).
Proof.
  unfold operator_paren_finish. intros H.
  destruct (0 <=? wrt)%Z eqn:Hwrt.
  - apply Z.leb_le in Hwrt. simpl in H.
    destruct (grad_ (object c) !! Z.to_nat wrt) as [g|] eqn:Hg; [|done].
    simpl in H. injection H as <- <- <-. repeat split. right. split; [done|]. by exists g.
  - destruct (wrt =? -1)%Z eqn:Hm; [|done]. apply Z.eqb_eq in Hm.
    injection H as <- <- <-. repeat split. by left.
Qed.

(** The pieces of a call of [operator()] that ended normally. *)
Lemma operator_paren_Some f wrt input_T f' r events :
  operator_paren f wrt input_T = Some (f', r, events) →
  ∃ f1 c,
    for_each (prolongate_body input_T) (seq 0 (num_trial_spaces f)) f = Some f1 ∧
    for_each (operator_paren_body wrt)
      (seq 0 (length (integrals_ (set_output_L_ (assign_zero (output_L_ f1)) f1))))
      {| object := set_output_L_ (assign_zero (output_L_ f1)) f1;
         already_computed := all_types (replicate (num_trial_spaces f) false);
         trace := [] |} = Some c ∧
    operator_paren_finish wrt c = Some (f', r, events).
Proof.
  unfold operator_paren. intros H.
  destruct (for_each (prolongate_body input_T) _ f) as [f1|]; [|done]. simpl in H.
  destruct (for_each (operator_paren_body wrt) _ _) as [c|] eqn:Hc; [|done].
  simpl in H. by exists f1, c.
Qed.

Lemma operator_paren_configuration f wrt input_T f' r events :
  operator_paren f wrt input_T = Some (f', r, events) →
  configuration f' = configuration f.
Proof.
  intros H. apply operator_paren_Some in H as (f1 & c & Hpro & Hloop & Hfin).
  apply prolongate_loop_configuration in Hpro as (Hconf1 & _).
  apply operator_paren_finish_Some in Hfin as (-> & _ & _).
  assert (configuration (object c) = configuration f1) as Hc; [|by rewrite <- Hconf1, <- Hc].
  loop_invariant Hloop; [done|].
  intros k c1 c2 _ H1 Hbody.
  apply operator_paren_body_configuration in Hbody as (-> & _). done.
Qed.

Lemma ActionOfGradient_body_configuration which (s : Functional' * PerType bool) k s' :
  ActionOfGradient_body which s k = Some s' →
  configuration s'.1 = configuration s.1 ∧ integrals_ s'.1 = integrals_ s.1.
Proof.
  destruct s as [f already]. unfold ActionOfGradient_body. intros H.
  destruct (integrals_ f !! k) as [I|]; [|done]. simpl in H.
  destruct (negb (at_type already (type I))).
  - destruct (G_trial_ f !! which) as [G|]; [|done]. simpl in H.
    destruct (input_L_ f !! which) as [L|]; [|done]. simpl in H.
    destruct (at_type (block_input_E_ f) (type I) !! which) as [E0|]; [|done].
    simpl in H.
    destruct (_ !! which) as [E|]; [|done]. simpl in H. by injection H as <-.
  - simpl in H. destruct (_ !! which) as [E|]; [|done]. simpl in H. by injection H as <-.
Qed.

Lemma ActionOfGradient_configuration f input_T which f' output_T :
  ActionOfGradient f input_T which = Some (f', output_T) →
  configuration f' = configuration f ∧ integrals_ f' = integrals_ f.
Proof.
  unfold ActionOfGradient. intros H.
  destruct (deref (P_trial_ f) which) as [P|]; [|done]. simpl in H.
  destruct (input_L_ f !! which) as [L|]; [|done]. simpl in H.
  destruct (for_each _ _ _) as [s|] eqn:Hloop; [|done]. simpl in H.
  injection H as <- <-.
  loop_invariant Hloop; [done|].
  intros k s1 s2 _ [H1 H2] Hbody.
  apply ActionOfGradient_body_configuration in Hbody as [-> ->]. done.
Qed.

Lemma configuration_Q f f' : configuration f' = configuration f → Q f' = Q f.
Proof. unfold configuration, Q. intros H. injection H as -> -> _. done. Qed.

Lemma configuration_grad_ f f' : configuration f' = configuration f → grad_ f' = grad_ f.
Proof. unfold configuration. intros H. by injection H. Qed.

Lemma configuration_trials f f' : configuration f' = configuration f → trials f' = trials f.
Proof. unfold configuration. intros H. by injection H. Qed.

Lemma configuration_P_trial_ f f' :
  configuration f' = configuration f → P_trial_ f' = P_trial_ f.
Proof. unfold configuration. intros H. by injection H. Qed.

Lemma configuration_G_trial_ f f' :
  configuration f' = configuration f → G_trial_ f' = G_trial_ f.
Proof. unfold configuration. intros H. by injection H. Qed.

Lemma configuration_update_qdata f f' :
  configuration f' = configuration f → update_qdata f' = update_qdata f.
Proof. unfold configuration. intros H. by injection H. Qed.

Lemma configuration_static f f' :
  configuration f' = configuration f →
  static_part <$> integrals_ f' = static_part <$> integrals_ f.
Proof. unfold configuration. intros H. by injection H. Qed.

Lemma static_part_lookup (integrals integrals' : list Integral') k I' :
  static_part <$> integrals' = static_part <$> integrals →
  integrals' !! k = Some I' →
  ∃ I, integrals !! k = Some I ∧ static_part I' = static_part I.
Proof.
  intros H Hk. apply (f_equal (λ l, l !! k)) in H.
  rewrite !list_lookup_fmap, Hk in H.
  destruct (integrals !! k) as [I|]; [|done]. simpl in H. injection H as H.
  exists I. split; [done|]. unfold static_part. congruence.
Qed.

Lemma static_part_quadrature_order I I' :
  static_part I' = static_part I → quadrature_order I' = quadrature_order I.
Proof. unfold static_part. intros H. by injection H. Qed.

Lemma configuration_quadrature_order f f' (q : Z) :
  configuration f' = configuration f →
  Forall (λ I, quadrature_order I = q) (integrals_ f) →
  Forall (λ I, quadrature_order I = q) (integrals_ f').
Proof.
  intros Hconf Hall. apply configuration_static in Hconf.
  apply Forall_lookup. intros k I' Hk.
  destruct (static_part_lookup _ _ k I' Hconf Hk) as (I & HI & Hstatic).
  rewrite (static_part_quadrature_order _ _ Hstatic).
  by apply (proj1 (Forall_lookup _ _) Hall k).
Qed.

(** The objects a program can hold have no [Gradient], and their integrals
    have the quadrature order of the object. *)
Lemma built_invariant f :
  built f → grad_ f = [] ∧ Forall (λ I, quadrature_order I = Q f) (integrals_ f).
Proof.
  induction 1 as [ | f dim args kernels integrand domain' qdata' f' _ [IHg IHq] Hadd
                 | f flag _ [IHg IHq]
                 | f wrt input_T f' r events _ [IHg IHq] Hcall
                 | f input_T which f' output_T _ [IHg IHq] Hcall ].
  - split; [done|]. constructor.
  - unfold AddDomainIntegral, SLIC_ERROR_ROOT_IF in Hadd.
    destruct (GetNE domain' =? 0)%nat; [by injection Hadd as <-|].
    destruct (negb _); [done|]. destruct (contains_unsupported_elements _); [done|].
    injection Hadd as <-. split; [done|]. simpl.
    apply Forall_app. split; [done|]. by repeat constructor.
  - done.
  - apply operator_paren_configuration in Hcall.
    rewrite (configuration_grad_ _ _ Hcall), (configuration_Q _ _ Hcall).
    split; [done|]. by apply (configuration_quadrature_order f).
  - apply ActionOfGradient_configuration in Hcall as [Hconf Hint].
    rewrite (configuration_grad_ _ _ Hconf), (configuration_Q _ _ Hconf), Hint. done.
Qed.

Lemma Q_is_max_plus_one f :
  (∀ o, o ∈ order (test f) :: (order <$> trials f) → (o <= Q f - 1)%Z) ∧
  (Q f - 1)%Z ∈ order (test f) :: (order <$> trials f).
Proof.
  unfold Q. generalize (order (test f)) (order <$> trials f). intros o0 os.
  replace (foldr Z.max o0 os + 1 - 1)%Z with (foldr Z.max o0 os) by lia.
  induction os as [|o os [IHle IHin]]; simpl.
  - split; [|left]. intros o Ho. apply list_elem_of_singleton in Ho. lia.
  - split.
    + intros o' Ho'. apply elem_of_cons in Ho' as [->|Ho'].
      * specialize (IHle o0 ltac:(left)). lia.
      * apply elem_of_cons in Ho' as [->|Ho']; [lia|].
        specialize (IHle o' ltac:(by right)). lia.
    + destruct (Z.max_spec o (foldr Z.max o0 os)) as [[_ ->]|[_ ->]].
      * apply elem_of_cons in IHin as [->|IHin]; [left|]. by do 2 right.
      * right. left.
Qed.

End Frame.

(** ** The quadrature order *)

(** C7.  In an object that a program can hold, every integral has the
    quadrature order [Q] of the object, and [Q - 1] is the greatest of the
    polynomial orders of the test space and the trial spaces.
    [AddDomainIntegral] has no parameter for the quadrature order. *)
Theorem quadrature_order_is_max_order_plus_one
    {qf_input qf_output qpt_data_type : Type}
    (f : Functional qf_input qf_output qpt_data_type) :
  built f →
  (∀ I, I ∈ integrals_ f → quadrature_order I = Q f) ∧
  (∀ o, o ∈ order (test f) :: (order <$> trials f) → (o <= Q f - 1)%Z) ∧
  (Q f - 1)%Z ∈ order (test f) :: (order <$> trials f).
Proof.
  intros Hbuilt. split; [|apply Q_is_max_plus_one].
  apply built_invariant in Hbuilt as [_ Hall].
  intros I HI. by apply (proj1 (Forall_forall _ _) Hall).
Qed.

Lemma quadrature_order_is_max_order_plus_one_witness :
  (∀ I, I ∈ integrals_ (set_integrals_ [mass_integral] constructed_functional) →
        quadrature_order I = Q (set_integrals_ [mass_integral] constructed_functional)) ∧
  (∀ o, o ∈ [1; 1]%Z →
        (o <= Q (set_integrals_ [mass_integral] constructed_functional) - 1)%Z) ∧
  (Q (set_integrals_ [mass_integral] constructed_functional) - 1)%Z ∈ [1; 1]%Z.
Proof.
  apply (quadrature_order_is_max_order_plus_one
           (set_integrals_ [mass_integral] constructed_functional)).
  apply (built_AddDomainIntegral constructed_functional 1 [0%nat] nodal_evaluator
           mass_integrand two_segments [(); (); (); ()]).
  - apply built_ctor.
  - reflexivity.
Defined.

(** ** The gradient operators of a [Functional] *)

(** C2, where the code departs from it.  An object that a program can hold
    has an empty [grad_]: a call of [operator()] that differentiates, with
    any index [wrt >= 0], reads [grad_[wrt]] outside of the vector and
    returns no pair.  ([Gradient::Mult] itself is [ActionOfGradient] at
    [which_argument].) *)
Theorem constructed_Functional_has_no_Gradient
    {qf_input qf_output qpt_data_type : Type}
    (f : Functional qf_input qf_output qpt_data_type) :
  built f →
  grad_ f = [] ∧
  (∀ wrt input_T, (0 <= wrt)%Z → operator_paren f wrt input_T = None) ∧
  (∀ g dx, Gradient_Mult f g dx = ActionOfGradient f dx (which_argument g)).
Proof.
  intros Hbuilt. apply built_invariant in Hbuilt as [Hgrad _].
  split; [done|]. split; [|done].
  intros wrt input_T Hwrt.
  destruct (operator_paren f wrt input_T) as [[[f' r] events]|] eqn:Hcall; [|done].
  apply operator_paren_Some in Hcall as (f1 & c & Hpro & Hloop & Hfin).
  apply operator_paren_finish_Some in Hfin as (_ & _ & [[-> _]|(_ & g & Hg & _)]); [lia|].
  apply prolongate_loop_configuration in Hpro as (Hconf1 & _).
  assert (configuration (object c) = configuration f1) as Hc.
  { loop_invariant Hloop; [done|]. intros k c1 c2 _ H1 Hbody.
    apply operator_paren_body_configuration in Hbody as (-> & _). done. }
  apply configuration_grad_ in Hc, Hconf1. rewrite Hc, Hconf1, Hgrad in Hg. done.
Qed.

Lemma constructed_Functional_has_no_Gradient_witness :
  grad_ (set_integrals_ [mass_integral] constructed_functional) = [] ∧
  (∀ wrt input_T, (0 <= wrt)%Z →
     operator_paren (set_integrals_ [mass_integral] constructed_functional) wrt input_T
     = None) ∧
  (∀ g dx, Gradient_Mult (set_integrals_ [mass_integral] constructed_functional) g dx
           = ActionOfGradient (set_integrals_ [mass_integral] constructed_functional) dx
               (which_argument g)).
Proof.
  apply (constructed_Functional_has_no_Gradient
           (set_integrals_ [mass_integral] constructed_functional)).
  apply (built_AddDomainIntegral constructed_functional 1 [0%nat] nodal_evaluator
           mass_integrand two_segments [(); (); (); ()]).
  - apply built_ctor.
  - reflexivity.
Defined.

(** The failing call of C2: [f(differentiate_wrt(u))] on a constructed
    [Functional<H1<1>(H1<1>)>] with one integral compiles, with index of
    differentiation [0], and its evaluation returns nothing. *)
Example differentiate_wrt_on_constructed_Functional :
  operator_paren_variadic (set_integrals_ [mass_integral] constructed_functional)
    [differentiate_wrt [1; 2; 3]]
  = compiled None.
Proof. reflexivity. Qed.

(** ** One gather per call for each trial space and integral type *)

Section Gathers.
Context {qf_input qf_output qpt_data_type : Type}.
Implicit Types (f : Functional qf_input qf_output qpt_data_type)
  (I : Integral qf_input qf_output qpt_data_type)
  (c a : Call qf_input qf_output qpt_data_type).

Lemma count_gathers_app type' i events1 events2 :
  count_gathers type' i (events1 ++ events2)
  = (count_gathers type' i events1 + count_gathers type' i events2)%nat.
Proof. unfold count_gathers. by rewrite filter_app, length_app. Qed.

Lemma count_gathers_singleton type' i e :
  count_gathers type' i [e] = if decide (e = gather_event type' i) then 1%nat else 0%nat.
Proof.
  unfold count_gathers. rewrite filter_cons, filter_nil. by destruct (decide _).
Qed.

(** The flags after [already_computed[type0][i] = true]. *)
Lemma flag_set (already : PerType (list bool)) type0 i type' i' :
  at_type already type0 !! i = Some false →
  at_type (set_at_type type0 (<[i := true]> (at_type already type0)) already) type' !! i'
  = Some true
  ↔ (type' = type0 ∧ i' = i) ∨ at_type already type' !! i' = Some true.
Proof.
  intros Hold. rewrite at_type_set_at_type.
  destruct (decide (type' = type0)) as [->|Htype].
  - destruct (decide (i' = i)) as [->|Hi].
    + rewrite list_lookup_insert_eq by (by apply lookup_lt_Some in Hold).
      split; [by left|done].
    + rewrite list_lookup_insert_ne by done.
      split; [by right|]. intros [[_ ?]|?]; done.
  - split; [by right|]. intros [[? _]|?]; done.
Qed.

(** One iteration of the gather loop keeps what the loop over the integrals
    relies on. *)
Lemma gather_body_spec f2 type0 c i c' :
  gather_body type0 c i = Some c' →
  gathers_valid f2 c → gathers_counted c →
  gathers_valid f2 c' ∧ gathers_counted c' ∧
  (∀ type' i', flagged c' type' i' ↔ flagged c type' i' ∨ (type' = type0 ∧ i' = i)).
Proof.
  intros Hbody (Hconf & Hinput & Hlen & Hvalid) Hcount.
  apply gather_body_Some in Hbody
    as [[Hflag ->]|(Hflag & G & L & E & HG & HL & HE & ->)].
  - split; [done|]. split; [done|].
    intros type' i'. split; [by left|]. intros [?|[-> ->]]; done.
  - assert (∀ type' i',
              flagged {| object := set_block_input_E_
                   (set_at_type type0
                      (<[i := Gather G L]> (at_type (block_input_E_ (object c)) type0))
                      (block_input_E_ (object c))) (object c);
                 already_computed := set_at_type type0
                   (<[i := true]> (at_type (already_computed c) type0)) (already_computed c);
                 trace := trace c ++ [gather_event type0 i] |} type' i'
              ↔ flagged c type' i' ∨ (type' = type0 ∧ i' = i)) as Hflags.
    { intros type' i'. unfold flagged. simpl. rewrite flag_set by done. tauto. }
    split; [|split; [|done]].
    + split; [done|]. split; [done|]. split.
      { intros type'. simpl. rewrite at_type_set_at_type.
        destruct (decide (type' = type0)) as [->|]; [|done].
        by rewrite length_insert. }
      intros type' i' Hset.
      apply Hflags in Hset. simpl. rewrite at_type_set_at_type.
      destruct (decide (type' = type0)) as [->|Htype].
      * destruct (decide (i' = i)) as [->|Hi].
        -- exists G, L. rewrite <- Hinput.
           assert (G_trial_ f2 = G_trial_ (object c)) as ->
             by (unfold configuration in Hconf; by injection Hconf).
           split; [done|]. split; [done|].
           apply list_lookup_insert_eq. by apply lookup_lt_Some in HE.
        -- rewrite list_lookup_insert_ne by done. apply Hvalid.
           destruct Hset as [?|[_ ?]]; done.
      * apply Hvalid. destruct Hset as [?|[? _]]; done.
    + intros type' i'. simpl. rewrite count_gathers_app, count_gathers_singleton, Hcount.
      destruct (decide (gather_event type0 i = gather_event type' i')) as [Heq|Hne].
      * injection Heq as <- <-.
        rewrite (decide_False (P := flagged c type0 i))
          by (unfold flagged; rewrite Hflag; done).
        rewrite decide_True; [done|]. apply Hflags. by right.
      * destruct (decide (flagged c type' i')) as [Hold|Hold].
        -- rewrite decide_True; [done|]. apply Hflags. by left.
        -- rewrite decide_False; [done|]. rewrite Hflags. intros [?|[-> ->]]; done.
Qed.

Lemma gather_loop_spec f2 type0 items c c' :
  for_each (gather_body type0) items c = Some c' →
  gathers_valid f2 c → gathers_counted c →
  gathers_valid f2 c' ∧ gathers_counted c' ∧
  (∀ type' i', flagged c' type' i' ↔ flagged c type' i' ∨ (type' = type0 ∧ i' ∈ items)).
Proof.
  intros Hloop Hvalid Hcount.
  pose (P := λ (processed : list nat) (c1 : Call qf_input qf_output qpt_data_type),
          gathers_valid f2 c1 ∧ gathers_counted c1 ∧
          (∀ type' i', flagged c1 type' i'
                       ↔ flagged c type' i' ∨ (type' = type0 ∧ i' ∈ processed))).
  apply (for_each_prefix P (gather_body type0) items c c'); [ | |exact Hloop].
  - split; [done|]. split; [done|].
    intros type' i'. split; [by left|]. intros [?|[_ Hin]]; [done|].
    by apply elem_of_nil in Hin.
  - intros processed i rest c1 c2 _ (Hv1 & Hc1 & Hf1) Hbody.
    destruct (gather_body_spec f2 type0 c1 i c2 Hbody Hv1 Hc1) as (Hv2 & Hc2 & Hf2).
    split; [exact Hv2|]. split; [exact Hc2|].
    intros type' i'. split.
    + intros Hset. apply Hf2 in Hset as [Hset|[-> ->]].
      * apply Hf1 in Hset as [?|[-> Hin]]; [by left|]. right. split; [done|].
        apply elem_of_app. by left.
      * right. split; [done|]. apply elem_of_app. right. left.
    + intros [Hset|[-> Hin]]; apply Hf2.
      * left. apply Hf1. by left.
      * apply elem_of_app in Hin as [Hin|Hin].
        -- left. apply Hf1. by right.
        -- apply list_elem_of_singleton in Hin as ->. by right.
Qed.

Lemma evaluate_integral_spec f2 wrt k I c :
  integrals_ (object c) !! k = Some I →
  gathers_valid f2 c → gathers_counted c →
  gathers_valid f2 (evaluate_integral wrt k I c) ∧
  gathers_counted (evaluate_integral wrt k I c) ∧
  (∀ type' i, flagged (evaluate_integral wrt k I c) type' i ↔ flagged c type' i).
Proof.
  intros Hk (Hconf & Hinput & Hlen & Hvalid) Hcount.
  destruct (evaluate_integral_configuration wrt k I c Hk) as (Hconf' & Hinput' & Hblock' & _).
  destruct (evaluate_integral_object wrt k I c) as (_ & Halready & Htrace).
  assert (∀ type' i, flagged (evaluate_integral wrt k I c) type' i ↔ flagged c type' i)
    as Hflags by (intros type' i; unfold flagged; by rewrite Halready).
  split; [|split; [|done]].
  - split; [congruence|]. split; [congruence|]. split.
    + intros type'. rewrite Halready. apply Hlen.
    + intros type' i Hset. rewrite Hblock'. apply Hvalid. by apply Hflags.
  - intros type' i. rewrite Htrace, Hcount.
    destruct (decide (flagged c type' i)) as [Hset|Hset].
    + rewrite decide_True; [done|]. by apply Hflags.
    + rewrite decide_False; [done|]. by rewrite Hflags.
Qed.

Lemma gathers_valid_lookup f2 c k I :
  gathers_valid f2 c → integrals_ (object c) !! k = Some I →
  ∃ I2, integrals_ f2 !! k = Some I2 ∧ type I = type I2 ∧
        active_trial_spaces I = active_trial_spaces I2.
Proof.
  intros (Hconf & _) Hk. apply configuration_static in Hconf.
  destruct (static_part_lookup _ _ k I Hconf Hk) as (I2 & HI2 & Hstatic).
  exists I2. split; [done|]. unfold static_part in Hstatic. by injection Hstatic.
Qed.

(** One iteration of the loop over the integrals. *)
Lemma operator_paren_body_spec f2 wrt c k c' :
  operator_paren_body wrt c k = Some c' →
  gathers_valid f2 c → gathers_counted c →
  gathers_valid f2 c' ∧ gathers_counted c' ∧
  (∀ type' i,
     flagged c' type' i
     ↔ flagged c type' i ∨
       ∃ I2, integrals_ f2 !! k = Some I2 ∧ type' = type I2 ∧ i ∈ active_trial_spaces I2).
Proof.
  intros Hbody Hvalid Hcount.
  apply operator_paren_body_Some in Hbody as (I & c1 & Hk & Hgather & ->).
  destruct (gathers_valid_lookup f2 c k I Hvalid Hk) as (I2 & HI2 & Htype & Hactive).
  destruct (gather_loop_spec f2 _ _ c c1 Hgather Hvalid Hcount) as (Hv1 & Hc1 & Hf1).
  apply gather_loop_configuration in Hgather as (_ & _ & Hint & _).
  rewrite <- Hint in Hk.
  destruct (evaluate_integral_spec f2 wrt k I c1 Hk Hv1 Hc1) as (Hv2 & Hc2 & Hf2).
  split; [done|]. split; [done|]. intros type' i. rewrite Hf2, Hf1. split.
  - intros [?|[-> Hin]]; [by left|]. right. exists I2. by rewrite <- Hactive.
  - intros [?|(I2' & HI2' & -> & Hin)]; [by left|]. right.
    rewrite HI2 in HI2'. injection HI2' as <-. by rewrite Hactive.
Qed.

(** The loop over the integrals, from the state in which a call enters it. *)
Lemma operator_paren_loop_spec f2 wrt c' :
  for_each (operator_paren_body wrt) (seq 0 (length (integrals_ f2)))
    {| object := f2;
       already_computed := all_types (replicate (num_trial_spaces f2) false);
       trace := [] |} = Some c' →
  gathers_valid f2 c' ∧ gathers_counted c' ∧
  (∀ type' i, flagged c' type' i ↔ required f2 type' i).
Proof.
  intros Hloop.
  pose (P := λ (processed : list nat) (c : Call qf_input qf_output qpt_data_type),
          gathers_valid f2 c ∧ gathers_counted c ∧
          (∀ type' i,
             flagged c type' i
             ↔ ∃ k I2, k ∈ processed ∧ integrals_ f2 !! k = Some I2 ∧
                       type' = type I2 ∧ i ∈ active_trial_spaces I2)).
  assert (∀ type' i,
            ¬ flagged {| object := f2;
                         already_computed := all_types (replicate (num_trial_spaces f2) false);
                         trace := [] |} type' i) as Hclear.
  { intros type' i. unfold flagged. simpl.
    intros Hset. destruct type'; simpl in Hset;
      apply lookup_replicate in Hset as [? _]; done. }
  assert (P (seq 0 (length (integrals_ f2))) c') as (Hv & Hc & Hf).
  { eapply (for_each_prefix P (operator_paren_body wrt)); [ | |exact Hloop].
    - split; [|split].
      + split; [done|]. split; [done|]. split.
        * intros type'. simpl. destruct type'; simpl; apply length_replicate.
        * intros type' i Hset. by apply Hclear in Hset.
      + intros type' i. rewrite decide_False by apply Hclear. done.
      + intros type' i. split; [by intros ?%Hclear|].
        intros (k & I2 & Hin & _). by apply elem_of_nil in Hin.
    - intros processed k rest c1 c2 _ (Hv1 & Hc1 & Hf1) Hbody.
      destruct (operator_paren_body_spec f2 wrt c1 k c2 Hbody Hv1 Hc1) as (Hv2 & Hc2 & Hf2).
      split; [done|]. split; [done|]. intros type' i. rewrite Hf2, Hf1. split.
      + intros [(k' & I2 & Hin & Hrest)|(I2 & Hrest)].
        * exists k', I2. split; [|done]. apply elem_of_app. by left.
        * exists k, I2. split; [|done]. apply elem_of_app. right. left.
      + intros (k' & I2 & Hin & HI2 & Hrest). apply elem_of_app in Hin as [Hin|Hin].
        * left. by exists k', I2.
        * apply list_elem_of_singleton in Hin as ->. right. by exists I2. }
  split; [done|]. split; [done|]. intros type' i. rewrite Hf. unfold required. split.
  - intros (k & I2 & _ & HI2 & -> & Hin). exists I2. split; [|done].
    apply list_elem_of_lookup. by exists k.
  - intros (I2 & HI2 & <- & Hin). apply list_elem_of_lookup in HI2 as [k HI2].
    exists k, I2. split; [|done]. apply elem_of_seq. apply lookup_lt_Some in HI2. lia.
Qed.

(** The prolongation loop leaves in [input_L_[i]] the prolongation of the
    argument [i]. *)
Lemma prolongate_loop_spec input_T n f f1 :
  for_each (prolongate_body input_T) (seq 0 n) f = Some f1 →
  ∀ i, (i < n)%nat →
    ∃ P x, deref (P_trial_ f) i = Some P ∧ input_T !! i = Some x ∧
           input_L_ f1 !! i = Some (Mult P x).
Proof.
  intros Hloop.
  pose (Pr := λ (processed : list nat) (f' : Functional qf_input qf_output qpt_data_type),
          P_trial_ f' = P_trial_ f ∧
          ∀ i, i ∈ processed →
            ∃ P x, deref (P_trial_ f) i = Some P ∧ input_T !! i = Some x ∧
                   input_L_ f' !! i = Some (Mult P x)).
  assert (Pr (seq 0 n) f1) as [_ H].
  { eapply (for_each_prefix Pr (prolongate_body input_T)); [ | |exact Hloop].
    - split; [done|]. intros i Hin. by apply elem_of_nil in Hin.
    - intros processed i rest f' f'' _ [HP Hdone] Hbody.
      apply prolongate_body_Some in Hbody as (P & x & HPi & Hx & Hlt & ->).
      split; [done|]. intros i' Hin. simpl.
      destruct (decide (i' = i)) as [->|Hne].
      + exists P, x. rewrite <- HP. split; [done|]. split; [done|].
        by apply list_lookup_insert_eq.
      + rewrite list_lookup_insert_ne by done. apply Hdone.
        apply elem_of_app in Hin as [Hin|Hin]; [done|].
        by apply list_elem_of_singleton in Hin. }
  intros i Hi. apply H. apply elem_of_seq. lia.
Qed.

(** *** Gathering for every integral gives the same object *)

Lemma gather_always_body_Some type0 a i (flag : bool) G L E :
  at_type (already_computed a) type0 !! i = Some flag →
  G_trial_ (object a) !! i = Some G → input_L_ (object a) !! i = Some L →
  at_type (block_input_E_ (object a)) type0 !! i = Some E →
  gather_always_body type0 a i
  = Some {| object :=
              set_block_input_E_
                (set_at_type type0
                   (<[i := Gather G L]> (at_type (block_input_E_ (object a)) type0))
                   (block_input_E_ (object a)))
                (object a);
            already_computed := already_computed a;
            trace := trace a ++ [gather_event type0 i] |}.
Proof.
  intros Hflag HG HL HE. unfold gather_always_body. rewrite Hflag, HG, HL, HE. done.
Qed.

Lemma gather_always_body_same f2 type0 c i c' a :
  gather_body type0 c i = Some c' →
  gathers_valid f2 c →
  object a = object c →
  (∀ type', length (at_type (already_computed a) type') = num_trial_spaces f2) →
  ∃ a', gather_always_body type0 a i = Some a' ∧ object a' = object c' ∧
        already_computed a' = already_computed a.
Proof.
  intros Hbody (Hconf & Hinput & Hlen & Hvalid) Hobj Hlen_a.
  assert (G_trial_ (object c) = G_trial_ f2) as HGs
    by (unfold configuration in Hconf; by injection Hconf).
  assert (∃ flag, at_type (already_computed a) type0 !! i = Some flag) as [flag Hflag_a].
  { apply lookup_lt_is_Some. rewrite Hlen_a, <- (Hlen type0).
    apply gather_body_Some in Hbody as [[H _]|[H _]]; by apply lookup_lt_Some in H. }
  apply gather_body_Some in Hbody
    as [[Hflag ->]|(Hflag & G & L & E & HG & HL & HE & ->)].
  - destruct (Hvalid type0 i Hflag) as (G & L & HG & HL & HE).
    rewrite <- HGs in HG. rewrite <- Hinput in HL. rewrite <- Hobj in HG, HL, HE.
    eexists. split; [by apply (gather_always_body_Some _ _ _ flag G L (Gather G L))|].
    split; [|done]. simpl.
    rewrite (list_insert_id _ _ _ HE), set_at_type_id, set_block_input_E_id. done.
  - rewrite <- Hobj in HG, HL, HE.
    eexists. split; [by apply (gather_always_body_Some _ _ _ flag G L E)|].
    split; [|done]. simpl. by rewrite Hobj.
Qed.

Lemma gather_always_loop_same f2 type0 items c c' a :
  for_each (gather_body type0) items c = Some c' →
  gathers_valid f2 c → gathers_counted c →
  object a = object c →
  (∀ type', length (at_type (already_computed a) type') = num_trial_spaces f2) →
  ∃ a', for_each (gather_always_body type0) items a = Some a' ∧ object a' = object c' ∧
        already_computed a' = already_computed a.
Proof.
  revert c a. induction items as [|i items IH]; intros c a Hloop Hvalid Hcount Hobj Hlen_a.
  - injection Hloop as <-. by exists a.
  - simpl in Hloop. destruct (gather_body type0 c i) as [c1|] eqn:Hbody; [|done].
    simpl in Hloop.
    destruct (gather_always_body_same f2 type0 c i c1 a Hbody Hvalid Hobj Hlen_a)
      as (a1 & Ha1 & Hobj1 & Halready1).
    destruct (gather_body_spec f2 type0 c i c1 Hbody Hvalid Hcount) as (Hv1 & Hc1 & _).
    destruct (IH c1 a1 Hloop Hv1 Hc1 Hobj1) as (a' & Ha' & Hobj' & Halready').
    { intros type'. rewrite Halready1. apply Hlen_a. }
    exists a'. simpl. rewrite Ha1. simpl. split; [done|]. split; [done|]. congruence.
Qed.

Lemma evaluate_integral_same_object wrt k I c a :
  object a = object c →
  object (evaluate_integral wrt k I a) = object (evaluate_integral wrt k I c) ∧
  already_computed (evaluate_integral wrt k I a) = already_computed a.
Proof.
  intros Hobj.
  destruct (evaluate_integral_object wrt k I a) as (-> & -> & _).
  destruct (evaluate_integral_object wrt k I c) as (-> & _ & _).
  by rewrite Hobj.
Qed.

Lemma gather_per_integral_loop_same f2 wrt items c c' a :
  for_each (operator_paren_body wrt) items c = Some c' →
  gathers_valid f2 c → gathers_counted c →
  object a = object c →
  (∀ type', length (at_type (already_computed a) type') = num_trial_spaces f2) →
  ∃ a', for_each (gather_per_integral_body wrt) items a = Some a' ∧ object a' = object c'.
Proof.
  revert c a. induction items as [|k items IH]; intros c a Hloop Hvalid Hcount Hobj Hlen_a.
  - injection Hloop as <-. by exists a.
  - simpl in Hloop. destruct (operator_paren_body wrt c k) as [c2|] eqn:Hbody; [|done].
    simpl in Hloop.
    destruct (operator_paren_body_spec f2 wrt c k c2 Hbody Hvalid Hcount) as (Hv2 & Hc2 & _).
    apply operator_paren_body_Some in Hbody as (I & c1 & Hk & Hgather & ->).
    destruct (gather_always_loop_same f2 _ _ c c1 a Hgather Hvalid Hcount Hobj Hlen_a)
      as (a1 & Ha1 & Hobj1 & Halready1).
    destruct (evaluate_integral_same_object wrt k I c1 a1 Hobj1) as [Hobj2 Halready2].
    destruct (IH _ (evaluate_integral wrt k I a1) Hloop Hv2 Hc2 Hobj2) as (a' & Ha' & Hobj').
    { intros type'. rewrite Halready2, Halready1. apply Hlen_a. }
    assert (gather_per_integral_body wrt a k = Some (evaluate_integral wrt k I a1)) as Hstep.
    { unfold gather_per_integral_body. rewrite Hobj, Hk. simpl. by rewrite Ha1. }
    exists a'. split; [|done]. cbn [for_each]. by rewrite Hstep.
Qed.

Lemma operator_paren_finish_same wrt c a f' r events :
  operator_paren_finish wrt c = Some (f', r, events) →
  object a = object c →
  operator_paren_finish wrt a = Some (f', r, trace a).
Proof.
  unfold operator_paren_finish. intros H Hobj. rewrite Hobj.
  destruct (0 <=? wrt)%Z.
  - destruct (grad_ _ !! Z.to_nat wrt) as [g|]; [|done]. simpl in *. by injection H as <- <- _.
  - destruct (wrt =? -1)%Z; [|done]. by injection H as <- <- _.
Qed.

(** A call that gathers for every integral ends in the same object and
    returns the same. *)
Lemma operator_paren_gather_per_integral_same f wrt input_T f' r events :
  operator_paren f wrt input_T = Some (f', r, events) →
  ∃ events', operator_paren_gather_per_integral f wrt input_T = Some (f', r, events').
Proof.
  intros Hcall. apply operator_paren_Some in Hcall as (f1 & c & Hpro & Hloop & Hfin).
  unfold operator_paren_gather_per_integral. rewrite Hpro. simpl.
  apply prolongate_loop_configuration in Hpro as (Hconf1 & _).
  set (f2 := set_output_L_ (assign_zero (output_L_ f1)) f1) in *.
  assert (num_trial_spaces f = num_trial_spaces f2) as Hn.
  { unfold num_trial_spaces. by rewrite <- (configuration_trials _ _ Hconf1). }
  rewrite Hn in Hloop |- *.
  set (c0 := {| object := f2;
                already_computed := all_types (replicate (num_trial_spaces f2) false);
                trace := [] |}) in *.
  assert (gathers_valid f2 c0 ∧ gathers_counted c0) as [Hv0 Hc0].
  { assert (∀ type' i, ¬ flagged c0 type' i) as Hclear.
    { intros type' i. unfold flagged. simpl. intros Hset.
      destruct type'; simpl in Hset; apply lookup_replicate in Hset as [? _]; done. }
    split.
    - split; [done|]. split; [done|]. split.
      + intros type'. destruct type'; simpl; apply length_replicate.
      + intros type' i Hset. by apply Hclear in Hset.
    - intros type' i. rewrite decide_False by apply Hclear. done. }
  destruct (gather_per_integral_loop_same f2 wrt _ c0 c c0 Hloop Hv0 Hc0 eq_refl)
    as (a' & Ha' & Hobj').
  { intros type'. destruct type'; simpl; apply length_replicate. }
  change (integrals_ f1) with (integrals_ f2).
  rewrite Ha'. simpl. exists (trace a').
  by apply (operator_paren_finish_same wrt c a' f' r events).
Qed.

End Gathers.

(** ** A call on a well-formed object returns *)

Section Progress.
Context {qf_input qf_output qpt_data_type : Type}.
Implicit Types (f : Functional qf_input qf_output qpt_data_type)
  (I : Integral qf_input qf_output qpt_data_type)
  (c : Call qf_input qf_output qpt_data_type).

Lemma forallb_Forall {X} (p : X → bool) (l : list X) :
  forallb p l = true ↔ Forall (λ x, p x = true) l.
Proof.
  induction l as [|x l IH]; simpl.
  - split; [constructor|done].
  - rewrite andb_true_iff, IH, Forall_cons. done.
Qed.

Lemma well_formed_spec f :
  well_formed f = true ↔
  length (P_trial_ f) = num_trial_spaces f ∧
  Forall (λ p, is_Some p) (P_trial_ f) ∧
  length (G_trial_ f) = num_trial_spaces f ∧
  length (input_L_ f) = num_trial_spaces f ∧
  (∀ type', length (at_type (block_input_E_ f) type') = num_trial_spaces f) ∧
  Forall (λ I, Forall (λ i, (i < num_trial_spaces f)%nat) (active_trial_spaces I))
         (integrals_ f).
Proof.
  unfold well_formed. rewrite !andb_true_iff, !Nat.eqb_eq, !forallb_Forall.
  assert (Forall (λ p : option Operator, bool_decide (is_Some p) = true) (P_trial_ f)
          ↔ Forall (λ p, is_Some p) (P_trial_ f)) as ->.
  { apply Forall_proper; [|done]. intros p. by rewrite bool_decide_eq_true. }
  assert (Forall (λ I, forallb (λ i, (i <? num_trial_spaces f)%nat)
                         (active_trial_spaces I) = true) (integrals_ f)
          ↔ Forall (λ I, Forall (λ i, (i < num_trial_spaces f)%nat)
                           (active_trial_spaces I)) (integrals_ f)) as ->.
  { apply Forall_proper; [|done]. intros I. rewrite forallb_Forall.
    apply Forall_proper; [|done]. intros i. apply Nat.ltb_lt. }
  split.
  - intros ((((((? & ?) & ?) & ?) & ?) & ?) & ?). repeat split; try done.
    by intros [].
  - intros (? & ? & ? & ? & Hblock & ?). repeat split; try done.
    + apply (Hblock Domain).
    + apply (Hblock Boundary).
Qed.

Lemma prolongate_loop_progress input_T f :
  well_formed f = true → length input_T = num_trial_spaces f →
  ∃ f1, for_each (prolongate_body input_T) (seq 0 (num_trial_spaces f)) f = Some f1.
Proof.
  intros (HlenP & HP & _ & HlenL & _)%well_formed_spec Hargs.
  destruct (for_each_progress
              (λ f', P_trial_ f' = P_trial_ f ∧ length (input_L_ f') = num_trial_spaces f)
              (prolongate_body input_T) (seq 0 (num_trial_spaces f)) f)
    as (f1 & Hloop & _); [done| |by exists f1].
  intros i f' Hi [HPf' Hlen']. apply elem_of_seq in Hi.
  destruct (lookup_lt_is_Some_2 (P_trial_ f) i) as [p Hp]; [lia|].
  destruct (proj1 (Forall_lookup _ _) HP i p Hp) as [P ->].
  destruct (lookup_lt_is_Some_2 input_T i) as [x Hx]; [lia|].
  destruct (lookup_lt_is_Some_2 (input_L_ f') i) as [L HL]; [lia|].
  unfold prolongate_body, deref. rewrite HPf', Hp, Hx, HL. simpl.
  eexists. split; [done|]. simpl. by rewrite length_insert.
Qed.

Lemma gather_body_sized n type0 c i c' :
  gather_body type0 c i = Some c' → sized n c → sized n c'.
Proof.
  intros Hbody [HlenL Hlens].
  apply gather_body_Some in Hbody as [[_ ->]|(_ & G & L & E & _ & _ & _ & ->)]; [done|].
  split; [done|]. intros type'. simpl. rewrite !at_type_set_at_type.
  destruct (decide (type' = type0)) as [->|]; [|apply Hlens].
  rewrite !length_insert. apply Hlens.
Qed.

Lemma gather_body_progress n type0 c i :
  sized n c → length (G_trial_ (object c)) = n → (i < n)%nat →
  ∃ c', gather_body type0 c i = Some c'.
Proof.
  intros [HlenL Hlens] HlenG Hi. destruct (Hlens type0) as [HlenE Hlenflags].
  destruct (lookup_lt_is_Some_2 (at_type (already_computed c) type0) i) as [flag Hflag];
    [lia|].
  destruct (lookup_lt_is_Some_2 (G_trial_ (object c)) i) as [G HG]; [lia|].
  destruct (lookup_lt_is_Some_2 (input_L_ (object c)) i) as [L HL]; [lia|].
  destruct (lookup_lt_is_Some_2 (at_type (block_input_E_ (object c)) type0) i) as [E HE];
    [lia|].
  unfold gather_body. rewrite Hflag. simpl. destruct flag; simpl; [by eexists|].
  rewrite HG, HL, HE. simpl. by eexists.
Qed.

Lemma gather_loop_progress n type0 items c :
  sized n c → length (G_trial_ (object c)) = n → Forall (λ i, (i < n)%nat) items →
  ∃ c', for_each (gather_body type0) items c = Some c' ∧ sized n c'.
Proof.
  intros Hsized HlenG Hitems.
  destruct (for_each_progress (λ c1, sized n c1 ∧ length (G_trial_ (object c1)) = n)
              (gather_body type0) items c) as (c' & Hloop & Hsized' & _);
    [done| |by exists c'].
  intros i c1 Hi [Hs1 HG1].
  destruct (gather_body_progress n type0 c1 i Hs1 HG1) as [c2 Hbody].
  { by apply (proj1 (Forall_forall _ _) Hitems). }
  exists c2. split; [done|]. split; [by apply (gather_body_sized n type0 c1 i)|].
  apply gather_body_configuration in Hbody as (Hconf & _).
  by rewrite (configuration_G_trial_ _ _ Hconf).
Qed.

Lemma evaluate_integral_sized n wrt k I c :
  sized n c → sized n (evaluate_integral wrt k I c).
Proof.
  intros [HlenL Hlens]. unfold sized.
  destruct (evaluate_integral_object wrt k I c) as (-> & -> & _).
  by split.
Qed.

Lemma operator_paren_loop_progress f2 wrt c0 :
  well_formed f2 = true →
  sized (num_trial_spaces f2) c0 → configuration (object c0) = configuration f2 →
  ∃ c, for_each (operator_paren_body wrt) (seq 0 (length (integrals_ f2))) c0 = Some c ∧
       sized (num_trial_spaces f2) c ∧ configuration (object c) = configuration f2.
Proof.
  intros (_ & _ & HlenG & _ & _ & Hactive)%well_formed_spec Hsized Hconf.
  destruct (for_each_progress
              (λ c, sized (num_trial_spaces f2) c ∧
                    configuration (object c) = configuration f2)
              (operator_paren_body wrt) (seq 0 (length (integrals_ f2))) c0)
    as (c & Hloop & Hsized' & Hconf'); [done| |by exists c].
  intros k c1 Hk [Hs1 Hconf1]. apply elem_of_seq in Hk.
  pose proof (configuration_static _ _ Hconf1) as Hstatic.
  destruct (lookup_lt_is_Some_2 (integrals_ (object c1)) k) as [I HI].
  { apply (f_equal length) in Hstatic. rewrite !length_fmap in Hstatic. lia. }
  destruct (static_part_lookup _ _ k I Hstatic HI) as (I2 & HI2 & HI_static).
  assert (active_trial_spaces I = active_trial_spaces I2) as Hsame
    by (unfold static_part in HI_static; by injection HI_static).
  destruct (gather_loop_progress (num_trial_spaces f2) (type I) (active_trial_spaces I) c1)
    as (c2 & Hgather & Hs2); [done| | |].
  { by rewrite (configuration_G_trial_ _ _ Hconf1). }
  { rewrite Hsame. by apply (proj1 (Forall_lookup _ _) Hactive k). }
  exists (evaluate_integral wrt k I c2).
  split; [|split].
  - unfold operator_paren_body. rewrite HI. simpl. by rewrite Hgather.
  - by apply evaluate_integral_sized.
  - apply gather_loop_configuration in Hgather as (Hconf2 & _ & Hint2 & _).
    rewrite <- Hint2 in HI.
    destruct (evaluate_integral_configuration wrt k I c2 HI) as (-> & _). congruence.
Qed.

Lemma well_formed_preserved f f' :
  configuration f' = configuration f →
  length (input_L_ f') = length (input_L_ f) →
  (∀ type', length (at_type (block_input_E_ f') type')
            = length (at_type (block_input_E_ f) type')) →
  well_formed f = true → well_formed f' = true.
Proof.
  intros Hconf HlenL Hblock. rewrite !well_formed_spec. unfold num_trial_spaces.
  rewrite (configuration_trials _ _ Hconf), (configuration_P_trial_ _ _ Hconf),
    (configuration_G_trial_ _ _ Hconf), HlenL.
  intros (? & ? & ? & ? & Hb & Hactive). repeat split; try done.
  - intros type'. rewrite Hblock. apply Hb.
  - apply configuration_static in Hconf. apply Forall_lookup. intros k I' Hk.
    destruct (static_part_lookup _ _ k I' Hconf Hk) as (I & HI & Hstatic).
    assert (active_trial_spaces I' = active_trial_spaces I) as ->
      by (unfold static_part in Hstatic; by injection Hstatic).
    by apply (proj1 (Forall_lookup _ _) Hactive k).
Qed.

(** On a well-formed object, with one argument for each trial space and an
    index of differentiation that is [-1] or the index of a gradient
    operator, [operator()] returns, and leaves a well-formed object. *)
Lemma operator_paren_returns f wrt input_T :
  well_formed f = true → length input_T = num_trial_spaces f →
  (wrt = -1 ∨ 0 <= wrt < Z.of_nat (length (grad_ f)))%Z →
  ∃ f' r events, operator_paren f wrt input_T = Some (f', r, events) ∧
                 well_formed f' = true.
Proof.
  intros Hwf Hargs Hwrt.
  destruct (prolongate_loop_progress input_T f Hwf Hargs) as [f1 Hpro].
  pose proof (prolongate_loop_configuration _ _ _ _ Hpro)
    as (Hconf1 & Hint1 & _ & Hblock1 & HlenL1).
  set (f2 := set_output_L_ (assign_zero (output_L_ f1)) f1).
  assert (configuration f2 = configuration f) as Hconf2 by done.
  assert (num_trial_spaces f2 = num_trial_spaces f) as Hn
    by (unfold num_trial_spaces; by rewrite (configuration_trials _ _ Hconf2)).
  assert (well_formed f2 = true) as Hwf2.
  { apply (well_formed_preserved f f2); [done|done| |done]. intros type'. simpl.
    by rewrite Hblock1. }
  pose proof (proj1 (well_formed_spec f2) Hwf2) as (_ & _ & _ & HlenL2 & Hblock2 & _).
  destruct (operator_paren_loop_progress f2 wrt
              {| object := f2;
                 already_computed := all_types (replicate (num_trial_spaces f) false);
                 trace := [] |} Hwf2) as (c & Hloop & [HlenLc Hlensc] & Hconfc); [|done|].
  { split; [done|]. intros type'. split; [apply Hblock2|].
    rewrite Hn. destruct type'; simpl; apply length_replicate. }
  assert (∃ r, operator_paren_finish wrt c
               = Some (set_output_T_ (MultTranspose (P_test_ (object c))
                                        (output_L_ (object c))) (object c),
                       r, trace c)) as [r Hfin].
  { unfold operator_paren_finish. destruct Hwrt as [->|[Hlo Hhi]]; [by eexists|].
    rewrite (proj2 (Z.leb_le 0 wrt) Hlo). simpl.
    destruct (lookup_lt_is_Some_2 (grad_ (object c)) (Z.to_nat wrt)) as [g Hg].
    { rewrite (configuration_grad_ _ _ Hconfc), (configuration_grad_ _ _ Hconf2). lia. }
    rewrite Hg. by eexists. }
  eexists _, r, _. split.
  - unfold operator_paren. rewrite Hpro. simpl. fold f2.
    change (integrals_ f1) with (integrals_ f2). rewrite Hloop. simpl. exact Hfin.
  - apply (well_formed_preserved f2); [by rewrite <- Hconfc| | |done].
    + simpl. rewrite HlenLc. symmetry. exact HlenL2.
    + intros type'. simpl. destruct (Hlensc type') as [-> _]. symmetry. apply Hblock2.
Qed.

End Progress.

(** What a call that returned did about the gathers. *)
Lemma operator_paren_gathers {qf_input qf_output qpt_data_type : Type}
    (f : Functional qf_input qf_output qpt_data_type) wrt input_T f' r events :
  operator_paren f wrt input_T = Some (f', r, events) →
  (∀ type' i, required f type' i →
     count_gathers type' i events = 1%nat ∧
     is_Some (gathered f input_T i) ∧
     at_type (block_input_E_ f') type' !! i = gathered f input_T i) ∧
  (∀ type' i, ¬ required f type' i → count_gathers type' i events = 0%nat).
Proof.
  intros Hcall. apply operator_paren_Some in Hcall as (f1 & c & Hpro & Hloop & Hfin).
  pose proof (prolongate_loop_configuration _ _ _ _ Hpro) as (Hconf1 & Hint1 & _).
  pose proof (prolongate_loop_spec _ _ _ _ Hpro) as Hprolongated.
  set (f2 := set_output_L_ (assign_zero (output_L_ f1)) f1) in *.
  assert (num_trial_spaces f = num_trial_spaces f2) as Hn
    by (unfold num_trial_spaces; by rewrite <- (configuration_trials _ _ Hconf1)).
  rewrite Hn in Hloop.
  apply operator_paren_loop_spec in Hloop as ((_ & _ & Hlen & Hvalid) & Hcount & Hflags).
  apply operator_paren_finish_Some in Hfin as (-> & -> & _).
  assert (∀ type' i, required f2 type' i ↔ required f type' i) as Hreq.
  { intros type' i. unfold required. by rewrite <- Hint1. }
  split.
  - intros type' i Hrequired. apply Hreq, Hflags in Hrequired.
    split; [by rewrite Hcount, decide_True|].
    destruct (Hvalid type' i Hrequired) as (G & L & HG & HL & HE).
    assert (i < num_trial_spaces f)%nat as Hi.
    { rewrite Hn, <- (Hlen type'). by apply lookup_lt_Some in Hrequired. }
    destruct (Hprolongated i Hi) as (P & x & HP & Hx & HLi).
    assert (gathered f input_T i = Some (Gather G L)) as ->; [|by split].
    unfold gathered. rewrite <- (configuration_G_trial_ _ _ Hconf1).
    change (G_trial_ f1) with (G_trial_ f2). rewrite HG. simpl. rewrite HP. simpl.
    rewrite Hx. simpl. change (input_L_ f2) with (input_L_ f1) in HL. congruence.
  - intros type' i Hnot. rewrite Hcount, decide_False; [done|]. by rewrite Hflags, Hreq.
Qed.

(** ** Assembly of the gradient *)

Lemma entry_zeros (n k : nat) : entry (zeros n) k = 0.
Proof.
  unfold entry, zeros. destruct (replicate n 0 !! k) as [x|] eqn:E; [|done].
  by apply lookup_replicate in E as [-> _].
Qed.

Lemma SparseMatrix_Mult_zero (M : SparseMatrix) (x : Vec) (n : nat) :
  csr_A M = zeros n → SparseMatrix_Mult M x = zeros (csr_height M).
Proof.
  intros HA. unfold SparseMatrix_Mult.
  assert (∀ r, csr_row M x r = 0) as Hrow.
  { intros r. unfold csr_row. rewrite HA.
    generalize (seq (default 0%nat (csr_I M !! r))
                  (default 0%nat (csr_I M !! S r) - default 0%nat (csr_I M !! r))).
    intros ks. induction ks as [|k ks IH]; [done|].
    rewrite fmap_cons. cbn [foldr]. rewrite IH, entry_zeros. ring. }
  unfold zeros. generalize 0%nat. induction (csr_height M) as [|h IH]; intros start; [done|].
  simpl. by rewrite Hrow, IH.
Qed.

(** Whatever the integrals of the [Functional] are, the assembled matrix
    is built on values that are all zero: applied to a vector it gives the
    transposed prolongation of the zero local vector. *)
Lemma assemble_ignores_the_integrals {qf_input qf_output qpt_data_type : Type}
    (form_ : Functional qf_input qf_output qpt_data_type) (g g' : Gradient)
    (K : HypreParMatrix) (v : Vec) :
  assemble form_ g = Some (g', K) →
  HypreParMatrix_Mult K v
  = MultTranspose (Dof_TrueDof_Matrix (test_space_ form_))
      (zeros (length (output_L_ form_))).
Proof.
  unfold assemble. destruct (input_L_ form_ !! which_argument g) as [L|]; [|done].
  simpl. intros [= <- <-]. simpl. f_equal.
  by rewrite (SparseMatrix_Mult_zero _ _ (nnz (lookup_tables g))).
Qed.

(** [gradient_0] is the gradient operator that the constructor of
    [Gradient] builds for the first trial space, of the object as the
    constructor of [Functional] leaves it and of the prepared one. *)
Example gradient_0_is_constructed :
  Gradient_ctor (λ _ _, two_segments_tables)
    (set_integrals_ [mass_integral] constructed_functional) 0 = Some gradient_0 ∧
  Gradient_ctor (λ _ _, two_segments_tables) (prepared_functional false) 0 = Some gradient_0.
Proof. split; reflexivity. Qed.

(** * More of [functional.hpp] *)

(** ** Unsupported elements *)

(** X1.  [contains_unsupported_elements] answers [true] exactly when some
    element of the mesh is a point, a wedge or a pyramid, and [false]
    exactly when every element is a segment, a triangle, a quadrilateral, a
    tetrahedron or a hexahedron; a mesh without elements has none. *)
Theorem contains_unsupported_elements_iff (mesh : Mesh) :
  (contains_unsupported_elements mesh = true ↔
   ∃ (e : nat) (type : ElementType),
     (e < GetNE mesh)%nat ∧ elements mesh !! e = Some type ∧
     (type = POINT ∨ type = WEDGE ∨ type = PYRAMID)) ∧
  (contains_unsupported_elements mesh = false ↔
   Forall (λ type, type ∈ supported_types) (elements mesh)) ∧
  (GetNE mesh = 0%nat → contains_unsupported_elements mesh = false).
Proof.
  unfold contains_unsupported_elements, GetNE. split; [|split].
  - rewrite contains_unsupported_from_spec. split.
    + intros (e & type & He & Htype). exists e, type. split; [|done].
      by apply lookup_lt_Some in He.
    + intros (e & type & _ & He & Htype). by exists e, type.
  - induction (elements mesh) as [|type rest IH]; simpl.
    + split; [constructor|done].
    + rewrite Forall_cons. unfold supported_types.
      destruct type; simpl; rewrite ?IH;
        try (split; [intros ?; split; [repeat constructor|done]|by intros [_ ?]]);
        (split; [done|intros [Hin _]];
         repeat (apply elem_of_cons in Hin as [Hin|Hin]; [discriminate|]);
         by apply elem_of_nil in Hin).
  - destruct (elements mesh); [done|discriminate].
Qed.

(** ** The outcomes of [AddDomainIntegral] *)

(** X2.  On a mesh with elements, [AddDomainIntegral] has three outcomes.
    The dimension is checked first: when it differs, the error is the one
    of the dimension, whatever the elements are.  When it agrees and an
    element is unsupported, the error is the one of the element type.
    Otherwise one integral is appended after the registered ones: a domain
    integral with the given dependencies, dimension and state, and the
    quadrature order of the object; nothing else of the object changes. *)
Theorem AddDomainIntegral_outcomes
    {qf_input qf_output qpt_data_type : Type}
    (f : Functional qf_input qf_output qpt_data_type) (dim : Z) (args : list nat)
    (kernels : Evaluator qf_input qf_output)
    (integrand : qf_input → qpt_data_type → qf_output * qpt_data_type)
    (domain' : Mesh) (qdata' : list qpt_data_type) :
  (0 < GetNE domain')%nat →
  match AddDomainIntegral dim args kernels integrand domain' qdata' f with
  | ConfigurationError msg at_abort =>
      at_abort = f ∧
      ((dim ≠ Dimension domain' ∧
        msg = "invalid mesh dimension for domain integral"%string) ∨
       (dim = Dimension domain' ∧ contains_unsupported_elements domain' = true ∧
        msg = "Mesh contains unsupported element type"%string))
  | Ok f' =>
      dim = Dimension domain' ∧ contains_unsupported_elements domain' = false ∧
      f' = set_integrals_ (integrals_ f') f ∧
      ∃ I, integrals_ f' = integrals_ f ++ [I] ∧
           type I = Domain ∧ active_trial_spaces I = args ∧
           quadrature_order I = Q f ∧ geometry_dim I = dim ∧
           domain I = domain' ∧ qdata I = qdata' ∧ qf I = integrand
  end.
Proof.
  intros Hne. unfold AddDomainIntegral, SLIC_ERROR_ROOT_IF.
  destruct (GetNE domain' =? 0)%nat eqn:E; [apply Nat.eqb_eq in E; lia|].
  destruct (dim =? Dimension domain')%Z eqn:Hdim; simpl.
  - apply Z.eqb_eq in Hdim.
    destruct (contains_unsupported_elements domain') eqn:Hbad.
    + split; [done|]. by right.
    + split; [done|]. split; [done|]. split; [by destruct f|].
      eexists. by split.
  - apply Z.eqb_neq in Hdim. split; [done|]. by left.
Qed.

Lemma AddDomainIntegral_outcomes_witness :
  match AddDomainIntegral 2 [0%nat] nodal_evaluator mass_integrand
          {| Dimension := 3; elements := [HEXAHEDRON; WEDGE] |} [(); ()]
          constructed_functional with
  | ConfigurationError msg at_abort =>
      at_abort = constructed_functional ∧
      (((2 ≠ 3)%Z ∧ msg = "invalid mesh dimension for domain integral"%string) ∨
       ((2 = 3)%Z ∧
        contains_unsupported_elements {| Dimension := 3; elements := [HEXAHEDRON; WEDGE] |}
        = true ∧
        msg = "Mesh contains unsupported element type"%string))
  | Ok f' =>
      (2 = 3)%Z ∧
      contains_unsupported_elements {| Dimension := 3; elements := [HEXAHEDRON; WEDGE] |}
      = false ∧
      f' = set_integrals_ (integrals_ f') constructed_functional ∧
      ∃ I, integrals_ f' = integrals_ constructed_functional ++ [I] ∧
           type I = Domain ∧ active_trial_spaces I = [0%nat] ∧
           quadrature_order I = Q constructed_functional ∧ geometry_dim I = 2%Z ∧
           domain I = {| Dimension := 3; elements := [HEXAHEDRON; WEDGE] |} ∧
           qdata I = [(); ()] ∧ qf I = mass_integrand
  end.
Proof.
  apply (AddDomainIntegral_outcomes constructed_functional 2 [0%nat] nodal_evaluator
           mass_integrand {| Dimension := 3; elements := [HEXAHEDRON; WEDGE] |} [(); ()]).
  unfold GetNE. simpl. lia.
Defined.

(** ** The index of differentiation is an index of a trial space *)

(** X3.  The index of differentiation of a list of types is [-1] or an
    index of the list.  So, when the variadic [operator()] compiles, the
    index it passes on is [-1] or the index of a trial space, and at most
    one argument is wrapped. *)
Theorem index_of_differentiation_in_range
    {qf_input qf_output qpt_data_type : Type} (T : list ArgType)
    (f : Functional qf_input qf_output qpt_data_type) (args : list Arg) :
  (-1 <= index_of_differentiation T < Z.of_nat (length T))%Z ∧
  (∀ r, operator_paren_variadic f args = compiled r →
     (-1 <= index_of_differentiation (type_of <$> args)
      < Z.of_nat (num_trial_spaces f))%Z ∧
     (length (filter (λ a, type_of a = differentiate_wrt_this) args) <= 1)%nat).
Proof.
  assert (∀ T', (-1 <= index_of_differentiation T' < Z.of_nat (length T'))%Z) as Hrange.
  { intros T'. unfold index_of_differentiation.
    pose proof (first_match_spec ((λ t, is_same_v t differentiate_wrt_this) <$> T') 0)
      as [Hnone Hsome].
    destruct (decide (true ∈ (λ t, is_same_v t differentiate_wrt_this) <$> T'))
      as [Hin|Hnot].
    - destruct (Hsome Hin) as (k & -> & Hk & _). apply lookup_lt_Some in Hk.
      rewrite length_fmap in Hk. lia.
    - rewrite (Hnone Hnot). lia. }
  split; [apply Hrange|]. intros r Hcompiled. unfold operator_paren_variadic in Hcompiled.
  destruct (num_differentiated_arguments (type_of <$> args)) as [n|] eqn:En; [|done].
  destruct (n <=? 1)%Z eqn:Hle; [|done]. simpl in Hcompiled.
  destruct (length args =? num_trial_spaces f)%nat eqn:Hlen; [|done].
  apply Nat.eqb_eq in Hlen. apply Z.leb_le in Hle. split.
  - specialize (Hrange (type_of <$> args)). rewrite length_fmap, Hlen in Hrange. done.
  - apply num_differentiated_arguments_count in En.
    assert (length (filter (λ t, t = differentiate_wrt_this) (type_of <$> args))
            = length (filter (λ a, type_of a = differentiate_wrt_this) args)) as Hsame.
    { clear. induction args as [|a args IH]; [done|].
      rewrite fmap_cons, !filter_cons.
      destruct (decide (type_of a = differentiate_wrt_this)); simpl; by rewrite IH. }
    lia.
Qed.

(** ** What [operator()] returns and what it leaves alone *)

Section MoreOfOperatorParen.
Context {qf_input qf_output qpt_data_type : Type}.
Implicit Types (f : Functional qf_input qf_output qpt_data_type)
  (c : Call qf_input qf_output qpt_data_type).

Lemma filter_length_pos (T : list ArgType) (j : nat) :
  T !! j = Some differentiate_wrt_this →
  (1 <= length (filter (λ t, t = differentiate_wrt_this) T))%nat.
Proof.
  revert j. induction T as [|t T IH]; intros j Hj; [done|].
  rewrite filter_cons. destruct j as [|j]; simpl in Hj.
  - injection Hj as ->. rewrite decide_True by done. simpl. lia.
  - specialize (IH j Hj). destruct (decide _); simpl; lia.
Qed.

Lemma filter_length_two (T : list ArgType) (i j : nat) :
  (i < j)%nat → T !! i = Some differentiate_wrt_this → T !! j = Some differentiate_wrt_this →
  (2 <= length (filter (λ t, t = differentiate_wrt_this) T))%nat.
Proof.
  revert i j. induction T as [|t T IH]; intros i j Hij Hi Hj; [done|].
  rewrite filter_cons. destruct j as [|j]; [lia|]. simpl in Hj.
  destruct i as [|i]; simpl in Hi.
  - injection Hi as ->. rewrite decide_True by done. simpl.
    pose proof (filter_length_pos T j Hj). lia.
  - assert (i < j)%nat as Hij' by lia. specialize (IH i j Hij' Hi Hj).
    destruct (decide _); simpl; lia.
Qed.

(** With at most one wrapped argument, the index of differentiation is the
    position of that argument. *)
Lemma index_of_the_wrapped_argument (T : list ArgType) (i : nat) :
  (length (filter (λ t, t = differentiate_wrt_this) T) <= 1)%nat →
  T !! i = Some differentiate_wrt_this →
  index_of_differentiation T = Z.of_nat i.
Proof.
  intros Hcount Hi. unfold index_of_differentiation.
  pose proof (first_match_spec ((λ t, is_same_v t differentiate_wrt_this) <$> T) 0)
    as [_ Hsome].
  destruct Hsome as (k & -> & Hk & _).
  { rewrite matching_elem. apply list_elem_of_lookup. by exists i. }
  apply matching_lookup in Hk as (t & Ht & Hsame). apply is_same_v_spec in Hsame. subst t.
  destruct (Nat.lt_trichotomy k i) as [Hlt|[->|Hgt]]; [|lia|].
  - pose proof (filter_length_two T k i Hlt Ht Hi). lia.
  - pose proof (filter_length_two T i k Hgt Hi Ht). lia.
Qed.

Lemma index_without_wrapped_argument (T : list ArgType) :
  Forall (λ t, t = mfem_Vector) T → index_of_differentiation T = (-1)%Z.
Proof.
  intros Hall. unfold index_of_differentiation.
  apply (first_match_spec ((λ t, is_same_v t differentiate_wrt_this) <$> T) 0).
  rewrite matching_elem. intros Hin.
  by pose proof (proj1 (Forall_forall _ _) Hall _ Hin).
Qed.

Lemma filter_type_of (args : list Arg) :
  length (filter (λ t, t = differentiate_wrt_this) (type_of <$> args))
  = length (filter (λ a, type_of a = differentiate_wrt_this) args).
Proof.
  induction args as [|a args IH]; [done|].
  rewrite fmap_cons, !filter_cons.
  destruct (decide (type_of a = differentiate_wrt_this)); simpl; by rewrite IH.
Qed.

Lemma operator_paren_variadic_compiled f args :
  args ≠ [] →
  (length (filter (λ a, type_of a = differentiate_wrt_this) args) <= 1)%nat →
  length args = num_trial_spaces f →
  operator_paren_variadic f args
  = compiled (operator_paren f (index_of_differentiation (type_of <$> args))
                (as_Vector <$> args)).
Proof.
  intros Hargs Hcount Hlen. unfold operator_paren_variadic.
  destruct (num_differentiated_arguments (type_of <$> args)) as [n|] eqn:En.
  - pose proof (num_differentiated_arguments_count _ _ En) as Hn.
    rewrite filter_type_of in Hn.
    rewrite (proj2 (Z.leb_le n 1)) by lia. simpl.
    by rewrite (proj2 (Nat.eqb_eq _ _) Hlen).
  - destruct args; [done|discriminate].
Qed.

End MoreOfOperatorParen.

(** X4.  On a well-formed object with a gradient operator for each trial
    space, a call [f(args...)] with one argument for each trial space, at
    most one of them wrapped by [differentiate_wrt], compiles and returns.
    Without a wrapped argument it returns the residual alone; with the
    argument at position [i] wrapped it returns the residual and the
    gradient operator [grad_[i]].  The residual is the member [output_T_]. *)
Theorem operator_paren_variadic_returns
    {qf_input qf_output qpt_data_type : Type}
    (f : Functional qf_input qf_output qpt_data_type) (args : list Arg) :
  well_formed f = true →
  length (grad_ f) = num_trial_spaces f →
  args ≠ [] →
  length args = num_trial_spaces f →
  (length (filter (λ a, type_of a = differentiate_wrt_this) args) <= 1)%nat →
  ∃ f' ret events,
    operator_paren_variadic f args = compiled (Some (f', ret, events)) ∧
    residual_of ret = output_T_ f' ∧
    (Forall (λ a, type_of a = mfem_Vector) args → ret = value (output_T_ f')) ∧
    (∀ i v, args !! i = Some (differentiate_wrt v) →
       ∃ g, grad_ f !! i = Some g ∧ ret = value_and_gradient (output_T_ f') g).
Proof.
  intros Hwf Hgrad Hne Hlen Hcount.
  rewrite (operator_paren_variadic_compiled f args Hne Hcount Hlen).
  set (wrt := index_of_differentiation (type_of <$> args)).
  assert (-1 <= wrt < Z.of_nat (num_trial_spaces f))%Z as Hrange.
  { unfold wrt, index_of_differentiation.
    pose proof (first_match_spec
                  ((λ t, is_same_v t differentiate_wrt_this) <$> (type_of <$> args)) 0)
      as [Hnone Hsome].
    destruct (decide (true ∈ (λ t, is_same_v t differentiate_wrt_this)
                               <$> (type_of <$> args))) as [Hin|Hnot].
    - destruct (Hsome Hin) as (k & -> & Hk & _). apply lookup_lt_Some in Hk.
      rewrite !length_fmap in Hk. lia.
    - rewrite (Hnone Hnot). lia. }
  destruct (operator_paren_returns f wrt (as_Vector <$> args) Hwf)
    as (f' & ret & events & Hcall & _).
  { by rewrite length_fmap. }
  { rewrite Hgrad. lia. }
  exists f', ret, events. split; [by rewrite Hcall|].
  pose proof (operator_paren_configuration _ _ _ _ _ _ Hcall) as Hconf.
  apply operator_paren_Some in Hcall as (f1 & c & Hpro & Hloop & Hfin).
  apply operator_paren_finish_Some in Hfin as (-> & _ & Hret).
  assert (grad_ (object c) = grad_ f) as Hg by apply (configuration_grad_ _ _ Hconf).
  split; [|split].
  - by destruct Hret as [[_ ->]|(_ & g & _ & ->)].
  - intros Hplain.
    assert (wrt = -1)%Z as Hwrt.
    { apply index_without_wrapped_argument. by apply Forall_fmap. }
    destruct Hret as [[_ ->]|(Hpos & _)]; [done|lia].
  - intros i v Hi.
    assert (wrt = Z.of_nat i) as Hwrt.
    { apply index_of_the_wrapped_argument; [by rewrite filter_type_of|].
      by rewrite list_lookup_fmap, Hi. }
    destruct Hret as [[Hminus _]|(_ & g & Hlookup & ->)]; [lia|].
    exists g. split; [|done]. by rewrite <- Hg, <- (Nat2Z.id i), <- Hwrt.
Qed.

Lemma operator_paren_variadic_returns_witness :
  ∃ f' ret events,
    operator_paren_variadic (prepared_functional false) [differentiate_wrt [1; 2; 3]]
    = compiled (Some (f', ret, events)) ∧
    residual_of ret = output_T_ f' ∧
    (Forall (λ a, type_of a = mfem_Vector) [differentiate_wrt [1; 2; 3]] →
     ret = value (output_T_ f')) ∧
    (∀ i v, [differentiate_wrt [1; 2; 3]] !! i = Some (differentiate_wrt v) →
       ∃ g, grad_ (prepared_functional false) !! i = Some g ∧
            ret = value_and_gradient (output_T_ f') g).
Proof.
  apply (operator_paren_variadic_returns (prepared_functional false)
           [differentiate_wrt [1; 2; 3]]).
  - reflexivity.
  - reflexivity.
  - discriminate.
  - reflexivity.
  - simpl. lia.
Defined.

Section MoreOfTheFrame.
Context {qf_input qf_output qpt_data_type : Type}.
Implicit Types (f : Functional qf_input qf_output qpt_data_type)
  (c : Call qf_input qf_output qpt_data_type).

(** The loop over the integrals leaves the local input vectors alone. *)
Lemma operator_paren_loop_input_L_ wrt items c c' :
  for_each (operator_paren_body wrt) items c = Some c' →
  input_L_ (object c') = input_L_ (object c).
Proof.
  intros Hloop. loop_invariant Hloop; [done|].
  intros k c1 c2 _ H1 Hbody.
  apply operator_paren_body_configuration in Hbody as (_ & -> & _). done.
Qed.

(** What a returning call went through: the prolongations, then the
    integrals, then the transpose prolongation. *)
Lemma operator_paren_stages f wrt input_T f' r events :
  operator_paren f wrt input_T = Some (f', r, events) →
  output_T_ f' = MultTranspose (P_test_ f) (output_L_ f') ∧
  residual_of r = output_T_ f' ∧
  (wrt = -1 ∨ (0 <= wrt)%Z ∧ is_Some (grad_ f !! Z.to_nat wrt))%Z ∧
  ∀ i, (i < num_trial_spaces f)%nat →
    ∃ P x, deref (P_trial_ f) i = Some P ∧ input_T !! i = Some x ∧
           input_L_ f' !! i = Some (Mult P x).
Proof.
  intros Hcall.
  pose proof (operator_paren_configuration _ _ _ _ _ _ Hcall) as Hconf.
  apply operator_paren_Some in Hcall as (f1 & c & Hpro & Hloop & Hfin).
  apply operator_paren_finish_Some in Hfin as (Hf' & _ & Hret).
  assert (P_test_ (object c) = P_test_ f) as HP.
  { subst f'. unfold configuration in Hconf. simpl in Hconf. by injection Hconf. }
  assert (grad_ (object c) = grad_ f) as Hg.
  { subst f'. apply configuration_grad_ in Hconf. done. }
  split; [by rewrite Hf', <- HP|].
  split; [by destruct Hret as [[_ ->]|(_ & g & _ & ->)]|].
  split.
  { destruct Hret as [[-> _]|(Hpos & g & Hlookup & _)]; [by left|].
    right. split; [done|]. rewrite <- Hg. by exists g. }
  intros i Hi.
  destruct (prolongate_loop_spec _ _ _ _ Hpro i Hi) as (P & x & HPi & Hx & HL).
  exists P, x. split; [done|]. split; [done|].
  apply operator_paren_loop_input_L_ in Hloop. simpl in Hloop.
  subst f'. simpl. by rewrite Hloop.
Qed.

(** A constructed object never has a prolongation pointer assigned. *)
Lemma built_P_trial_ f : built f → Forall (λ p, p = None) (P_trial_ f).
Proof.
  induction 1 as [ | f dim args kernels integrand domain' qdata' f' _ IH Hadd
                 | f flag _ IH
                 | f wrt input_T f' r events _ IH Hcall
                 | f input_T which f' output_T _ IH Hcall ].
  - simpl. by apply Forall_replicate.
  - unfold AddDomainIntegral, SLIC_ERROR_ROOT_IF in Hadd.
    destruct (GetNE domain' =? 0)%nat; [by injection Hadd as <-|].
    destruct (negb _); [done|]. destruct (contains_unsupported_elements _); [done|].
    by injection Hadd as <-.
  - done.
  - apply operator_paren_configuration in Hcall.
    by rewrite (configuration_P_trial_ _ _ Hcall).
  - apply ActionOfGradient_configuration in Hcall as [Hconf _].
    by rewrite (configuration_P_trial_ _ _ Hconf).
Qed.

Lemma deref_unassigned {A} (p : list (option A)) (i : nat) :
  Forall (λ q, q = None) p → deref p i = None.
Proof.
  intros Hall. unfold deref. destruct (p !! i) as [q|] eqn:Hq; [|done].
  by rewrite (proj1 (Forall_lookup _ _) Hall i q Hq).
Qed.

(** A constructed object has a local input vector for each trial space. *)
Lemma built_input_L_ f : built f → length (input_L_ f) = num_trial_spaces f.
Proof.
  induction 1 as [ | f dim args kernels integrand domain' qdata' f' _ IH Hadd
                 | f flag _ IH
                 | f wrt input_T f' r events _ IH Hcall
                 | f input_T which f' output_T Hbuilt IH Hcall ].
  - simpl. apply length_replicate.
  - unfold AddDomainIntegral, SLIC_ERROR_ROOT_IF in Hadd.
    destruct (GetNE domain' =? 0)%nat; [by injection Hadd as <-|].
    destruct (negb _); [done|]. destruct (contains_unsupported_elements _); [done|].
    by injection Hadd as <-.
  - done.
  - pose proof (operator_paren_configuration _ _ _ _ _ _ Hcall) as Hconf.
    unfold num_trial_spaces. rewrite (configuration_trials _ _ Hconf).
    apply operator_paren_Some in Hcall as (f1 & c & Hpro & Hloop & Hfin).
    apply operator_paren_finish_Some in Hfin as (-> & _ & _). simpl.
    apply operator_paren_loop_input_L_ in Hloop. simpl in Hloop. rewrite Hloop.
    apply prolongate_loop_configuration in Hpro as (_ & _ & _ & _ & ->). exact IH.
  - apply built_P_trial_ in Hbuilt. unfold ActionOfGradient in Hcall.
    by rewrite (deref_unassigned _ which Hbuilt) in Hcall.
Qed.

(** On a constructed object no gather is valued: the prolongation that it
    gathers is not. *)
Lemma built_gathered f input_T i : built f → gathered f input_T i = None.
Proof.
  intros Hbuilt. apply built_P_trial_ in Hbuilt. unfold gathered.
  destruct (G_trial_ f !! i) as [G|]; [|done]. simpl.
  by rewrite (deref_unassigned _ i Hbuilt).
Qed.

End MoreOfTheFrame.

(** X5.  A call of [operator()] that returns changes the buffers of the
    object only: the spaces, the operators, the flag [update_qdata], the
    gradient operators and the static part and the number of the integrals
    are those of before.  After it [input_L_[i]] is the prolongation of the
    i-th argument, and the residual returned is the member [output_T_],
    which is the transpose prolongation of [output_L_]. *)
Theorem operator_paren_frame {qf_input qf_output qpt_data_type : Type}
    (f : Functional qf_input qf_output qpt_data_type) (wrt : Z) (input_T : list Vec)
    f' r events :
  operator_paren f wrt input_T = Some (f', r, events) →
  configuration f' = configuration f ∧
  length (integrals_ f') = length (integrals_ f) ∧
  (∀ i, (i < num_trial_spaces f)%nat →
     ∃ P x, deref (P_trial_ f) i = Some P ∧ input_T !! i = Some x ∧
            input_L_ f' !! i = Some (Mult P x)) ∧
  output_T_ f' = MultTranspose (P_test_ f) (output_L_ f') ∧
  residual_of r = output_T_ f'.
Proof.
  intros Hcall.
  pose proof (operator_paren_configuration _ _ _ _ _ _ Hcall) as Hconf.
  destruct (operator_paren_stages _ _ _ _ _ _ Hcall) as (HT & Hres & _ & HL).
  split; [done|]. split; [|done].
  apply configuration_static in Hconf.
  by rewrite <- (length_fmap static_part (integrals_ f')), Hconf, length_fmap.
Qed.

Lemma operator_paren_frame_witness :
  match operator_paren (prepared_functional true) (-1) [[1; 2; 3]] with
  | Some (f', r, _) =>
      configuration f' = configuration (prepared_functional true) ∧
      length (integrals_ f') = length (integrals_ (prepared_functional true)) ∧
      (∀ i, (i < num_trial_spaces (prepared_functional true))%nat →
         ∃ P x, deref (P_trial_ (prepared_functional true)) i = Some P ∧
                [[1; 2; 3]] !! i = Some x ∧
                input_L_ f' !! i = Some (Mult P x)) ∧
      output_T_ f' = MultTranspose (P_test_ (prepared_functional true)) (output_L_ f') ∧
      residual_of r = output_T_ f'
  | None => False
  end.
Proof.
  destruct (operator_paren (prepared_functional true) (-1) [[1; 2; 3]])
    as [[[f' r] events]|] eqn:Hcall.
  - exact (operator_paren_frame _ _ _ _ _ _ Hcall).
  - vm_compute in Hcall. discriminate.
Defined.

(** X6.  What [operator()] needs in order to return: an argument for each
    trial space; an assigned prolongation pointer and a local input vector
    for each trial space; an element restriction for every trial space that
    an integral depends on; and an index of differentiation that is [-1]
    or the index of an existing gradient operator. *)
Theorem operator_paren_needs {qf_input qf_output qpt_data_type : Type}
    (f : Functional qf_input qf_output qpt_data_type) (wrt : Z) (input_T : list Vec)
    f' r events :
  operator_paren f wrt input_T = Some (f', r, events) →
  (num_trial_spaces f <= length input_T)%nat ∧
  (∀ i, (i < num_trial_spaces f)%nat →
     is_Some (deref (P_trial_ f) i) ∧ (i < length (input_L_ f))%nat) ∧
  (∀ type' i, required f type' i → (i < length (G_trial_ f))%nat) ∧
  (wrt = -1 ∨ 0 <= wrt < Z.of_nat (length (grad_ f)))%Z.
Proof.
  intros Hcall.
  destruct (operator_paren_stages _ _ _ _ _ _ Hcall) as (_ & _ & Hwrt & HL).
  split; [|split; [|split]].
  - destruct (decide (num_trial_spaces f <= length input_T)%nat) as [|Hlt]; [done|].
    destruct (HL (length input_T)) as (_ & x & _ & Hx & _); [lia|].
    apply lookup_lt_Some in Hx. lia.
  - intros i Hi. destruct (HL i Hi) as (P & x & HP & _ & Hin).
    split; [by exists P|].
    apply lookup_lt_Some in Hin.
    apply operator_paren_Some in Hcall as (f1 & c & Hpro & Hloop & Hfin).
    apply operator_paren_finish_Some in Hfin as (-> & _ & _). simpl in Hin.
    apply operator_paren_loop_input_L_ in Hloop. simpl in Hloop. rewrite Hloop in Hin.
    apply prolongate_loop_configuration in Hpro as (_ & _ & _ & _ & Hlen). lia.
  - intros type' i Hreq.
    destruct (operator_paren_gathers _ _ _ _ _ _ Hcall) as [Hone _].
    destruct (Hone type' i Hreq) as (_ & [E HE] & _).
    unfold gathered in HE. destruct (G_trial_ f !! i) as [G|] eqn:HG; [|done].
    by apply lookup_lt_Some in HG.
  - destruct Hwrt as [->|[Hpos [g Hg]]]; [by left|]. right.
    apply lookup_lt_Some in Hg. lia.
Qed.

Lemma operator_paren_needs_witness :
  match operator_paren (prepared_functional true) 0 [[1; 2; 3]] with
  | Some _ =>
      (num_trial_spaces (prepared_functional true) <= length [[1; 2; 3]])%nat ∧
      (∀ i, (i < num_trial_spaces (prepared_functional true))%nat →
         is_Some (deref (P_trial_ (prepared_functional true)) i) ∧
         (i < length (input_L_ (prepared_functional true)))%nat) ∧
      (∀ type' i, required (prepared_functional true) type' i →
         (i < length (G_trial_ (prepared_functional true)))%nat) ∧
      (0 = -1 ∨ 0 <= 0 < Z.of_nat (length (grad_ (prepared_functional true))))%Z
  | None => False
  end.
Proof.
  destruct (operator_paren (prepared_functional true) 0 [[1; 2; 3]])
    as [[[f' r] events]|] eqn:Hcall.
  - exact (operator_paren_needs _ _ _ _ _ _ Hcall).
  - vm_compute in Hcall. discriminate.
Defined.

(** X7.  The constructor assigns no prolongation pointer [P_trial_[i]]
    (the loop that would is inside [#if 0]) and no method assigns one
    later.  So on an object that a program can hold, [ActionOfGradient]
    has no defined result for any argument, and neither has [operator()]
    when there is at least one trial space: both dereference
    [P_trial_[i]] first. *)
Theorem constructed_Functional_cannot_be_evaluated
    {qf_input qf_output qpt_data_type : Type}
    (f : Functional qf_input qf_output qpt_data_type) :
  built f →
  (∀ i, deref (P_trial_ f) i = None) ∧
  (∀ input_T which, ActionOfGradient f input_T which = None) ∧
  ((0 < num_trial_spaces f)%nat → ∀ wrt input_T, operator_paren f wrt input_T = None).
Proof.
  intros Hbuilt. apply built_P_trial_ in Hbuilt.
  split; [|split].
  - intros i. by apply deref_unassigned.
  - intros input_T which. unfold ActionOfGradient.
    by rewrite (deref_unassigned _ which Hbuilt).
  - intros Hn wrt input_T. unfold operator_paren.
    destruct (num_trial_spaces f) as [|n]; [lia|].
    assert (prolongate_body input_T f 0 = None) as Hfirst.
    { unfold prolongate_body. by rewrite (deref_unassigned _ 0%nat Hbuilt). }
    cbn [seq for_each]. by rewrite Hfirst.
Qed.

Lemma constructed_Functional_cannot_be_evaluated_witness :
  (∀ i, deref (P_trial_ (set_integrals_ [mass_integral] constructed_functional)) i = None) ∧
  (∀ input_T which,
     ActionOfGradient (set_integrals_ [mass_integral] constructed_functional) input_T which
     = None) ∧
  ((0 < num_trial_spaces (set_integrals_ [mass_integral] constructed_functional))%nat →
   ∀ wrt input_T,
     operator_paren (set_integrals_ [mass_integral] constructed_functional) wrt input_T
     = None).
Proof.
  apply (constructed_Functional_cannot_be_evaluated
           (set_integrals_ [mass_integral] constructed_functional)).
  apply (built_AddDomainIntegral constructed_functional 1 [0%nat] nodal_evaluator
           mass_integrand two_segments [(); (); (); ()]).
  - apply built_ctor.
  - reflexivity.
Defined.

(** ** What the constructed object does not reach *)

(** C6, where the code departs from it.  On an object that a program can
    hold, when a registered integral depends on a trial space, no call of
    [operator()] reaches a gather: the call dereferences [P_trial_[i]],
    which the constructor leaves unassigned (its loop is inside [#if 0]),
    before the loop over the integrals, and has no defined result.  So
    the pair is not gathered once in the call, and no residual is produced;
    nor has [ActionOfGradient], which gathers in the same way, a defined
    result. *)
Theorem constructed_Functional_gathers_nothing
    {qf_input qf_output qpt_data_type : Type}
    (f : Functional qf_input qf_output qpt_data_type) (type' : IntegralType) (i : nat) :
  built f →
  required f type' i →
  (∀ wrt input_T, operator_paren f wrt input_T = None) ∧
  (∀ input_T, gathered f input_T i = None) ∧
  (∀ input_T which, ActionOfGradient f input_T which = None).
Proof.
  intros Hbuilt Hrequired. split; [|split].
  - intros wrt input_T.
    destruct (operator_paren f wrt input_T) as [[[f' r] events]|] eqn:Hcall; [|done].
    destruct (operator_paren_gathers _ _ _ _ _ _ Hcall) as [Hone _].
    destruct (Hone type' i Hrequired) as (_ & [E HE] & _).
    by rewrite (built_gathered f input_T i Hbuilt) in HE.
  - intros input_T. by apply built_gathered.
  - intros input_T which. apply built_P_trial_ in Hbuilt. unfold ActionOfGradient.
    by rewrite (deref_unassigned _ which Hbuilt).
Qed.

Lemma constructed_Functional_gathers_nothing_witness :
  (∀ wrt input_T,
     operator_paren (set_integrals_ [mass_integral] constructed_functional) wrt input_T
     = None) ∧
  (∀ input_T,
     gathered (set_integrals_ [mass_integral] constructed_functional) input_T 0 = None) ∧
  (∀ input_T which,
     ActionOfGradient (set_integrals_ [mass_integral] constructed_functional) input_T which
     = None).
Proof.
  apply (constructed_Functional_gathers_nothing
           (set_integrals_ [mass_integral] constructed_functional) Domain 0).
  - apply (built_AddDomainIntegral constructed_functional 1 [0%nat] nodal_evaluator
             mass_integrand two_segments [(); (); (); ()]).
    + apply built_ctor.
    + reflexivity.
  - exists mass_integral. split; [by left|]. split; [reflexivity|by left].
Defined.

(** C1, where the code departs from it.  On an object that a program can
    hold, with a registered integral, [assemble()] of a gradient operator
    for one of its trial spaces returns a matrix whose values are all zero:
    the array of values is zero-initialised, and the two loops that would
    add the entries of the element Jacobians to it are commented out.
    Applied to any vector the matrix gives the transposed prolongation of
    a zero vector, whatever the integrals are; and [ActionOfGradient], for
    the same trial argument, has no defined result.  The two are not
    equal. *)
Theorem assemble_is_not_the_gradient_action
    {qf_input qf_output qpt_data_type : Type}
    (f : Functional qf_input qf_output qpt_data_type) (g : Gradient) :
  built f →
  integrals_ f ≠ [] →
  (which_argument g < num_trial_spaces f)%nat →
  ∃ g' A,
    assemble f g
    = Some (g', RAP (Dof_TrueDof_Matrix (test_space_ f)) A
                  (Dof_TrueDof_Matrix (Gradient_trial_space_ g))) ∧
    csr_A A = zeros (nnz (lookup_tables g)) ∧
    (∀ v, HypreParMatrix_Mult
            (RAP (Dof_TrueDof_Matrix (test_space_ f)) A
               (Dof_TrueDof_Matrix (Gradient_trial_space_ g))) v
          = MultTranspose (Dof_TrueDof_Matrix (test_space_ f))
              (zeros (length (output_L_ f)))) ∧
    (∀ v, ActionOfGradient f v (which_argument g) = None).
Proof.
  intros Hbuilt _ Hwhich.
  rewrite <- (built_input_L_ f Hbuilt) in Hwhich.
  destruct (lookup_lt_is_Some_2 _ _ Hwhich) as [input_L Hinput].
  assert (assemble f g
          = Some ({| lookup_tables := lookup_tables g;
                     col_ind_copy_ := col_ind (lookup_tables g);
                     which_argument := which_argument g;
                     Gradient_test_space_ := Gradient_test_space_ g;
                     Gradient_trial_space_ := Gradient_trial_space_ g; df_ := df_ g |},
                  RAP (Dof_TrueDof_Matrix (test_space_ f))
                    {| csr_I := row_ptr (lookup_tables g);
                       csr_J := col_ind (lookup_tables g);
                       csr_A := zeros (nnz (lookup_tables g));
                       csr_height := length (output_L_ f);
                       csr_width := length input_L |}
                    (Dof_TrueDof_Matrix (Gradient_trial_space_ g)))) as Hassemble.
  { unfold assemble. by rewrite Hinput. }
  eexists _, _. split; [exact Hassemble|]. split; [done|]. split.
  - intros v. by rewrite (assemble_ignores_the_integrals _ _ _ _ v Hassemble).
  - intros v. apply built_P_trial_ in Hbuilt. unfold ActionOfGradient.
    by rewrite (deref_unassigned _ (which_argument g) Hbuilt).
Qed.

Lemma assemble_is_not_the_gradient_action_witness :
  ∃ g' A,
    assemble (set_integrals_ [mass_integral] constructed_functional) gradient_0
    = Some (g', RAP (Dof_TrueDof_Matrix
                       (test_space_ (set_integrals_ [mass_integral] constructed_functional)))
                  A (Dof_TrueDof_Matrix (Gradient_trial_space_ gradient_0))) ∧
    csr_A A = zeros (nnz (lookup_tables gradient_0)) ∧
    (∀ v, HypreParMatrix_Mult
            (RAP (Dof_TrueDof_Matrix
                    (test_space_ (set_integrals_ [mass_integral] constructed_functional)))
               A (Dof_TrueDof_Matrix (Gradient_trial_space_ gradient_0))) v
          = MultTranspose
              (Dof_TrueDof_Matrix
                 (test_space_ (set_integrals_ [mass_integral] constructed_functional)))
              (zeros (length (output_L_
                                (set_integrals_ [mass_integral] constructed_functional))))) ∧
    (∀ v, ActionOfGradient (set_integrals_ [mass_integral] constructed_functional) v
            (which_argument gradient_0) = None).
Proof.
  apply (assemble_is_not_the_gradient_action
           (set_integrals_ [mass_integral] constructed_functional) gradient_0).
  - apply (built_AddDomainIntegral constructed_functional 1 [0%nat] nodal_evaluator
             mass_integrand two_segments [(); (); (); ()]).
    + apply built_ctor.
    + reflexivity.
  - discriminate.
  - unfold num_trial_spaces. simpl. lia.
Defined.

(** ** The action of the gradient *)

Section MoreOfActionOfGradient.
Context {qf_input qf_output qpt_data_type : Type}.
Implicit Types (f : Functional qf_input qf_output qpt_data_type)
  (I : Integral qf_input qf_output qpt_data_type)
  (s : Functional qf_input qf_output qpt_data_type * PerType bool).

(** One iteration of the loop adds the contribution of its integral,
    computed from the gather of the local input vector, whether or not the
    flag of the integral type was set. *)
Lemma ActionOfGradient_body_step which G L s k I :
  integrals_ s.1 !! k = Some I →
  gradient_action_ready which G L s →
  ∃ s2, ActionOfGradient_body which s k = Some s2 ∧
        output_L_ s2.1
        = ScatterAdd (G_test_ s.1) (Integral_GradientMult I (Gather G L) which)
            (output_L_ s.1) ∧
        integrals_ s2.1 = integrals_ s.1 ∧
        G_test_ s2.1 = G_test_ s.1 ∧
        input_L_ s2.1 = input_L_ s.1 ∧
        gradient_action_ready which G L s2.
Proof.
  destruct s as [f flags]. unfold gradient_action_ready. simpl.
  intros HI (HG & HL & Hlen & Hflags).
  unfold ActionOfGradient_body. rewrite HI. simpl.
  destruct (at_type flags (type I)) eqn:Hflag; simpl.
  - rewrite (Hflags _ Hflag). simpl. eexists. split; [reflexivity|]. simpl.
    by repeat split.
  - rewrite HG, HL. simpl.
    destruct (lookup_lt_is_Some_2 _ _ (Hlen (type I))) as [E0 HE0]. rewrite HE0. simpl.
    rewrite at_type_set_at_type, decide_True by done.
    rewrite list_lookup_insert_eq by apply Hlen. simpl.
    eexists. split; [reflexivity|]. simpl.
    split; [done|]. split; [done|]. split; [done|]. split; [done|].
    split; [done|]. split; [done|]. split.
    + intros type'. rewrite at_type_set_at_type.
      destruct (decide (type' = type I)) as [->|_]; [|apply Hlen].
      rewrite length_insert. apply Hlen.
    + intros type'. rewrite !at_type_set_at_type.
      destruct (decide (type' = type I)) as [->|_]; [|apply Hflags].
      intros _. apply list_lookup_insert_eq, Hlen.
Qed.

(** The loop over the integrals, from any point on. *)
Lemma ActionOfGradient_loop which G L (rest processed : list (Integral _ _ _)) s :
  integrals_ s.1 = processed ++ rest →
  gradient_action_ready which G L s →
  ∃ s', for_each (ActionOfGradient_body which) (seq (length processed) (length rest)) s
        = Some s' ∧
        output_L_ s'.1
        = foldl (λ acc I,
                   ScatterAdd (G_test_ s.1) (Integral_GradientMult I (Gather G L) which) acc)
            (output_L_ s.1) rest ∧
        input_L_ s'.1 = input_L_ s.1.
Proof.
  revert processed s. induction rest as [|I rest IH]; intros processed s Hint Hready.
  - exists s. by repeat split.
  - assert (integrals_ s.1 !! length processed = Some I) as HI.
    { rewrite Hint. by apply list_lookup_middle. }
    destruct (ActionOfGradient_body_step which G L s _ I HI Hready)
      as (s2 & Hbody & Hout & Hint2 & HGt & HL2 & Hready2).
    destruct (IH (processed ++ [I]) s2) as (s' & Hloop & Hout' & HL'); [|done|].
    { by rewrite Hint2, Hint, <- app_assoc. }
    exists s'. cbn [length seq for_each]. rewrite Hbody. simpl.
    rewrite length_app, Nat.add_1_r in Hloop.
    split; [done|]. split; [|by rewrite HL', HL2].
    by rewrite Hout', Hout, HGt.
Qed.

End MoreOfActionOfGradient.

(** X8.  On a well-formed object, [ActionOfGradient] for an existing trial
    space returns.  Its result is the transpose prolongation of the sum,
    scatter-added over all the integrals in their order onto a zero vector,
    of [GradientMult] applied to one and the same E-vector: the gather of
    the prolongation of the argument.  Gathering once for each integral
    type gives what gathering for each integral would.  The call writes
    the prolongation of the argument to [input_L_[which]] and keeps the
    integrals and the configuration of the object. *)
Theorem ActionOfGradient_closed_form {qf_input qf_output qpt_data_type : Type}
    (f : Functional qf_input qf_output qpt_data_type) (input_T : Vec) (which : nat) :
  well_formed f = true →
  (which < num_trial_spaces f)%nat →
  ∃ P G f',
    deref (P_trial_ f) which = Some P ∧ G_trial_ f !! which = Some G ∧
    ActionOfGradient f input_T which
    = Some (f',
            MultTranspose (P_test_ f)
              (foldl (λ acc I,
                        ScatterAdd (G_test_ f)
                          (Integral_GradientMult I (Gather G (Mult P input_T)) which) acc)
                 (assign_zero (output_L_ f)) (integrals_ f))) ∧
    input_L_ f' = <[which := Mult P input_T]> (input_L_ f) ∧
    integrals_ f' = integrals_ f ∧
    configuration f' = configuration f.
Proof.
  intros Hwf Hwhich.
  apply well_formed_spec in Hwf as (HlenP & HP & HlenG & HlenL & HlenE & _).
  destruct (lookup_lt_is_Some_2 (P_trial_ f) which) as [p Hp]; [lia|].
  destruct (proj1 (Forall_lookup _ _) HP which p Hp) as [P ->].
  destruct (lookup_lt_is_Some_2 (G_trial_ f) which) as [G HG]; [lia|].
  destruct (lookup_lt_is_Some_2 (input_L_ f) which) as [L0 HL0]; [lia|].
  assert (deref (P_trial_ f) which = Some P) as Hderef.
  { unfold deref. by rewrite Hp. }
  set (f2 := set_output_L_ (assign_zero (output_L_ (set_input_L_
               (<[which := Mult P input_T]> (input_L_ f)) f)))
               (set_input_L_ (<[which := Mult P input_T]> (input_L_ f)) f)).
  destruct (ActionOfGradient_loop which G (Mult P input_T) (integrals_ f) []
              (f2, all_types false)) as (s' & Hloop & Hout & HL); [done| |].
  { unfold gradient_action_ready. simpl. split; [done|]. split.
    - apply list_lookup_insert_eq. lia.
    - split; [intros type'; rewrite HlenE; lia|]. by intros []. }
  assert (ActionOfGradient f input_T which
          = Some (s'.1, MultTranspose (P_test_ s'.1) (output_L_ s'.1))) as Hcall.
  { transitivity
      (for_each (ActionOfGradient_body which)
         (seq (length (@nil (Integral qf_input qf_output qpt_data_type)))
            (length (integrals_ f)))
         (f2, all_types false)
       ≫= λ s, Some (s.1, MultTranspose (P_test_ s.1) (output_L_ s.1))).
    - unfold ActionOfGradient. rewrite Hderef, HL0. reflexivity.
    - by rewrite Hloop. }
  destruct (ActionOfGradient_configuration _ _ _ _ _ Hcall) as [Hconf Hint].
  exists P, G, s'.1. split; [done|]. split; [done|].
  split; [|by split].
  rewrite Hcall, Hout. simpl. do 3 f_equal.
  unfold configuration in Hconf. by injection Hconf.
Qed.

Lemma ActionOfGradient_closed_form_witness :
  ∃ P G f',
    deref (P_trial_ (prepared_functional true)) 0 = Some P ∧
    G_trial_ (prepared_functional true) !! 0%nat = Some G ∧
    ActionOfGradient (prepared_functional true) [1; 2; 3] 0
    = Some (f',
            MultTranspose (P_test_ (prepared_functional true))
              (foldl (λ acc I,
                        ScatterAdd (G_test_ (prepared_functional true))
                          (Integral_GradientMult I (Gather G (Mult P [1; 2; 3])) 0) acc)
                 (assign_zero (output_L_ (prepared_functional true)))
                 (integrals_ (prepared_functional true)))) ∧
    input_L_ f' = <[0%nat := Mult P [1; 2; 3]]> (input_L_ (prepared_functional true)) ∧
    integrals_ f' = integrals_ (prepared_functional true) ∧
    configuration f' = configuration (prepared_functional true).
Proof.
  apply (ActionOfGradient_closed_form (prepared_functional true) [1; 2; 3] 0).
  - reflexivity.
  - unfold num_trial_spaces. simpl. lia.
Defined.

(** * More of [liquid_crystal_elastomer.hpp] *)

(** ** The checks of the constructor *)

(** X9.  The constructor of [BrighentiMechanical] accepts its arguments
    exactly when the density, the shear modulus, the bulk modulus, the order
    constant and the transition temperature are all positive, and then
    stores them as they are.  Otherwise the first of these five, in this
    order, that is not positive decides the message.  The order parameter,
    the director and [N_b_squared] are not checked. *)
Theorem BrighentiMechanical_ctor_checks (density shear_modulus bulk_modulus
    order_constant order_parameter transition_temperature : R) (normal : vec3)
    (N_b_squared : R) :
  match BrighentiMechanical_ctor density shear_modulus bulk_modulus order_constant
          order_parameter transition_temperature normal N_b_squared with
  | Ok m =>
      0 < density ∧ 0 < shear_modulus ∧ 0 < bulk_modulus ∧ 0 < order_constant ∧
      0 < transition_temperature ∧
      density_ m = density ∧ shear_modulus_ m = shear_modulus ∧
      bulk_modulus_ m = bulk_modulus ∧ order_constant_ m = order_constant ∧
      initial_order_parameter_ m = order_parameter ∧
      transition_temperature_ m = transition_temperature ∧
      N_b_squared_ m = N_b_squared
  | ConfigurationError msg _ =>
      (density <= 0 ∧ msg = "Density must be positive in the LCE material model."%string) ∨
      (0 < density ∧ shear_modulus <= 0 ∧
       msg = "Shear modulus must be positive in the LCE material model."%string) ∨
      (0 < density ∧ 0 < shear_modulus ∧ bulk_modulus <= 0 ∧
       msg = "Bulk modulus must be positive in the LCE material model."%string) ∨
      (0 < density ∧ 0 < shear_modulus ∧ 0 < bulk_modulus ∧ order_constant <= 0 ∧
       msg = "Order constant must be positive in the LCE material model."%string) ∨
      (0 < density ∧ 0 < shear_modulus ∧ 0 < bulk_modulus ∧ 0 < order_constant ∧
       transition_temperature <= 0 ∧
       msg = "The transition temperature must be positive in the LCE material model."%string)
  end.
Proof.
  unfold BrighentiMechanical_ctor, SLIC_ERROR_ROOT_IF.
  cbn [density_ shear_modulus_ bulk_modulus_ order_constant_ transition_temperature_].
  case_bool_decide as Hd; [by left|]. apply Rnot_le_lt in Hd.
  case_bool_decide as Hs; [by right; left|]. apply Rnot_le_lt in Hs.
  case_bool_decide as Hb; [by right; right; left|]. apply Rnot_le_lt in Hb.
  case_bool_decide as Ho; [by right; right; right; left|]. apply Rnot_le_lt in Ho.
  case_bool_decide as Ht; [by right; right; right; right|]. apply Rnot_le_lt in Ht.
  by repeat split.
Qed.

(** ** The initial distribution tensor *)

(** X10.  The initial distribution tensor is symmetric, and its trace is
    [N_b_squared * (1 - q0 + q0 * |normal|^2)]: it is [N_b_squared] when
    the director that is passed has norm one, and with [q0 = 0] the tensor
    is [N_b_squared / 3] times the identity. *)
Theorem calculateInitialDistributionTensor_symmetric (normal : vec3) (q0 N_b_squared : R) :
  transpose (calculateInitialDistributionTensor normal q0 N_b_squared)
  = calculateInitialDistributionTensor normal q0 N_b_squared ∧
  tr (calculateInitialDistributionTensor normal q0 N_b_squared)
  = N_b_squared * (1 - q0 + q0 * squared_norm normal) ∧
  (squared_norm normal = 1 →
   tr (calculateInitialDistributionTensor normal q0 N_b_squared) = N_b_squared) ∧
  calculateInitialDistributionTensor normal 0 N_b_squared
  = mscale (N_b_squared / 3) Identity.
Proof.
  destruct normal as [[x y] z].
  assert (tr (calculateInitialDistributionTensor (x, y, z) q0 N_b_squared)
          = N_b_squared * (1 - q0 + q0 * squared_norm (x, y, z))) as Htr.
  { unfold calculateInitialDistributionTensor, tr, squared_norm, vdot, outer, madd,
      mscale, vadd, vscale, Identity. field. }
  split; [|split; [done|split]].
  - unfold calculateInitialDistributionTensor, transpose, outer, madd, mscale, vadd,
      vscale, Identity. componentwise; ring.
  - intros Hunit. rewrite Htr, Hunit. ring.
  - unfold calculateInitialDistributionTensor, outer, madd, mscale, vadd, vscale, Identity.
    componentwise; unfold Rdiv; ring.
Qed.

(** ** Calls at an unchanged deformation *)

Ltac unfold_tensors :=
  unfold inv, det, linear_solve, mdot, msub, madd, mscale, transpose, outer, vdot, vadd,
    vscale, Identity.

Lemma transpose_Identity : transpose Identity = Identity.
Proof. done. Qed.

Lemma mdot_Identity_l (A : mat3) : mdot Identity A = A.
Proof. destruct A as [[[[a b] c] [[d e] f]] [[g h] i]]. unfold_tensors. componentwise; ring. Qed.

Lemma mdot_Identity_r (A : mat3) : mdot A Identity = A.
Proof. destruct A as [[[[a b] c] [[d e] f]] [[g h] i]]. unfold_tensors. componentwise; ring. Qed.

Lemma det_Identity : det Identity = 1.
Proof. unfold det, Identity. ring. Qed.

Lemma inv_Identity : inv Identity = Identity.
Proof. unfold_tensors. componentwise; field; lra. Qed.

Lemma det_transpose (A : mat3) : det (transpose A) = det A.
Proof. destruct A as [[[[a b] c] [[d e] f]] [[g h] i]]. unfold det, transpose. ring. Qed.

(** [inv(A)] is a left inverse of a matrix that has one. *)
Lemma inv_mdot (A : mat3) : det A ≠ 0 → mdot (inv A) A = Identity.
Proof.
  destruct A as [[[[a b] c] [[d e] f]] [[g h] i]]. unfold_tensors. intros Hdet.
  componentwise; field; exact Hdet.
Qed.

(** The incremental deformation gradient between equal deformation
    gradients is the identity. *)
Lemma incremental_deformation_Identity (F : mat3) :
  det F ≠ 0 → transpose (linear_solve (transpose F) (transpose F)) = Identity.
Proof.
  intros Hdet. unfold linear_solve. rewrite inv_mdot; [done|].
  by rewrite det_transpose.
Qed.

(** The fifteen iterations start at their fixed point when the argument is
    the identity. *)
Lemma tensorSquareRoot_Identity : tensorSquareRoot Identity = Identity.
Proof.
  unfold tensorSquareRoot.
  assert (mscale 0.5 (madd Identity (mdot Identity (inv Identity))) = Identity) as Hstep.
  { rewrite inv_Identity, mdot_Identity_l. unfold_tensors. componentwise; lra. }
  generalize 15%nat. intros n. induction n as [|n IH]; [done|].
  by rewrite Nat.iter_succ, IH.
Qed.

(** With the identity as incremental deformation gradient the distribution
    tensor changes by the change of the nematic order tensor only. *)
Lemma calculateDistributionTensor_Identity (this : BrighentiMechanical) (theta : R)
    (state : State) :
  calculateDistributionTensor this Identity theta state
  = madd (distribution_tensor state)
      (mscale (2 * N_b_squared_ this / 3)
         (mscale
            (3 * (initial_order_parameter_ this
                  / (1 + exp ((theta - transition_temperature_ this) / order_constant_ this))
                  / 2
                  - initial_order_parameter_ this
                    / (1 + exp ((temperature state - transition_temperature_ this)
                                / order_constant_ this))
                    / 2))
            (msub (outer (normal_ this) (normal_ this)) Identity))).
Proof.
  unfold calculateDistributionTensor. cbv zeta.
  rewrite !transpose_Identity. rewrite (mdot_Identity_l Identity).
  rewrite tensorSquareRoot_Identity, inv_Identity.
  generalize (initial_order_parameter_ this
              / (1 + exp ((theta - transition_temperature_ this) / order_constant_ this))).
  generalize (initial_order_parameter_ this
              / (1 + exp ((temperature state - transition_temperature_ this)
                          / order_constant_ this))).
  intros q_old q.
  rewrite !mdot_Identity_l, !mdot_Identity_r.
  destruct (normal_ this) as [[n1 n2] n3].
  destruct (distribution_tensor state) as [[[[a b] c] [[d e] f]] [[g h] i]].
  unfold_tensors. componentwise; unfold Rdiv; ring.
Qed.

(** A call at the deformation gradient that the state already holds. *)
Lemma BrighentiMechanical_call_same_deformation (this : BrighentiMechanical)
    (x displacement : vec3) (displacement_grad : mat3) (state : State) (theta : R) :
  deformation_gradient state = madd displacement_grad Identity →
  det (madd displacement_grad Identity) ≠ 0 →
  BrighentiMechanical_call this x displacement displacement_grad state theta
  = let mu := calculateDistributionTensor this Identity theta state in
    let J := det (madd displacement_grad Identity) in
    ({| density := density_ this;
        stress :=
          madd (mscale (J * (3 * shear_modulus_ this / N_b_squared_ this))
                  (msub mu (initial_distribution_tensor_ this)))
            (mscale ((bulk_modulus_ this - 2 / 3 * shear_modulus_ this) * ln J) Identity) |},
     {| deformation_gradient := madd displacement_grad Identity;
        distribution_tensor := mu;
        temperature := theta |}).
Proof.
  intros HF Hdet. unfold BrighentiMechanical_call. rewrite HF.
  by rewrite incremental_deformation_Identity.
Qed.

(** X11.  Calling the material a second time with the same displacement
    gradient and temperature, on the state that the first call left, returns
    the response of the first call and leaves the state as it is, for a
    deformation gradient of positive determinant.  The first call may start
    from any state with an invertible deformation gradient.  The divisors of
    the call, [order_constant_] and [N_b_squared_], are taken to be
    different from zero. *)
Theorem BrighentiMechanical_call_twice (this : BrighentiMechanical)
    (x displacement x' displacement' : vec3) (displacement_grad : mat3) (state : State)
    (theta : R) :
  order_constant_ this ≠ 0 → N_b_squared_ this ≠ 0 →
  det (deformation_gradient state) ≠ 0 →
  0 < det (madd displacement_grad Identity) →
  BrighentiMechanical_call this x' displacement' displacement_grad
    (BrighentiMechanical_call this x displacement displacement_grad state theta).2 theta
  = BrighentiMechanical_call this x displacement displacement_grad state theta.
Proof.
  intros _ _ _ Hpos.
  assert (det (madd displacement_grad Identity) ≠ 0) as Hdet by lra.
  rewrite BrighentiMechanical_call_same_deformation; [|done..].
  rewrite calculateDistributionTensor_Identity.
  set (first := BrighentiMechanical_call this x displacement displacement_grad state theta).
  assert (temperature first.2 = theta) as -> by done.
  assert (madd (distribution_tensor first.2)
            (mscale (2 * N_b_squared_ this / 3)
               (mscale
                  (3 * (initial_order_parameter_ this
                        / (1 + exp ((theta - transition_temperature_ this)
                                    / order_constant_ this)) / 2
                        - initial_order_parameter_ this
                          / (1 + exp ((theta - transition_temperature_ this)
                                      / order_constant_ this)) / 2))
                  (msub (outer (normal_ this) (normal_ this)) Identity)))
          = distribution_tensor first.2) as ->.
  { generalize (initial_order_parameter_ this
                / (1 + exp ((theta - transition_temperature_ this) / order_constant_ this))).
    intros q. destruct (normal_ this) as [[n1 n2] n3].
    destruct (distribution_tensor first.2) as [[[[a b] c] [[d e] f]] [[g h] i]].
    unfold_tensors. componentwise; unfold Rdiv; ring. }
  done.
Qed.

Lemma BrighentiMechanical_call_twice_witness :
  BrighentiMechanical_call lce_material (0, 0, 0) (0, 0, 0) zero_tensor
    (BrighentiMechanical_call lce_material (0, 0, 0) (0, 0, 0) zero_tensor
       undeformed_state 1).2 1
  = BrighentiMechanical_call lce_material (0, 0, 0) (0, 0, 0) zero_tensor undeformed_state 1.
Proof.
  apply (BrighentiMechanical_call_twice lce_material (0, 0, 0) (0, 0, 0) (0, 0, 0) (0, 0, 0)
           zero_tensor undeformed_state 1).
  - simpl. lra.
  - simpl. lra.
  - unfold undeformed_state. cbn [deformation_gradient]. rewrite det_Identity. lra.
  - unfold det, madd, vadd, zero_tensor, Identity. lra.
Defined.

Lemma madd_zero_tensor_l (A : mat3) : madd zero_tensor A = A.
Proof.
  destruct A as [[[[a b] c] [[d e] f]] [[g h] i]]. unfold madd, vadd, zero_tensor.
  componentwise; ring.
Qed.

(** X12.  The reference configuration is free of stress: at a zero
    displacement gradient, on a state that holds the identity as deformation
    gradient and the initial distribution tensor, and at the temperature of
    that state, the material returns its density and a zero stress and
    leaves the state as it is.  The divisors of the call, [order_constant_]
    and [N_b_squared_], are taken to be different from zero. *)
Theorem BrighentiMechanical_reference_is_stress_free (this : BrighentiMechanical)
    (x displacement : vec3) (theta : R) :
  order_constant_ this ≠ 0 → N_b_squared_ this ≠ 0 →
  BrighentiMechanical_call this x displacement zero_tensor
    {| deformation_gradient := Identity;
       distribution_tensor := initial_distribution_tensor_ this;
       temperature := theta |} theta
  = ({| density := density_ this; stress := zero_tensor |},
     {| deformation_gradient := Identity;
        distribution_tensor := initial_distribution_tensor_ this;
        temperature := theta |}).
Proof.
  intros _ _.
  rewrite BrighentiMechanical_call_same_deformation.
  - cbv zeta. rewrite calculateDistributionTensor_Identity.
    cbn [temperature distribution_tensor].
    rewrite madd_zero_tensor_l, det_Identity, ln_1.
    generalize (initial_order_parameter_ this
                / (1 + exp ((theta - transition_temperature_ this) / order_constant_ this))).
    generalize (3 * shear_modulus_ this / N_b_squared_ this).
    intros k q. destruct (normal_ this) as [[n1 n2] n3].
    destruct (initial_distribution_tensor_ this) as [[[[a b] c] [[d e] f]] [[g h] i]].
    unfold_tensors. unfold zero_tensor. f_equal.
    + f_equal. componentwise; unfold Rdiv; ring.
    + f_equal. componentwise; unfold Rdiv; ring.
  - by rewrite madd_zero_tensor_l.
  - rewrite madd_zero_tensor_l, det_Identity. lra.
Qed.

Lemma BrighentiMechanical_reference_is_stress_free_witness :
  BrighentiMechanical_call lce_material (0, 0, 0) (0, 0, 0) zero_tensor
    {| deformation_gradient := Identity;
       distribution_tensor := initial_distribution_tensor_ lce_material;
       temperature := 1 |} 1
  = ({| density := density_ lce_material; stress := zero_tensor |},
     {| deformation_gradient := Identity;
        distribution_tensor := initial_distribution_tensor_ lce_material;
        temperature := 1 |}).
Proof.
  apply (BrighentiMechanical_reference_is_stress_free lce_material (0, 0, 0) (0, 0, 0) 1).
  - simpl. lra.
  - simpl. lra.
Defined.

(** X13.  At a deformation gradient that has a positive determinant and is
    the one the state holds, the response to a change of temperature does not depend on
    the path: going to [theta1] and from there to [theta2] returns the
    response and leaves the state of going to [theta2] at once.  The
    divisors of the call, [order_constant_] and [N_b_squared_], are taken to
    be different from zero. *)
Theorem BrighentiMechanical_temperature_steps (this : BrighentiMechanical)
    (x displacement x' displacement' : vec3) (displacement_grad : mat3) (state : State)
    (theta1 theta2 : R) :
  order_constant_ this ≠ 0 → N_b_squared_ this ≠ 0 →
  deformation_gradient state = madd displacement_grad Identity →
  0 < det (madd displacement_grad Identity) →
  BrighentiMechanical_call this x' displacement' displacement_grad
    (BrighentiMechanical_call this x displacement displacement_grad state theta1).2 theta2
  = BrighentiMechanical_call this x displacement displacement_grad state theta2.
Proof.
  intros _ _ HF Hpos.
  assert (det (madd displacement_grad Identity) ≠ 0) as Hdet by lra.
  rewrite (BrighentiMechanical_call_same_deformation this x' displacement'); [|done..].
  rewrite (BrighentiMechanical_call_same_deformation this x displacement _ state theta2);
    [|done..].
  rewrite (BrighentiMechanical_call_same_deformation this x displacement _ state theta1);
    [|done..].
  cbv zeta. cbn [snd].
  assert (calculateDistributionTensor this Identity theta2
            {| deformation_gradient := madd displacement_grad Identity;
               distribution_tensor := calculateDistributionTensor this Identity theta1 state;
               temperature := theta1 |}
          = calculateDistributionTensor this Identity theta2 state) as ->; [|done].
  rewrite !calculateDistributionTensor_Identity. cbn [temperature distribution_tensor].
  generalize (initial_order_parameter_ this
              / (1 + exp ((theta1 - transition_temperature_ this) / order_constant_ this))).
  generalize (initial_order_parameter_ this
              / (1 + exp ((theta2 - transition_temperature_ this) / order_constant_ this))).
  generalize (initial_order_parameter_ this
              / (1 + exp ((temperature state - transition_temperature_ this)
                          / order_constant_ this))).
  intros q0 q2 q1. destruct (normal_ this) as [[n1 n2] n3].
  destruct (distribution_tensor state) as [[[[a b] c] [[d e] f]] [[g h] i]].
  unfold_tensors. componentwise; unfold Rdiv; ring.
Qed.

Lemma BrighentiMechanical_temperature_steps_witness :
  BrighentiMechanical_call lce_material (0, 0, 0) (0, 0, 0) zero_tensor
    (BrighentiMechanical_call lce_material (0, 0, 0) (0, 0, 0) zero_tensor
       undeformed_state 1).2 2
  = BrighentiMechanical_call lce_material (0, 0, 0) (0, 0, 0) zero_tensor undeformed_state 2.
Proof.
  apply (BrighentiMechanical_temperature_steps lce_material (0, 0, 0) (0, 0, 0) (0, 0, 0)
           (0, 0, 0) zero_tensor undeformed_state 1 2).
  - simpl. lra.
  - simpl. lra.
  - symmetry. apply madd_zero_tensor_l.
  - rewrite madd_zero_tensor_l, det_Identity. lra.
Defined.

(** * More of [functional.hpp]: area and volume integrals *)

(** X14.  [AddAreaIntegral] and [AddVolumeIntegral] are [AddDomainIntegral]
    with the dimensions two and three.  On a domain that is not empty, the
    first one succeeds only on a mesh of dimension two and the second one
    only on a mesh of dimension three, each adding an integral of its
    dimension; so no such domain is accepted by both, and at least one of
    the two aborts with the message about the dimension, leaving the object
    as it is. *)
Theorem AddAreaIntegral_AddVolumeIntegral_exclude_each_other
    {qf_input qf_output qpt_data_type : Type}
    (f : Functional qf_input qf_output qpt_data_type) (args : list nat)
    (kernels : Evaluator qf_input qf_output)
    (integrand : qf_input → qpt_data_type → qf_output * qpt_data_type)
    (domain' : Mesh) (qdata' : list qpt_data_type) :
  (0 < GetNE domain')%nat →
  (∀ f', AddAreaIntegral args kernels integrand domain' qdata' f = Ok f' →
         Dimension domain' = 2%Z ∧
         ∃ I, integrals_ f' = integrals_ f ++ [I] ∧ geometry_dim I = 2%Z) ∧
  (∀ f', AddVolumeIntegral args kernels integrand domain' qdata' f = Ok f' →
         Dimension domain' = 3%Z ∧
         ∃ I, integrals_ f' = integrals_ f ++ [I] ∧ geometry_dim I = 3%Z) ∧
  (AddAreaIntegral args kernels integrand domain' qdata' f
   = ConfigurationError "invalid mesh dimension for domain integral" f ∨
   AddVolumeIntegral args kernels integrand domain' qdata' f
   = ConfigurationError "invalid mesh dimension for domain integral" f).
Proof.
  intros Hne. unfold AddAreaIntegral, AddVolumeIntegral, AddDomainIntegral,
    SLIC_ERROR_ROOT_IF.
  destruct (GetNE domain' =? 0)%nat eqn:E; [apply Nat.eqb_eq in E; lia|].
  split; [|split].
  - intros f'. destruct (2 =? Dimension domain')%Z eqn:Hdim; simpl; [|done].
    apply Z.eqb_eq in Hdim.
    destruct (contains_unsupported_elements domain'); [done|].
    intros [= <-]. split; [done|]. by eexists.
  - intros f'. destruct (3 =? Dimension domain')%Z eqn:Hdim; simpl; [|done].
    apply Z.eqb_eq in Hdim.
    destruct (contains_unsupported_elements domain'); [done|].
    intros [= <-]. split; [done|]. by eexists.
  - destruct (2 =? Dimension domain')%Z eqn:Hdim; [|by left].
    destruct (3 =? Dimension domain')%Z eqn:Hdim3; [|by right].
    apply Z.eqb_eq in Hdim, Hdim3. lia.
Qed.

Lemma AddAreaIntegral_AddVolumeIntegral_exclude_each_other_witness :
  (∀ f', AddAreaIntegral [0%nat] nodal_evaluator mass_integrand two_segments
           [(); (); (); ()] constructed_functional = Ok f' →
         Dimension two_segments = 2%Z ∧
         ∃ I, integrals_ f' = integrals_ constructed_functional ++ [I] ∧
              geometry_dim I = 2%Z) ∧
  (∀ f', AddVolumeIntegral [0%nat] nodal_evaluator mass_integrand two_segments
           [(); (); (); ()] constructed_functional = Ok f' →
         Dimension two_segments = 3%Z ∧
         ∃ I, integrals_ f' = integrals_ constructed_functional ++ [I] ∧
              geometry_dim I = 3%Z) ∧
  (AddAreaIntegral [0%nat] nodal_evaluator mass_integrand two_segments
     [(); (); (); ()] constructed_functional
   = ConfigurationError "invalid mesh dimension for domain integral" constructed_functional ∨
   AddVolumeIntegral [0%nat] nodal_evaluator mass_integrand two_segments
     [(); (); (); ()] constructed_functional
   = ConfigurationError "invalid mesh dimension for domain integral" constructed_functional).
Proof.
  apply (AddAreaIntegral_AddVolumeIntegral_exclude_each_other constructed_functional
           [0%nat] nodal_evaluator mass_integrand two_segments [(); (); (); ()]).
  unfold GetNE. simpl. lia.
Defined.

(** * [solvers/thermal_operators.cpp] *)

Section MoreOfDynamicConductionOperator.
Context {Mat Coef : Type} `{!mfem_linear_algebra Mat Coef}.
Implicit Types (s : DynamicConductionOperator Mat Coef) (M K T : Mat) (u rhs z : Vec).

Lemma rebuild_T_same dt M K s :
  dt = m_old_dt s →
  rebuild_T dt M K s = (m_T_mat s, m_T_e_mat s, m_T_solver_operator s).
Proof. intros Hdt. unfold rebuild_T. by destruct (Req_dec_T dt (m_old_dt s)). Qed.

Lemma rebuild_T_other dt M K s :
  dt ≠ m_old_dt s →
  rebuild_T dt M K s
  = (Some (EliminateRowsCols (mfem_Add 1 M dt K) (m_ess_tdof_list s)).1,
     Some (EliminateRowsCols (mfem_Add 1 M dt K) (m_ess_tdof_list s)).2,
     Some (EliminateRowsCols (mfem_Add 1 M dt K) (m_ess_tdof_list s)).1).
Proof.
  intros Hdt. unfold rebuild_T. destruct (Req_dec_T dt (m_old_dt s)); [done|].
  by destruct (EliminateRowsCols _ _).
Qed.

(** What [ImplicitSolve] does, given what it dereferences. *)
Lemma ImplicitSolve_eq dt u s M K rhs z T :
  m_M_mat s = Some M → m_K_mat s = Some K → m_rhs s = Some rhs →
  ImplicitSolve_rhs K rhs u s = Some z →
  (rebuild_T dt M K s).2 = Some T →
  ∃ s', ImplicitSolve dt u s
        = Some (s', CGSolver_Mult (m_solver_params s) default_Type T z) ∧
        m_old_dt s' = dt ∧
        m_T_mat s' = (rebuild_T dt M K s).1.1 ∧
        m_T_e_mat s' = (rebuild_T dt M K s).1.2 ∧
        m_T_solver_operator s' = Some T ∧
        m_M_mat s' = m_M_mat s ∧ m_K_mat s' = m_K_mat s ∧ m_rhs s' = m_rhs s ∧
        m_ess_tdof_list s' = m_ess_tdof_list s ∧ m_ess_bdr_coef s' = m_ess_bdr_coef s ∧
        m_solver_params s' = m_solver_params s.
Proof.
  intros HM HK Hrhs Hz HT. unfold ImplicitSolve. rewrite HM, HK, Hrhs. simpl.
  destruct (rebuild_T dt M K s) as [[T_mat T_e_mat] T_op]. simpl in HT. subst T_op.
  unfold ImplicitSolve_rhs in Hz.
  destruct (apply_essential_bcs K u rhs s) as [[y bc_rhs]|]; [|done]. simpl in Hz.
  injection Hz as <-. simpl. eexists. split; [reflexivity|]. simpl. by repeat split.
Qed.

Lemma ImplicitSolve_Some dt u s s' du_dt :
  ImplicitSolve dt u s = Some (s', du_dt) →
  ∃ M K rhs z T,
    m_M_mat s = Some M ∧ m_K_mat s = Some K ∧ m_rhs s = Some rhs ∧
    ImplicitSolve_rhs K rhs u s = Some z ∧
    (rebuild_T dt M K s).2 = Some T.
Proof.
  unfold ImplicitSolve. intros Hcall.
  destruct (m_M_mat s) as [M|]; [|done]. simpl in Hcall.
  destruct (m_K_mat s) as [K|]; [|done]. simpl in Hcall.
  destruct (rebuild_T dt M K s) as [[T_mat T_e_mat] T_op] eqn:HT.
  destruct (m_rhs s) as [rhs|]; [|done]. simpl in Hcall.
  destruct (apply_essential_bcs K u rhs s) as [[y bc_rhs]|] eqn:Hbc; [|done].
  simpl in Hcall.
  destruct T_op as [T|]; [|done].
  exists M, K, rhs, (Vector_Add (Vector_Neg (Mat_Mult K y)) 1 bc_rhs), T.
  unfold ImplicitSolve_rhs. by rewrite Hbc, HT.
Qed.

Lemma ImplicitSolve_rhs_is_Some K rhs u s :
  (is_Some (m_ess_bdr_coef s) → is_Some (m_K_e_mat s)) →
  is_Some (ImplicitSolve_rhs K rhs u s).
Proof.
  intros HKe. unfold ImplicitSolve_rhs, apply_essential_bcs.
  destruct (m_ess_bdr_coef s) as [coef|]; [|by eexists].
  destruct HKe as [K_e ->]; [by eexists|]. by eexists.
Qed.

Lemma configured_invariant s :
  configured s → m_old_dt s = -1 ∧ m_T_solver_operator s = None.
Proof. induction 1; done. Qed.

End MoreOfDynamicConductionOperator.

(** X15.  [ImplicitSolve] returns when the two matrices and the load vector
    are set, the eliminated stiffness matrix is set if a boundary
    coefficient is, and a matrix [T] was built before or [dt] differs from
    the step of the call before.  It builds [T = M + dt K], eliminates the
    essential dofs from it and hands it to the solver exactly when [dt]
    differs from [m_old_dt]; otherwise it solves with the matrix it has.
    Either way [m_old_dt] is [dt] afterwards, and the matrices, the load
    vector and the boundary data are unchanged. *)
Theorem ImplicitSolve_builds_T_when_dt_changes {Mat Coef : Type}
    `{!mfem_linear_algebra Mat Coef} (s : DynamicConductionOperator Mat Coef)
    (dt : R) (u : Vec) (M K : Mat) (rhs : Vec) :
  m_M_mat s = Some M → m_K_mat s = Some K → m_rhs s = Some rhs →
  (is_Some (m_ess_bdr_coef s) → is_Some (m_K_e_mat s)) →
  (dt ≠ m_old_dt s ∨ is_Some (m_T_solver_operator s)) →
  ∃ s' du_dt z,
    ImplicitSolve dt u s = Some (s', du_dt) ∧
    ImplicitSolve_rhs K rhs u s = Some z ∧
    m_old_dt s' = dt ∧
    (dt ≠ m_old_dt s →
     m_T_mat s' = Some (EliminateRowsCols (mfem_Add 1 M dt K) (m_ess_tdof_list s)).1 ∧
     m_T_e_mat s' = Some (EliminateRowsCols (mfem_Add 1 M dt K) (m_ess_tdof_list s)).2 ∧
     m_T_solver_operator s' = m_T_mat s' ∧
     du_dt = CGSolver_Mult (m_solver_params s) default_Type
               (EliminateRowsCols (mfem_Add 1 M dt K) (m_ess_tdof_list s)).1 z) ∧
    (dt = m_old_dt s →
     m_T_mat s' = m_T_mat s ∧ m_T_e_mat s' = m_T_e_mat s ∧
     m_T_solver_operator s' = m_T_solver_operator s ∧
     ∃ T, m_T_solver_operator s = Some T ∧
          du_dt = CGSolver_Mult (m_solver_params s) default_Type T z) ∧
    m_M_mat s' = m_M_mat s ∧ m_K_mat s' = m_K_mat s ∧ m_rhs s' = m_rhs s ∧
    m_ess_tdof_list s' = m_ess_tdof_list s ∧ m_ess_bdr_coef s' = m_ess_bdr_coef s.
Proof.
  intros HM HK Hrhs HKe HT.
  destruct (ImplicitSolve_rhs_is_Some K rhs u s HKe) as [z Hz].
  destruct (Req_dec_T dt (m_old_dt s)) as [Hsame|Hother].
  - destruct HT as [HT|[T HT]]; [done|].
    destruct (ImplicitSolve_eq dt u s M K rhs z T HM HK Hrhs Hz)
      as (s' & Hcall & Hold & HTm & HTe & HTo & HM' & HK' & Hrhs' & Hl & Hc & _).
    { by rewrite rebuild_T_same. }
    rewrite rebuild_T_same in HTm, HTe by done. simpl in HTm, HTe.
    exists s', (CGSolver_Mult (m_solver_params s) default_Type T z), z.
    split; [done|]. split; [done|]. split; [done|]. split; [done|].
    split; [|done]. intros _. split; [done|]. split; [done|].
    split; [by rewrite HTo, HT|]. by exists T.
  - set (T := (EliminateRowsCols (mfem_Add 1 M dt K) (m_ess_tdof_list s)).1).
    destruct (ImplicitSolve_eq dt u s M K rhs z T HM HK Hrhs Hz)
      as (s' & Hcall & Hold & HTm & HTe & HTo & HM' & HK' & Hrhs' & Hl & Hc & _).
    { by rewrite rebuild_T_other. }
    rewrite rebuild_T_other in HTm, HTe by done. simpl in HTm, HTe.
    exists s', (CGSolver_Mult (m_solver_params s) default_Type T z), z.
    split; [done|]. split; [done|]. split; [done|].
    split; [|split; [done|done]].
    intros _. split; [done|]. split; [done|]. split; [by rewrite HTo, HTm|done].
Qed.

Lemma ImplicitSolve_builds_T_when_dt_changes_witness :
  ∃ s' du_dt z,
    ImplicitSolve (1 / 2) [3] scalar_conduction_operator = Some (s', du_dt) ∧
    ImplicitSolve_rhs 2 [1] [3] scalar_conduction_operator = Some z ∧
    m_old_dt s' = 1 / 2 ∧
    (1 / 2 ≠ m_old_dt scalar_conduction_operator →
     m_T_mat s'
     = Some (EliminateRowsCols (mfem_Add 1 1 (1 / 2) 2)
               (m_ess_tdof_list scalar_conduction_operator)).1 ∧
     m_T_e_mat s'
     = Some (EliminateRowsCols (mfem_Add 1 1 (1 / 2) 2)
               (m_ess_tdof_list scalar_conduction_operator)).2 ∧
     m_T_solver_operator s' = m_T_mat s' ∧
     du_dt = CGSolver_Mult (m_solver_params scalar_conduction_operator) default_Type
               (EliminateRowsCols (mfem_Add 1 1 (1 / 2) 2)
                  (m_ess_tdof_list scalar_conduction_operator)).1 z) ∧
    (1 / 2 = m_old_dt scalar_conduction_operator →
     m_T_mat s' = m_T_mat scalar_conduction_operator ∧
     m_T_e_mat s' = m_T_e_mat scalar_conduction_operator ∧
     m_T_solver_operator s' = m_T_solver_operator scalar_conduction_operator ∧
     ∃ T, m_T_solver_operator scalar_conduction_operator = Some T ∧
          du_dt = CGSolver_Mult (m_solver_params scalar_conduction_operator)
                    default_Type T z) ∧
    m_M_mat s' = m_M_mat scalar_conduction_operator ∧
    m_K_mat s' = m_K_mat scalar_conduction_operator ∧
    m_rhs s' = m_rhs scalar_conduction_operator ∧
    m_ess_tdof_list s' = m_ess_tdof_list scalar_conduction_operator ∧
    m_ess_bdr_coef s' = m_ess_bdr_coef scalar_conduction_operator.
Proof.
  apply (ImplicitSolve_builds_T_when_dt_changes scalar_conduction_operator (1 / 2) [3] 1 2 [1]).
  - reflexivity.
  - reflexivity.
  - reflexivity.
  - intros [coef Hcoef]. discriminate.
  - left. simpl. lra.
Defined.

(** X16.  The solver of [ImplicitSolve] has the matrix [M + m_old_dt K] of
    the matrices and essential dofs that are set, once it has been built
    and as long as no setter is called: [ImplicitSolve] establishes this
    when [dt] differs from [m_old_dt] and keeps it otherwise, and [Mult]
    keeps it. *)
Theorem T_matrix_current_kept {Mat Coef : Type} `{!mfem_linear_algebra Mat Coef}
    (s : DynamicConductionOperator Mat Coef) :
  (∀ dt u s' du_dt,
     ImplicitSolve dt u s = Some (s', du_dt) →
     (dt ≠ m_old_dt s ∨ T_matrix_current s) → T_matrix_current s') ∧
  (∀ u s' du_dt,
     DynamicConductionOperator_Mult u s = Some (s', du_dt) →
     T_matrix_current s →
     T_matrix_current s' ∧ m_old_dt s' = m_old_dt s ∧ m_T_mat s' = m_T_mat s).
Proof.
  split.
  - intros dt u s' du_dt Hcall Hs.
    destruct (ImplicitSolve_Some _ _ _ _ _ Hcall) as (M & K & rhs & z & T & HM & HK & Hrhs & Hz & HT).
    destruct (ImplicitSolve_eq dt u s M K rhs z T HM HK Hrhs Hz HT)
      as (s2 & Hcall2 & Hold & _ & _ & HTo & HM' & HK' & _ & Hl & _).
    rewrite Hcall in Hcall2. injection Hcall2 as <- _.
    exists M, K. rewrite HM', HK', Hold, Hl, HTo. split; [done|]. split; [done|].
    destruct (Req_dec_T dt (m_old_dt s)) as [Hsame|Hother].
    + destruct Hs as [Hs|(M0 & K0 & HM0 & HK0 & HT0)]; [done|].
      rewrite rebuild_T_same in HT by done. simpl in HT.
      rewrite HT in HT0. rewrite HT0. rewrite HM in HM0. rewrite HK in HK0.
      injection HM0 as <-. injection HK0 as <-. by rewrite Hsame.
    + rewrite rebuild_T_other in HT by done. simpl in HT. by rewrite <- HT.
  - intros u s' du_dt Hcall (M & K & HM & HK & HT).
    unfold DynamicConductionOperator_Mult in Hcall. rewrite HM, HK in Hcall.
    simpl in Hcall.
    destruct (m_rhs s) as [rhs|]; [|done]. simpl in Hcall.
    destruct (m_K_e_mat s) as [K_e|]; [|done]. simpl in Hcall.
    injection Hcall as <- _. split; [|done].
    exists M, K. simpl. by rewrite ?HM, ?HK.
Qed.

(** X17.  No setter makes [ImplicitSolve] build [T] again.  After
    [SetKMatrix], [SetMMatrix] or [SetEssentialBCs], a call of
    [ImplicitSolve] with the time step of the call before solves with the
    matrix [T] that was built from the matrices and the essential dofs of
    before; what was set enters the right-hand side only. *)
Theorem setters_keep_the_T_matrix {Mat Coef : Type} `{!mfem_linear_algebra Mat Coef}
    (s : DynamicConductionOperator Mat Coef) (u : Vec) (M K T : Mat) (rhs : Vec) :
  m_M_mat s = Some M → m_K_mat s = Some K → m_rhs s = Some rhs →
  m_T_solver_operator s = Some T →
  (∀ K' K_e',
     (is_Some (m_ess_bdr_coef s) → is_Some K_e') →
     ∃ s' z,
       ImplicitSolve (m_old_dt s) u (SetKMatrix (Some K') K_e' s)
       = Some (s', CGSolver_Mult (m_solver_params s) default_Type T z) ∧
       ImplicitSolve_rhs K' rhs u (SetKMatrix (Some K') K_e' s) = Some z ∧
       m_T_solver_operator s' = Some T ∧ m_K_mat s' = Some K') ∧
  (∀ M' M_e',
     (is_Some (m_ess_bdr_coef s) → is_Some (m_K_e_mat s)) →
     ∃ s' z,
       ImplicitSolve (m_old_dt s) u (SetMMatrix (Some M') M_e' s)
       = Some (s', CGSolver_Mult (m_solver_params s) default_Type T z) ∧
       ImplicitSolve_rhs K rhs u s = Some z ∧
       m_T_solver_operator s' = Some T ∧ m_M_mat s' = Some M') ∧
  (∀ ess_bdr_coef ess_bdr ess_tdof_list,
     (is_Some ess_bdr_coef → is_Some (m_K_e_mat s)) →
     ∃ s' z,
       ImplicitSolve (m_old_dt s) u
         (SetEssentialBCs ess_bdr_coef ess_bdr ess_tdof_list s)
       = Some (s', CGSolver_Mult (m_solver_params s) default_Type T z) ∧
       ImplicitSolve_rhs K rhs u (SetEssentialBCs ess_bdr_coef ess_bdr ess_tdof_list s)
       = Some z ∧
       m_T_solver_operator s' = Some T ∧ m_ess_tdof_list s' = ess_tdof_list).
Proof.
  intros HM HK Hrhs HT.
  split; [|split].
  - intros K' K_e' HKe.
    destruct (ImplicitSolve_rhs_is_Some K' rhs u (SetKMatrix (Some K') K_e' s)) as [z Hz];
      [done|].
    destruct (ImplicitSolve_eq (m_old_dt s) u (SetKMatrix (Some K') K_e' s) M K' rhs z T)
      as (s' & Hcall & _ & _ & _ & HTo & _ & HK' & _); try done.
    { by rewrite rebuild_T_same. }
    by exists s', z.
  - intros M' M_e' HKe.
    destruct (ImplicitSolve_rhs_is_Some K rhs u s) as [z Hz]; [done|].
    destruct (ImplicitSolve_eq (m_old_dt s) u (SetMMatrix (Some M') M_e' s) M' K rhs z T)
      as (s' & Hcall & _ & _ & _ & HTo & HM' & _); try done.
    { by rewrite rebuild_T_same. }
    by exists s', z.
  - intros ess_bdr_coef ess_bdr ess_tdof_list HKe.
    destruct (ImplicitSolve_rhs_is_Some K rhs u
                (SetEssentialBCs ess_bdr_coef ess_bdr ess_tdof_list s)) as [z Hz]; [done|].
    destruct (ImplicitSolve_eq (m_old_dt s) u
                (SetEssentialBCs ess_bdr_coef ess_bdr ess_tdof_list s) M K rhs z T)
      as (s' & Hcall & _ & _ & _ & HTo & _ & _ & _ & Hl & _); try done.
    { by rewrite rebuild_T_same. }
    by exists s', z.
Qed.

(** [stepped_conduction_operator] is the object that a solve leaves. *)
Example scalar_conduction_operator_stepped :
  ∃ du_dt, ImplicitSolve (1 / 2) [3] scalar_conduction_operator
           = Some (stepped_conduction_operator, du_dt).
Proof.
  eexists. unfold ImplicitSolve. cbn [m_M_mat m_K_mat scalar_conduction_operator
    SetLoadVector SetKMatrix SetMMatrix mbind option_bind].
  rewrite rebuild_T_other by (simpl; lra). reflexivity.
Qed.

Lemma setters_keep_the_T_matrix_witness :
  (∀ K' K_e',
     (is_Some (m_ess_bdr_coef stepped_conduction_operator) → is_Some K_e') →
     ∃ s' z,
       ImplicitSolve (m_old_dt stepped_conduction_operator) [3]
         (SetKMatrix (Some K') K_e' stepped_conduction_operator)
       = Some (s', CGSolver_Mult (m_solver_params stepped_conduction_operator)
                     default_Type (1 * 1 + 1 / 2 * 2) z) ∧
       ImplicitSolve_rhs K' [1] [3] (SetKMatrix (Some K') K_e' stepped_conduction_operator)
       = Some z ∧
       m_T_solver_operator s' = Some (1 * 1 + 1 / 2 * 2) ∧ m_K_mat s' = Some K') ∧
  (∀ M' M_e',
     (is_Some (m_ess_bdr_coef stepped_conduction_operator) →
      is_Some (m_K_e_mat stepped_conduction_operator)) →
     ∃ s' z,
       ImplicitSolve (m_old_dt stepped_conduction_operator) [3]
         (SetMMatrix (Some M') M_e' stepped_conduction_operator)
       = Some (s', CGSolver_Mult (m_solver_params stepped_conduction_operator)
                     default_Type (1 * 1 + 1 / 2 * 2) z) ∧
       ImplicitSolve_rhs 2 [1] [3] stepped_conduction_operator = Some z ∧
       m_T_solver_operator s' = Some (1 * 1 + 1 / 2 * 2) ∧ m_M_mat s' = Some M') ∧
  (∀ ess_bdr_coef ess_bdr ess_tdof_list,
     (is_Some ess_bdr_coef → is_Some (m_K_e_mat stepped_conduction_operator)) →
     ∃ s' z,
       ImplicitSolve (m_old_dt stepped_conduction_operator) [3]
         (SetEssentialBCs ess_bdr_coef ess_bdr ess_tdof_list stepped_conduction_operator)
       = Some (s', CGSolver_Mult (m_solver_params stepped_conduction_operator)
                     default_Type (1 * 1 + 1 / 2 * 2) z) ∧
       ImplicitSolve_rhs 2 [1] [3]
         (SetEssentialBCs ess_bdr_coef ess_bdr ess_tdof_list stepped_conduction_operator)
       = Some z ∧
       m_T_solver_operator s' = Some (1 * 1 + 1 / 2 * 2) ∧
       m_ess_tdof_list s' = ess_tdof_list).
Proof.
  apply (setters_keep_the_T_matrix stepped_conduction_operator [3] 1 2 (1 * 1 + 1 / 2 * 2)
           [1]); reflexivity.
Defined.

(** X18.  The constructor sets [m_old_dt] to [-1.0] and no setter changes
    it or hands the second solver a matrix.  So a first call of
    [ImplicitSolve] with the time step [-1.0] takes the step for the one of
    a call before, builds no matrix, and has no defined result: the solver
    has no operator. *)
Theorem first_ImplicitSolve_with_the_initial_dt {Mat Coef : Type}
    `{!mfem_linear_algebra Mat Coef} (s : DynamicConductionOperator Mat Coef) :
  configured s →
  m_old_dt s = -1 ∧ m_T_mat s = None ∧
  ∀ u, ImplicitSolve (-1) u s = None.
Proof.
  intros Hs.
  assert (m_T_mat s = None) as HTm by (induction Hs; done).
  apply configured_invariant in Hs as [Hold HT].
  split; [done|]. split; [done|]. intros u. unfold ImplicitSolve.
  destruct (m_M_mat s) as [M|]; [|done]. simpl.
  destruct (m_K_mat s) as [K|]; [|done]. simpl.
  rewrite rebuild_T_same by done. rewrite HT.
  destruct (m_rhs s) as [rhs|]; [|done]. simpl.
  by destruct (apply_essential_bcs K u rhs s) as [[y bc_rhs]|].
Qed.

Lemma first_ImplicitSolve_with_the_initial_dt_witness :
  m_old_dt scalar_conduction_operator = -1 ∧ m_T_mat scalar_conduction_operator = None ∧
  ∀ u, ImplicitSolve (-1) u scalar_conduction_operator = None.
Proof.
  apply (first_ImplicitSolve_with_the_initial_dt scalar_conduction_operator).
  apply configured_SetLoadVector, configured_SetKMatrix, configured_SetMMatrix,
    configured_ctor.
Defined.

(** * [test_material_driver.cpp] *)

Section MoreOfMaterialDriver.
Context {StateType parameter_types : Type}.
Variable material : vec3 → vec3 → mat3 → StateType → parameter_types
                    → MaterialResponse * StateType.
Variable find_root : (R * R → R * R) → R * R → R * R.
Variable epsilon_xx : R → R.
Variable parameter_functions : R → parameter_types.

Lemma set_diagonal_off_diagonal_zero a b c A :
  off_diagonal_zero A → set_diagonal a b c A = ((a, 0, 0), (0, b, 0), (0, 0, c)).
Proof. by intros (a' & b' & c' & ->). Qed.

(** The loop, from any step on: it keeps the records it has, and adds one
    for each step that is left. *)
Lemma uniaxial_stress_test_loop_spec steps dt t state dudx output_history :
  off_diagonal_zero dudx →
  length (uniaxial_stress_test_loop material find_root epsilon_xx parameter_functions
            steps dt t state dudx output_history)
  = (length output_history + steps)%nat ∧
  (∀ i entry, output_history !! i = Some entry →
     uniaxial_stress_test_loop material find_root epsilon_xx parameter_functions
       steps dt t state dudx output_history !! i = Some entry) ∧
  ∀ k entry,
    uniaxial_stress_test_loop material find_root epsilon_xx parameter_functions
      steps dt t state dudx output_history !! (length output_history + k)%nat
    = Some entry →
    recorded material find_root epsilon_xx parameter_functions (t + INR (S k) * dt)
      (match k with
       | O => state
       | S j => from_option snd state
                  (uniaxial_stress_test_loop material find_root epsilon_xx
                     parameter_functions steps dt t state dudx output_history
                   !! (length output_history + j)%nat)
       end) entry.
Proof.
  revert t state dudx output_history.
  induction steps as [|steps IH]; intros t state dudx output_history Hdudx.
  - simpl. split; [lia|]. split; [done|].
    intros k entry Hk. apply lookup_lt_Some in Hk. lia.
  - cbn [uniaxial_stress_test_loop].
    set (t1 := t + dt).
    set (root := find_root
                   (sigma_yy_and_zz material epsilon_xx parameter_functions t1 state)
                   (0, 0)).
    rewrite (set_diagonal_off_diagonal_zero _ _ _ _ Hdudx).
    set (strain := ((epsilon_xx t1, 0, 0), (0, root.1, 0), (0, 0, root.2))).
    destruct (material unused unused strain state (parameter_functions t1))
      as [output state1] eqn:Hcall.
    set (history1 := output_history ++ [(strain, stress output, state1)]).
    destruct (IH t1 state1 strain history1) as (Hlen & Hkeep & Hnew).
    { by eexists _, _, _. }
    assert (length history1 = S (length output_history)) as Hlen1.
    { unfold history1. rewrite length_app. simpl. lia. }
    assert (uniaxial_stress_test_loop material find_root epsilon_xx parameter_functions
              steps dt t1 state1 strain history1 !! length output_history
            = Some (strain, stress output, state1)) as Hfirst.
    { apply Hkeep. unfold history1. by rewrite lookup_app_r, Nat.sub_diag. }
    split; [rewrite Hlen, Hlen1; lia|]. split.
    + intros i entry Hi. apply Hkeep. unfold history1.
      by rewrite lookup_app_l by (by apply lookup_lt_Some in Hi).
    + intros [|k] entry Hk.
      * rewrite Nat.add_0_r, Hfirst in Hk. injection Hk as <-.
        unfold recorded. simpl INR. replace (t + 1 * dt) with t1 by (unfold t1; lra).
        fold root. fold strain. rewrite Hcall. done.
      * replace (length output_history + S k)%nat with (length history1 + k)%nat in Hk
          by lia.
        specialize (Hnew k entry Hk).
        replace (t + INR (S (S k)) * dt) with (t1 + INR (S k) * dt)
          by (unfold t1; rewrite (S_INR (S k)); lra).
        destruct k as [|j].
        -- by rewrite Nat.add_0_r, Hfirst.
        -- replace (length output_history + S j)%nat with (length history1 + j)%nat
             by lia.
           destruct (uniaxial_stress_test_loop material find_root epsilon_xx
                       parameter_functions steps dt t1 state1 strain history1
                     !! (length history1 + j)%nat)
             as [previous|] eqn:Hprevious; [done|].
           exfalso. apply lookup_lt_Some in Hk.
           apply lookup_ge_None in Hprevious. lia.
Qed.

(** The records of the whole history. *)
Lemma uniaxial_stress_test_records t_max num_steps initial_state :
  length (uniaxial_stress_test material find_root epsilon_xx parameter_functions t_max
            num_steps initial_state) = num_steps ∧
  ∀ i entry,
    uniaxial_stress_test material find_root epsilon_xx parameter_functions t_max
      num_steps initial_state !! i = Some entry →
    recorded material find_root epsilon_xx parameter_functions
      (INR (S i) * (t_max / INR num_steps))
      (state_before initial_state
         (uniaxial_stress_test material find_root epsilon_xx parameter_functions t_max
            num_steps initial_state) i)
      entry.
Proof.
  destruct (uniaxial_stress_test_loop_spec num_steps (t_max / INR num_steps) 0
              initial_state zero_tensor []) as (Hlen & _ & Hnew).
  { by exists 0, 0, 0. }
  split; [exact Hlen|].
  intros i entry Hi. specialize (Hnew i entry Hi).
  by rewrite Rplus_0_l in Hnew.
Qed.

End MoreOfMaterialDriver.

(** X19.  [uniaxial_stress_test] returns one record for each step.  The
    record of step [i] holds: a diagonal displacement gradient, whose first
    entry is the prescribed strain at the time [(i + 1) * t_max / num_steps]
    and whose two other entries are what [find_root] returned for the
    lateral stresses at that time and at the state of the record before
    (the initial state for the first one); and the stress and the state that
    the material returns for this gradient from that same state.  The
    evaluations of the root finder leave the state alone. *)
Theorem uniaxial_stress_test_history {StateType parameter_types : Type}
    (material : vec3 → vec3 → mat3 → StateType → parameter_types
                → MaterialResponse * StateType)
    (find_root : (R * R → R * R) → R * R → R * R) (epsilon_xx : R → R)
    (parameter_functions : R → parameter_types)
    (t_max : R) (num_steps : nat) (initial_state : StateType) :
  length (uniaxial_stress_test material find_root epsilon_xx parameter_functions t_max
            num_steps initial_state) = num_steps ∧
  ∀ i strain sigma state,
    uniaxial_stress_test material find_root epsilon_xx parameter_functions t_max
      num_steps initial_state !! i = Some (strain, sigma, state) →
    let t := INR (S i) * (t_max / INR num_steps) in
    let previous :=
      state_before initial_state
        (uniaxial_stress_test material find_root epsilon_xx parameter_functions t_max
           num_steps initial_state) i in
    let root :=
      find_root (sigma_yy_and_zz material epsilon_xx parameter_functions t previous)
        (0, 0) in
    strain = ((epsilon_xx t, 0, 0), (0, root.1, 0), (0, 0, root.2)) ∧
    stress (material unused unused strain previous (parameter_functions t)).1 = sigma ∧
    (material unused unused strain previous (parameter_functions t)).2 = state.
Proof.
  destruct (uniaxial_stress_test_records material find_root epsilon_xx
              parameter_functions t_max num_steps initial_state) as [Hlen Hrecords].
  split; [exact Hlen|].
  intros i strain sigma state Hi. cbv zeta.
  destruct (Hrecords i _ Hi) as (Hstrain & Hsigma & Hstate).
  cbn [fst snd] in Hstrain, Hsigma, Hstate.
  split; [exact Hstrain|].
  rewrite <- Hstrain in Hsigma, Hstate. by split.
Qed.

(** X20.  When the root finder returns a root of the function it is
    handed, every record of the history is a state of uniaxial stress: its
    two lateral stresses are zero. *)
Theorem uniaxial_stress_test_is_uniaxial {StateType parameter_types : Type}
    (material : vec3 → vec3 → mat3 → StateType → parameter_types
                → MaterialResponse * StateType)
    (find_root : (R * R → R * R) → R * R → R * R) (epsilon_xx : R → R)
    (parameter_functions : R → parameter_types)
    (t_max : R) (num_steps : nat) (initial_state : StateType) :
  (∀ t state,
     sigma_yy_and_zz material epsilon_xx parameter_functions t state
       (find_root (sigma_yy_and_zz material epsilon_xx parameter_functions t state) (0, 0))
     = (0, 0)) →
  Forall (λ entry : mat3 * mat3 * StateType,
            let '(_, (_, s11, _), (_, _, s22)) := entry.1.2 in s11 = 0 ∧ s22 = 0)
    (uniaxial_stress_test material find_root epsilon_xx parameter_functions t_max
       num_steps initial_state).
Proof.
  intros Hroot. apply Forall_lookup. intros i [[strain sigma] state] Hi.
  destruct (uniaxial_stress_test_records material find_root epsilon_xx
              parameter_functions t_max num_steps initial_state) as [_ Hrecords].
  destruct (Hrecords i _ Hi) as (_ & Hsigma & _). cbn [fst snd] in Hsigma.
  match type of Hsigma with
  | sigma = stress (material _ _ _ ?previous (parameter_functions ?t)).1 =>
      specialize (Hroot t previous)
  end.
  unfold sigma_yy_and_zz in Hroot at 1. cbv zeta in Hroot.
  rewrite <- Hsigma in Hroot. cbn [fst snd].
  destruct sigma as [[[[s00 s01] s02] [[s10 s11] s12]] [[s20 s21] s22]].
  by injection Hroot as -> ->.
Qed.

Lemma uniaxial_stress_test_is_uniaxial_witness :
  Forall (λ entry : mat3 * mat3 * unit,
            let '(_, (_, s11, _), (_, _, s22)) := entry.1.2 in s11 = 0 ∧ s22 = 0)
    (uniaxial_stress_test identity_material initial_guess_root (λ t, t) (λ _, ()) 1 2 ()).
Proof.
  apply (uniaxial_stress_test_is_uniaxial identity_material initial_guess_root
           (λ t, t) (λ _, ()) 1 2 ()).
  intros t state. reflexivity.
Defined.

(** * More of [functional.hpp]: the assembled matrix *)

(** X21.  [assemble()] returns when the local input vector of its argument
    exists.  The matrix it returns has the sparsity pattern of the lookup
    tables and the sizes of the local vectors, and all its values are zero,
    for every [Functional]: applied to any vector it gives the transposed
    prolongation of a zero vector, and it is the same matrix whatever the
    integrals are.  Of the gradient operator the call changes the copy of
    the column indices only. *)
Theorem assemble_whatever_the_integrals {qf_input qf_output qpt_data_type : Type}
    (form_ : Functional qf_input qf_output qpt_data_type) (g : Gradient) :
  (which_argument g < length (input_L_ form_))%nat →
  ∃ g' A,
    assemble form_ g
    = Some (g', RAP (Dof_TrueDof_Matrix (test_space_ form_)) A
                  (Dof_TrueDof_Matrix (Gradient_trial_space_ g))) ∧
    csr_I A = row_ptr (lookup_tables g) ∧ csr_J A = col_ind (lookup_tables g) ∧
    csr_A A = zeros (nnz (lookup_tables g)) ∧
    csr_height A = length (output_L_ form_) ∧
    Some (csr_width A) = length <$> input_L_ form_ !! which_argument g ∧
    (∀ v, HypreParMatrix_Mult
            (RAP (Dof_TrueDof_Matrix (test_space_ form_)) A
               (Dof_TrueDof_Matrix (Gradient_trial_space_ g))) v
          = MultTranspose (Dof_TrueDof_Matrix (test_space_ form_))
              (zeros (length (output_L_ form_)))) ∧
    (∀ integrals,
       assemble (set_integrals_ integrals form_) g
       = assemble form_ g) ∧
    col_ind_copy_ g' = col_ind (lookup_tables g) ∧
    lookup_tables g' = lookup_tables g ∧ which_argument g' = which_argument g ∧
    df_ g' = df_ g.
Proof.
  intros Hwhich.
  destruct (lookup_lt_is_Some_2 _ _ Hwhich) as [input_L Hinput].
  assert (assemble form_ g
          = Some ({| lookup_tables := lookup_tables g;
                     col_ind_copy_ := col_ind (lookup_tables g);
                     which_argument := which_argument g;
                     Gradient_test_space_ := Gradient_test_space_ g;
                     Gradient_trial_space_ := Gradient_trial_space_ g; df_ := df_ g |},
                  RAP (Dof_TrueDof_Matrix (test_space_ form_))
                    {| csr_I := row_ptr (lookup_tables g);
                       csr_J := col_ind (lookup_tables g);
                       csr_A := zeros (nnz (lookup_tables g));
                       csr_height := length (output_L_ form_);
                       csr_width := length input_L |}
                    (Dof_TrueDof_Matrix (Gradient_trial_space_ g)))) as Hassemble.
  { unfold assemble. by rewrite Hinput. }
  eexists _, _. split; [exact Hassemble|]. cbn [csr_I csr_J csr_A csr_height csr_width].
  split; [done|]. split; [done|]. split; [done|]. split; [done|].
  split; [by rewrite Hinput|]. split.
  - intros v. by rewrite (assemble_ignores_the_integrals _ _ _ _ v Hassemble).
  - split; [|done]. intros integrals. by destruct form_.
Qed.

Lemma assemble_whatever_the_integrals_witness :
  ∃ g' A,
    assemble (set_integrals_ [mass_integral] constructed_functional) gradient_0
    = Some (g', RAP (Dof_TrueDof_Matrix
                       (test_space_ (set_integrals_ [mass_integral] constructed_functional)))
                  A (Dof_TrueDof_Matrix (Gradient_trial_space_ gradient_0))) ∧
    csr_I A = row_ptr (lookup_tables gradient_0) ∧
    csr_J A = col_ind (lookup_tables gradient_0) ∧
    csr_A A = zeros (nnz (lookup_tables gradient_0)) ∧
    csr_height A
    = length (output_L_ (set_integrals_ [mass_integral] constructed_functional)) ∧
    Some (csr_width A)
    = length <$> input_L_ (set_integrals_ [mass_integral] constructed_functional)
                 !! which_argument gradient_0 ∧
    (∀ v, HypreParMatrix_Mult
            (RAP (Dof_TrueDof_Matrix
                    (test_space_ (set_integrals_ [mass_integral] constructed_functional)))
               A (Dof_TrueDof_Matrix (Gradient_trial_space_ gradient_0))) v
          = MultTranspose
              (Dof_TrueDof_Matrix
                 (test_space_ (set_integrals_ [mass_integral] constructed_functional)))
              (zeros (length (output_L_
                                (set_integrals_ [mass_integral] constructed_functional))))) ∧
    (∀ integrals,
       assemble (set_integrals_ integrals
                   (set_integrals_ [mass_integral] constructed_functional)) gradient_0
       = assemble (set_integrals_ [mass_integral] constructed_functional) gradient_0) ∧
    col_ind_copy_ g' = col_ind (lookup_tables gradient_0) ∧
    lookup_tables g' = lookup_tables gradient_0 ∧
    which_argument g' = which_argument gradient_0 ∧
    df_ g' = df_ gradient_0.
Proof.
  apply (assemble_whatever_the_integrals
           (set_integrals_ [mass_integral] constructed_functional) gradient_0).
  simpl. lia.
Defined.
